(** * Candle aggregation and volume tracking of the price-feed service

    A shallow embedding of the aggregation core of the price feed: the
    multi-pool service (its [updateOHLCData], [generateLongerInterval],
    [validateAndFixOHLCContinuity], [updateVolume], [filterOHLCByTimeRange],
    [limitDatapoints] and the [/api/price/query] handler) and the
    single-pool [index.js] variant of [updateOHLCData].

    JavaScript numbers are modelled as integers: timestamps are Unix
    milliseconds, prices and USD amounts are counted in a fixed smallest
    unit.  On integers below 2^53 [Math.floor (a / b) * b] is the exact
    floor division, [Math.max], [Math.min], [>=] and [!==] are the usual
    order and equality.  NaN, infinities and rounding are outside the model.
    [Date.now ()] is an explicit argument [now]; the module-level array
    [volumeHistory] and the map [poolsData] are explicit state. *)

From Stdlib Require Import ZArith Lia Ascii String.
From stdpp Require Import gmap strings list sorting.

Local Open Scope Z_scope.

(** ** Data model *)

(** One OHLC candle, [{ timestamp, open, high, low, close }]. *)
Record Candle := mkCandle {
  timestamp : Z;
  open : Z;
  high : Z;
  low : Z;
  close : Z
}.

(** A raw price sample of [poolData.history]. *)
Record HistoryItem := mkHistoryItem {
  h_price : Z;
  h_timestamp : Z
}.

(** An entry of the module-level [volumeHistory] array. *)
Record VolumeEntry := mkVolumeEntry {
  ve_volume : Z;
  ve_timestamp : Z
}.

(** [poolData.volume]; the fields "24h", "7d" and "30d" are [vol24h],
    [vol7d] and [vol30d]. *)
Record Volume := mkVolume {
  vol24h : Z;
  vol7d : Z;
  vol30d : Z;
  total : Z;
  lastReset : Z
}.

(** The ten keys of [poolData.ohlc]. *)
Inductive Interval :=
  | I_1m | I_5m | I_15m | I_30m | I_1h | I_6h | I_12h | I_24h | I_1w | I_1M.

#[global] Instance Interval_eq_dec : EqDecision Interval.
Proof. solve_decision. Defined.

Record PoolData := mkPoolData {
  latestPrice : option Z;
  history : list HistoryItem;
  lastUpdated : option Z;
  ohlc : Interval -> list Candle;
  volume : Volume
}.

(** [createPoolData ()], with [Date.now ()] passed in. *)
Definition createPoolData (now : Z) : PoolData :=
  {| latestPrice := None;
     history := [];
     lastUpdated := None;
     ohlc := fun _ => [];
     volume := mkVolume 0 0 0 0 now |}.

(** [DATAPOINT_LIMITS]. *)
Definition DATAPOINT_LIMITS (interval : Interval) : nat :=
  match interval with
  | I_1m => 100 | I_5m => 100 | I_15m => 100 | I_30m => 100 | I_1h => 100
  | I_6h => 100 | I_12h => 100 | I_24h => 100 | I_1w => 100 | I_1M => 100
  end%nat.

(** The [intervals] object of [updateOHLCData], in key order. *)
Definition intervals : list (Interval * Z) :=
  [ (I_1m, 1 * 60 * 1000);
    (I_5m, 5 * 60 * 1000);
    (I_15m, 15 * 60 * 1000);
    (I_30m, 30 * 60 * 1000);
    (I_1h, 60 * 60 * 1000);
    (I_6h, 6 * 60 * 60 * 1000);
    (I_12h, 12 * 60 * 60 * 1000);
    (I_24h, 24 * 60 * 60 * 1000);
    (I_1w, 7 * 24 * 60 * 60 * 1000);
    (I_1M, 30 * 24 * 60 * 60 * 1000) ].

(** The width [intervals[interval]] in milliseconds. *)
Definition intervalMs (interval : Interval) : Z :=
  match interval with
  | I_1m => 60000 | I_5m => 300000 | I_15m => 900000 | I_30m => 1800000
  | I_1h => 3600000 | I_6h => 21600000 | I_12h => 43200000
  | I_24h => 86400000 | I_1w => 604800000 | I_1M => 2592000000
  end.

(** ** JavaScript array helpers *)

(** [arr.slice (-n)]: the last [n] elements; [slice (-0)] is [slice (0)],
    the whole array. *)
Definition slice_neg {A} (n : nat) (arr : list A) : list A :=
  if (n =? 0)%nat then arr else drop (length arr - n) arr.

(** Assignment to the fields of [arr[arr.length - 1]]. *)
Definition alterLast {A} (f : A -> A) (arr : list A) : list A :=
  alter f (pred (length arr)) arr.

(** [poolData.ohlc[interval] = candles]. *)
Definition set_ohlc (interval : Interval) (candles : list Candle)
    (poolData : PoolData) : PoolData :=
  {| latestPrice := latestPrice poolData;
     history := history poolData;
     lastUpdated := lastUpdated poolData;
     ohlc := fun i => if decide (i = interval) then candles else ohlc poolData i;
     volume := volume poolData |}.

(** ** The candle aggregator: [updateOHLCData] of the multi-pool service *)

(** [Math.floor (timestamp / ms) * ms], for a width [ms] other than 0 (all
    widths of the service are positive constants; for a zero width the
    JavaScript value is NaN). *)
Definition roundedTimestamp (t ms : Z) : Z := t / ms * ms.

(** The else branch: fold the sample into the current candle. *)
Definition foldPrice (price : Z) (currentCandle : Candle) : Candle :=
  {| timestamp := timestamp currentCandle;
     open := open currentCandle;
     high := Z.max (high currentCandle) price;
     low := Z.min (low currentCandle) price;
     close := price |}.

(** The candle list after the push or the in-place update, before the
    length limit is applied. *)
Definition foldSample (ms : Z) (currentOHLC : list Candle) (price t : Z)
    : list Candle :=
  match last currentOHLC with
  | None =>
      currentOHLC ++ [mkCandle (roundedTimestamp t ms) price price price price]
  | Some lastCandle =>
      if timestamp lastCandle + ms <=? t
      then currentOHLC ++
           [mkCandle (roundedTimestamp t ms) (close lastCandle) price price price]
      else alterLast (foldPrice price) currentOHLC
  end.

(** The length limit at the end of each iteration. *)
Definition limitCandles {A} (limit : nat) (currentOHLC : list A) : list A :=
  if (limit <? length currentOHLC)%nat then slice_neg limit currentOHLC
  else currentOHLC.

(** One iteration of the [forEach] over [Object.entries (intervals)]. *)
Definition updateInterval (interval : Interval) (ms : Z) (price t : Z)
    (poolData : PoolData) : PoolData :=
  set_ohlc interval
    (limitCandles (DATAPOINT_LIMITS interval)
       (foldSample ms (ohlc poolData interval) price t))
    poolData.

Definition updateOHLCData (poolData : PoolData) (price t : Z) : PoolData :=
  fold_left (fun pd '(interval, ms) => updateInterval interval ms price t pd)
    intervals poolData.

(** A run of the aggregator: the samples [(price, timestamp)] are fed in
    list order. *)
Definition feed (poolData : PoolData) (samples : list (Z * Z)) : PoolData :=
  fold_left (fun pd '(price, t) => updateOHLCData pd price t) samples poolData.

(** ** The single-pool variant: [updateOHLCData] of [index.js] *)

Module Legacy.

(** A candle of [index.js] also counts the samples folded into it. *)
Record Candle := mkCandle {
  timestamp : Z;
  open : Z;
  high : Z;
  low : Z;
  close : Z;
  volume : Z
}.

Definition foldPrice (price : Z) (currentCandle : Candle) : Candle :=
  {| timestamp := timestamp currentCandle;
     open := open currentCandle;
     high := Z.max (high currentCandle) price;
     low := Z.min (low currentCandle) price;
     close := price;
     volume := volume currentCandle + 1 |}.

Definition foldSample (ms : Z) (currentOHLC : list Candle) (price t : Z)
    : list Candle :=
  match last currentOHLC with
  | None =>
      currentOHLC ++ [mkCandle (roundedTimestamp t ms) price price price price 1]
  | Some lastCandle =>
      if timestamp lastCandle + ms <=? t
      then currentOHLC ++
           [mkCandle (roundedTimestamp t ms) price price price price 1]
      else alterLast (foldPrice price) currentOHLC
  end.

(** The [maxCandles] object literal. *)
Definition maxCandles (interval : Interval) : nat :=
  match interval with
  | I_1m => 100 | I_5m => 100 | I_15m => 100 | I_30m => 100 | I_1h => 100
  | I_6h => 100 | I_12h => 100 | I_24h => 100 | I_1w => 100 | I_1M => 100
  end%nat.

(** [priceData.ohlc], the only part of [priceData] the function touches. *)
Definition Ohlc := Interval -> list Candle.

Definition updateInterval (interval : Interval) (ms : Z) (price t : Z)
    (priceData : Ohlc) : Ohlc :=
  fun i =>
    if decide (i = interval)
    then limitCandles (maxCandles interval)
           (foldSample ms (priceData interval) price t)
    else priceData i.

Definition updateOHLCData (priceData : Ohlc) (price t : Z) : Ohlc :=
  fold_left (fun pd '(interval, ms) => updateInterval interval ms price t pd)
    intervals priceData.

End Legacy.

(** ** Interval derivation: [generateLongerInterval] *)

(** The update of an existing target candle. *)
Definition mergeCandle (candle targetCandle : Candle) : Candle :=
  {| timestamp := timestamp targetCandle;
     open := open targetCandle;
     high := Z.max (high targetCandle) (high candle);
     low := Z.min (low targetCandle) (low candle);
     close := close candle |}.

(** The body of the [forEach]: [result.find] returns the first candle of
    [result] with the target timestamp; it is updated in place, or a new
    candle is pushed when there is none. *)
Definition deriveStep (targetIntervalMs : Z) (result : list Candle)
    (candle : Candle) : list Candle :=
  let targetTimestamp := roundedTimestamp (timestamp candle) targetIntervalMs in
  match list_find (fun c => timestamp c = targetTimestamp) result with
  | None =>
      result ++ [mkCandle targetTimestamp (open candle) (high candle)
                   (low candle) (close candle)]
  | Some (i, _) => alter (mergeCandle candle) i result
  end.

(** The target candles in creation order, before the final sort. *)
Definition deriveBuckets (sourceCandles : list Candle) (targetIntervalMs : Z)
    : list Candle :=
  fold_left (deriveStep targetIntervalMs) sourceCandles [].

(** The comparator [(a, b) => a.timestamp - b.timestamp] as an order. *)
Definition byTimestamp (a b : Candle) : Prop := timestamp a <= timestamp b.

#[global] Instance byTimestamp_dec a b : Decision (byTimestamp a b).
Proof. unfold byTimestamp. apply _. Defined.

(** [result.sort (...)]: a stable sort, as [Array.prototype.sort] is. *)
Definition sortByTimestamp (result : list Candle) : list Candle :=
  merge_sort byTimestamp result.

Definition generateLongerInterval (sourceCandles : list Candle)
    (targetIntervalMs : Z) : list Candle :=
  match sourceCandles with
  | [] => []
  | _ => sortByTimestamp (deriveBuckets sourceCandles targetIntervalMs)
  end.

(** ** Continuity repair: [validateAndFixOHLCContinuity] *)

(** [currCandle.open = prevCandle.close]. *)
Definition setOpen (o : Z) (c : Candle) : Candle :=
  {| timestamp := timestamp c; open := o; high := high c; low := low c;
     close := close c |}.

(** The [for] loop from index [i] on, [prevClose] being
    [candles[i - 1].close]; returns the repaired tail and the number of
    repairs. *)
Fixpoint fixFrom (prevClose : Z) (candles : list Candle)
    : list Candle * nat :=
  match candles with
  | [] => ([], 0%nat)
  | currCandle :: rest =>
      let '(rest', n) := fixFrom (close currCandle) rest in
      if decide (prevClose <> open currCandle)
      then (setOpen prevClose currCandle :: rest', S n)
      else (currCandle :: rest', n)
  end.

(** The loop over one interval's candles, [i] starting at 1. *)
Definition fixCandles (candles : list Candle) : list Candle * nat :=
  match candles with
  | [] => ([], 0%nat)
  | first :: rest =>
      let '(rest', n) := fixFrom (close first) rest in (first :: rest', n)
  end.

(** The keys of [poolData.ohlc], in [Object.entries] order. *)
Definition ohlcKeys : list Interval := fst <$> intervals.

(** Returns the pool data with the candles repaired in place, and
    [fixCount]. *)
Definition validateAndFixOHLCContinuity (poolData : PoolData)
    : PoolData * nat :=
  fold_left
    (fun '(pd, fixCount) interval =>
       let fixed := fixCandles (ohlc pd interval) in
       (set_ohlc interval fixed.1 pd, (fixCount + fixed.2)%nat))
    ohlcKeys (poolData, 0%nat).

#[global] Instance Candle_eq_dec : EqDecision Candle.
Proof. solve_decision. Defined.

(** The number of positions at which the repaired list differs from the
    loaded one: the candles that were repaired. *)
Definition repairedCount (before after : list Candle) : nat :=
  length (filter (fun p : Candle * Candle => p.1 <> p.2) (zip before after)).

(** Continuity of a candle list: each candle opens at its predecessor's
    close. *)
Definition continuous (candles : list Candle) : Prop :=
  forall i prevCandle currCandle,
    candles !! i = Some prevCandle ->
    candles !! S i = Some currCandle ->
    open currCandle = close prevCandle.

(** Continuity of a tail whose predecessor closed at [prevClose]. *)
Fixpoint chained (prevClose : Z) (candles : list Candle) : Prop :=
  match candles with
  | [] => True
  | c :: rest => open c = prevClose /\ chained (close c) rest
  end.

(** ** The volume tracker: [updateVolume] and the shared [volumeHistory] *)

(** [volumeHistory.filter (v => v.timestamp >= since)
      .reduce ((sum, v) => sum + v.volume, 0)].  Amounts are whole
    numbers here and [+] is exact; the code adds doubles, which gives the
    same sums as long as the amounts are whole numbers and their sums do
    not exceed [Number.MAX_SAFE_INTEGER] (see [exactAmounts]). *)
Definition sumVolumes (since : Z) (volumeHistory : list VolumeEntry) : Z :=
  fold_left (fun sum v => sum + ve_volume v)
    (filter (fun v => since <= ve_timestamp v) volumeHistory) 0.

(** The [while] loop that shifts entries older than [cutoffTime] off the
    head of the array. *)
Fixpoint shiftOld (cutoffTime : Z) (volumeHistory : list VolumeEntry)
    : list VolumeEntry :=
  match volumeHistory with
  | [] => []
  | v :: rest =>
      if decide (ve_timestamp v < cutoffTime) then shiftOld cutoffTime rest
      else v :: rest
  end.

(** [poolData.volume = vol]. *)
Definition set_volume (vol : Volume) (poolData : PoolData) : PoolData :=
  {| latestPrice := latestPrice poolData;
     history := history poolData;
     lastUpdated := lastUpdated poolData;
     ohlc := ohlc poolData;
     volume := vol |}.

Definition dayMs : Z := 24 * 60 * 60 * 1000.
Definition weekMs : Z := 7 * 24 * 60 * 60 * 1000.
Definition monthMs : Z := 30 * 24 * 60 * 60 * 1000.

(** [updateVolume (poolData, volumeInUSD)]: returns the updated pool data
    and the new content of [volumeHistory]. *)
Definition updateVolume (poolData : PoolData) (volumeInUSD now : Z)
    (volumeHistory : list VolumeEntry) : PoolData * list VolumeEntry :=
  let pushed := volumeHistory ++ [mkVolumeEntry volumeInUSD now] in
  let dayAgo := now - dayMs in
  let weekAgo := now - weekMs in
  let monthAgo := now - monthMs in
  let vol :=
    {| vol24h := sumVolumes dayAgo pushed;
       vol7d := sumVolumes weekAgo pushed;
       vol30d := sumVolumes monthAgo pushed;
       total := total (volume poolData) + volumeInUSD;
       lastReset := lastReset (volume poolData) |} in
  (set_volume vol poolData, shiftOld monthAgo pushed).

(** ** The pool registry *)

(** [String.prototype.toLowerCase] on ASCII letters. *)
Definition lowerAscii (a : ascii) : ascii :=
  let n := nat_of_ascii a in
  if ((65 <=? n) && (n <=? 90))%nat then ascii_of_nat (n + 32) else a.

Fixpoint toLowerCase (s : string) : string :=
  match s with
  | EmptyString => EmptyString
  | String a rest => String (lowerAscii a) (toLowerCase rest)
  end.

(** The module-level state of the service: the map [poolsData] and the
    array [volumeHistory]. *)
Record Service := mkService {
  poolsData : gmap string PoolData;
  volumeHistory : list VolumeEntry
}.

(** [getPoolData (poolAddress)]: the pool's data, created on first
    reference, and the map afterwards. *)
Definition getPoolData (poolAddress : string) (now : Z)
    (pools : gmap string PoolData) : PoolData * gmap string PoolData :=
  let normalizedAddress := toLowerCase poolAddress in
  match pools !! normalizedAddress with
  | Some poolData => (poolData, pools)
  | None =>
      let newPoolData := createPoolData now in
      (newPoolData, <[normalizedAddress := newPoolData]> pools)
  end.

(** The processing of one decoded swap event of pool [poolAddress]:
    [getPoolData] then [updateVolume]; the pool's object is updated in
    place, so the map entry changes with it. *)
Definition recordSwap (poolAddress : string) (volumeUSD now : Z)
    (st : Service) : Service :=
  let '(poolData, pools) := getPoolData poolAddress now (poolsData st) in
  let '(poolData', history') :=
    updateVolume poolData volumeUSD now (volumeHistory st) in
  {| poolsData := <[toLowerCase poolAddress := poolData']> pools;
     volumeHistory := history' |}.


(** ** The query surface: [/api/price/query] *)

Definition mapInterval (interval : string) : option Interval :=
  if decide (interval = "1" \/ interval = "1m") then Some I_1m
  else if decide (interval = "5" \/ interval = "5m") then Some I_5m
  else if decide (interval = "15" \/ interval = "15m") then Some I_15m
  else if decide (interval = "30" \/ interval = "30m") then Some I_30m
  else if decide (interval = "60" \/ interval = "1h" \/ interval = "1hour")
  then Some I_1h
  else if decide (interval = "360" \/ interval = "6" \/ interval = "6h")
  then Some I_6h
  else if decide (interval = "720" \/ interval = "12" \/ interval = "12h")
  then Some I_12h
  else if decide (interval = "1440" \/ interval = "24" \/ interval = "24h")
  then Some I_24h
  else if decide (interval = "1w" \/ interval = "week") then Some I_1w
  else if decide (interval = "1M" \/ interval = "month") then Some I_1M
  else None.

(** Truthiness of a value that is [null] or a number. *)
Definition truthy (x : option Z) : bool :=
  match x with
  | Some n => negb (n =? 0)
  | None => false
  end.

(** [candleTime >= bound], evaluated only when [bound] is a number. *)
Definition geBound (candleTime : Z) (bound : option Z) : bool :=
  match bound with Some b => b <=? candleTime | None => true end.

Definition leBound (candleTime : Z) (bound : option Z) : bool :=
  match bound with Some b => candleTime <=? b | None => true end.

(** The predicate of the [filter] call in [filterOHLCByTimeRange]. *)
Definition inTimeRange (fromTimestamp toTimestamp : option Z)
    (candle : Candle) : bool :=
  let candleTime := timestamp candle in
  let afterFrom := negb (truthy fromTimestamp) || geBound candleTime fromTimestamp in
  let beforeTo := negb (truthy toTimestamp) || leBound candleTime toTimestamp in
  afterFrom && beforeTo.

Definition filterOHLCByTimeRange (ohlcData : list Candle)
    (fromTimestamp toTimestamp : option Z) : list Candle :=
  match ohlcData with
  | [] => []
  | _ => filter (fun candle => inTimeRange fromTimestamp toTimestamp candle)
           ohlcData
  end.

Definition limitDatapoints (data : list Candle) (intervalKey : Interval)
    : list Candle :=
  match data with
  | [] => data
  | _ =>
      let limit :=
        if (DATAPOINT_LIMITS intervalKey =? 0)%nat then 100%nat
        else DATAPOINT_LIMITS intervalKey in
      if (length data <=? limit)%nat then data else slice_neg limit data
  end.

(** A timestamp parameter of the query string: missing or empty, a string
    on which [parseInt] gives NaN, or a string on which it gives [n]. *)
Inductive QueryParam :=
  | Absent
  | NotANumber
  | Number (n : Z).

(** The value of [fromTimestamp] and [toTimestamp] after parsing. *)
Definition parsed (p : QueryParam) : option Z :=
  match p with Number n => Some n | _ => None end.

Inductive Response :=
  | Status400 (error : string)
  | Status200 (interval : Interval) (from_timestamp to_timestamp : option Z)
      (count : nat) (ohlc : list Candle) (lastUpdated : option Z).

(** [fromTimestamp > toTimestamp], evaluated only on two numbers. *)
Definition gtTimestamp (fromTimestamp toTimestamp : option Z) : bool :=
  match fromTimestamp, toTimestamp with
  | Some f, Some t => t <? f
  | _, _ => false
  end.

(** The handler of [GET /api/price/query] after [parsePoolAddress]. *)
Definition priceQuery (poolData : PoolData) (interval : option string)
    (from_timestamp to_timestamp : QueryParam) : Response :=
  match interval with
  | None => Status400 "Missing required parameter: interval"
  | Some token =>
    if decide (token = "") then Status400 "Missing required parameter: interval"
    else
    match mapInterval token with
    | None => Status400 "Invalid interval parameter"
    | Some intervalKey =>
      match from_timestamp, to_timestamp with
      | NotANumber, _ =>
          Status400 "Invalid from_timestamp parameter. Must be a valid Unix timestamp in milliseconds."
      | _, NotANumber =>
          Status400 "Invalid to_timestamp parameter. Must be a valid Unix timestamp in milliseconds."
      | _, _ =>
        let fromTimestamp := parsed from_timestamp in
        let toTimestamp := parsed to_timestamp in
        if truthy fromTimestamp && truthy toTimestamp
           && gtTimestamp fromTimestamp toTimestamp
        then Status400 "from_timestamp cannot be greater than to_timestamp"
        else
          let ohlcData := ohlc poolData intervalKey in
          let filteredData :=
            filterOHLCByTimeRange ohlcData fromTimestamp toTimestamp in
          let limitedData := limitDatapoints filteredData intervalKey in
          Status200 intervalKey fromTimestamp toTimestamp
            (length limitedData) limitedData (lastUpdated poolData)
      end
    end
  end.

(** ** Candle invariants *)

(** [low <= close <= high]. *)
Definition closeInRange (c : Candle) : Prop := low c <= close c <= high c.

(** [low <= open <= high]. *)
Definition openInRange (c : Candle) : Prop := low c <= open c <= high c.

(** What the aggregator maintains on an interval's list: every close lies
    within its candle's range, and so does the open of the first candle as
    long as the list has not reached the limit. *)
Definition rangeInvariant (candles : list Candle) : Prop :=
  Forall closeInRange candles /\
  ((length candles < 100)%nat ->
   forall c, head candles = Some c -> openInRange c).

(** ** Reference description of a derived candle *)

(** The source candles that fall into the target bucket [bucket], in list
    order. *)
Definition bucketMembers (targetIntervalMs : Z) (sourceCandles : list Candle)
    (bucket : Z) : list Candle :=
  filter (fun c => roundedTimestamp (timestamp c) targetIntervalMs = bucket)
    sourceCandles.

(** A target candle seeded with the values of its first source candle. *)
Definition seedCandle (bucket : Z) (first : Candle) : Candle :=
  mkCandle bucket (open first) (high first) (low first) (close first).

(** The later source candles of the bucket merged one after the other. *)
Definition mergeAll (target : Candle) (later : list Candle) : Candle :=
  fold_left (fun targetCandle c => mergeCandle c targetCandle) later target.

(** The target candle of a bucket as the derivation rule describes it: the
    first source candle of the bucket seeds it, the later ones are merged
    into it. *)
Definition bucketCandle (targetIntervalMs : Z) (sourceCandles : list Candle)
    (bucket : Z) : option Candle :=
  match bucketMembers targetIntervalMs sourceCandles bucket with
  | [] => None
  | first :: later => Some (mergeAll (seedCandle bucket first) later)
  end.

(** [result] holds exactly one candle per bucket of the candles processed
    so far, the one [bucketCandle] describes. *)
Definition derived (targetIntervalMs : Z) (processed result : list Candle)
    : Prop :=
  NoDup (timestamp <$> result) /\
  (forall tc, tc ∈ result ->
     bucketCandle targetIntervalMs processed (timestamp tc) = Some tc) /\
  (forall c, c ∈ processed ->
     exists tc, tc ∈ result /\
       timestamp tc = roundedTimestamp (timestamp c) targetIntervalMs).

(** [c] is a member with the greatest timestamp. *)
Definition chronologicallyLast (members : list Candle) (c : Candle) : Prop :=
  c ∈ members /\ forall c', c' ∈ members -> timestamp c' <= timestamp c.

(** ** Reference description of the volume windows *)

(** The sum of the logged amounts whose timestamp is at least [since]. *)
Definition amountsSince (since : Z) (log : list VolumeEntry) : Z :=
  foldr (fun v acc =>
           if decide (since <= ve_timestamp v) then ve_volume v + acc else acc)
    0 log.


(** Log entries compared by timestamp. *)
Definition byTime (a b : VolumeEntry) : Prop :=
  ve_timestamp a <= ve_timestamp b.

(** The shape of the log when the clock behind [Date.now ()] never steps
    back: the entries are in timestamp order and none is later than
    [now]. *)
Definition clockOrdered (now : Z) (log : list VolumeEntry) : Prop :=
  StronglySorted byTime log /\ Forall (fun v => ve_timestamp v <= now) log.





(** ** Reference description of a range query *)

(** The candles with a timestamp in the inclusive range, in list order. *)
Definition candlesInRange (fromTimestamp toTimestamp : Z)
    (candles : list Candle) : list Candle :=
  filter (fun c => fromTimestamp <= timestamp c <= toTimestamp) candles.

(** The [n] most recent entries of a list kept in append order. *)
Definition mostRecent (n : nat) (candles : list Candle) : list Candle :=
  drop (length candles - n) candles.

(** Twenty hourly candles, at hours 1 to 20. *)
Definition twentyCandles : list Candle :=
  (fun i => mkCandle (3600000 * Z.of_nat i) 1 1 1 1) <$> seq 1 20.

(** * Further parts of the service *)

(** ** The aggregator without the length limit *)

(** The candles a run of samples [(price, timestamp)] yields on an empty
    list when no limit is applied: the branches of [updateOHLCData] alone. *)
Definition aggregate (ms : Z) (samples : list (Z * Z)) : list Candle :=
  fold_left (fun currentOHLC '(price, t) => foldSample ms currentOHLC price t)
    samples [].

(** Candles on bucket boundaries of width [ms], each bucket at least one
    width after the one before. *)
Definition bucketed (ms : Z) (candles : list Candle) : Prop :=
  Forall (fun c => timestamp c mod ms = 0) candles /\
  StronglySorted (fun a b => timestamp a + ms <= timestamp b) candles.

(** ** Backfill: [backfillHistoricalOHLC] *)

(** The body of [poolData.history.forEach]: a new candle is pushed when the
    last candle is for a different bucket. *)
Definition backfillItem (ms : Z) (currentOHLC : list Candle)
    (historyItem : HistoryItem) : list Candle :=
  let price := h_price historyItem in
  let rounded := roundedTimestamp (h_timestamp historyItem) ms in
  match last currentOHLC with
  | None => currentOHLC ++ [mkCandle rounded price price price price]
  | Some lastCandle =>
      if decide (timestamp lastCandle <> rounded)
      then currentOHLC ++
           [mkCandle rounded (close lastCandle) price price price]
      else alterLast (foldPrice price) currentOHLC
  end.

(** The candles of one interval rebuilt from the history, from an empty
    list. *)
Definition backfillCandles (ms : Z) (history : list HistoryItem)
    : list Candle :=
  fold_left (backfillItem ms) history [].

(** One iteration over [Object.entries (intervals)]: an interval with two
    or more candles is skipped. *)
Definition backfillInterval (interval : Interval) (ms : Z)
    (poolData : PoolData) : PoolData :=
  if (2 <=? length (ohlc poolData interval))%nat then poolData
  else set_ohlc interval (backfillCandles ms (history poolData)) poolData.

Definition backfillHistoricalOHLC (poolData : PoolData) : PoolData :=
  match history poolData with
  | [] => poolData
  | _ =>
      fold_left (fun pd '(interval, ms) => backfillInterval interval ms pd)
        intervals poolData
  end.

(** A history item as the sample [(price, timestamp)] that [updatePrice]
    fed to the aggregator when it logged the item. *)
Definition sampleOf (historyItem : HistoryItem) : Z * Z :=
  (h_price historyItem, h_timestamp historyItem).

(** History in the order of a clock that never steps back. *)
Definition timeOrdered (history : list HistoryItem) : Prop :=
  StronglySorted (fun a b => h_timestamp a <= h_timestamp b) history.

(** ** Candle lists in timestamp order *)

(** Timestamps strictly increasing along the list. *)
Definition strictlyAscending (candles : list Candle) : Prop :=
  StronglySorted (fun a b => timestamp a < timestamp b) candles.

(** ** Coarser intervals from finer ones: [generateIntervalsFromExisting] *)

Definition generateIntervalsFromExisting (poolData : PoolData) : PoolData :=
  let pd1 :=
    match ohlc poolData I_1h with
    | [] => poolData
    | _ =>
        set_ohlc I_6h
          (generateLongerInterval (ohlc poolData I_1h) (6 * 60 * 60 * 1000))
          poolData
    end in
  match ohlc pd1 I_1h with
  | _ :: _ =>
      set_ohlc I_12h
        (generateLongerInterval (ohlc pd1 I_1h) (12 * 60 * 60 * 1000)) pd1
  | [] =>
      match ohlc pd1 I_5m with
      | _ :: _ =>
          let pd2 :=
            set_ohlc I_1h
              (generateLongerInterval (ohlc pd1 I_5m) (60 * 60 * 1000)) pd1 in
          let pd3 :=
            set_ohlc I_6h
              (generateLongerInterval (ohlc pd2 I_1h) (6 * 60 * 60 * 1000))
              pd2 in
          set_ohlc I_12h
            (generateLongerInterval (ohlc pd3 I_1h) (12 * 60 * 60 * 1000)) pd3
      | [] => pd1
      end
  end.

(** ** Retention: [cleanupOldData] *)

(** [poolData.history = items]. *)
Definition set_history (items : list HistoryItem) (poolData : PoolData)
    : PoolData :=
  {| latestPrice := latestPrice poolData;
     history := items;
     lastUpdated := lastUpdated poolData;
     ohlc := ohlc poolData;
     volume := volume poolData |}.

(** [candles.filter (candle => candle.timestamp >= cutoff)]. *)
Definition keepSince (cutoff : Z) (candles : list Candle) : list Candle :=
  filter (fun candle => cutoff <= timestamp candle) candles.

(** The age bound of the intervals that are pruned by age. *)
Definition retentionMs (interval : Interval) : option Z :=
  match interval with
  | I_24h => Some (30 * 24 * 60 * 60 * 1000)
  | I_1h => Some (7 * 24 * 60 * 60 * 1000)
  | I_1w => Some (2 * 365 * 24 * 60 * 60 * 1000)
  | I_1M => Some (10 * 365 * 24 * 60 * 60 * 1000)
  | _ => None
  end.

(** [cleanupOldData (poolData)]; the readings of [Date.now ()] within one
    call are taken to be the same instant [now]. *)
Definition cleanupOldData (poolData : PoolData) (now : Z) : PoolData :=
  let oneDayAgo := now - (24 * 60 * 60 * 1000 + 60 * 1000) in
  let pd0 :=
    set_history
      (filter (fun item => oneDayAgo <= h_timestamp item) (history poolData))
      poolData in
  let thirtyDaysAgo := now - 30 * 24 * 60 * 60 * 1000 in
  let pd1 := set_ohlc I_24h (keepSince thirtyDaysAgo (ohlc pd0 I_24h)) pd0 in
  let sevenDaysAgo := now - 7 * 24 * 60 * 60 * 1000 in
  let pd2 := set_ohlc I_1h (keepSince sevenDaysAgo (ohlc pd1 I_1h)) pd1 in
  let twoYearsAgo := now - 2 * 365 * 24 * 60 * 60 * 1000 in
  let pd3 := set_ohlc I_1w (keepSince twoYearsAgo (ohlc pd2 I_1w)) pd2 in
  let tenYearsAgo := now - 10 * 365 * 24 * 60 * 60 * 1000 in
  set_ohlc I_1M (keepSince tenYearsAgo (ohlc pd3 I_1M)) pd3.

(** ** Ingestion of a price: [updatePrice] *)

(** The assignments to [latestPrice] and [lastUpdated] and the push onto
    [history]. *)
Definition recordPrice (price now : Z) (poolData : PoolData) : PoolData :=
  {| latestPrice := Some price;
     history := history poolData ++ [mkHistoryItem price now];
     lastUpdated := Some now;
     ohlc := ohlc poolData;
     volume := volume poolData |}.

(** What [updatePrice] does to the pool's data when a price was fetched. *)
Definition updatePoolData (poolData : PoolData) (price now : Z) : PoolData :=
  cleanupOldData (updateOHLCData (recordPrice price now poolData) price now)
    now.

(** The document [saveDataToFile] writes. *)
Record Snapshot := mkSnapshot {
  snap_pools : gmap string PoolData;
  snap_volumeHistory : list VolumeEntry;
  snap_version : Z;
  snap_lastSaved : Z
}.

(** [saveDataToFile ()]: every pool is repaired in place first, then the
    document is built from the pools and the last 1000 volume entries.
    Returns the state after the repair and the document handed to
    [fs.writeJson]. *)
Definition saveDataToFile (st : Service) (now : Z) : Service * Snapshot :=
  let repaired :=
    (fun poolData => (validateAndFixOHLCContinuity poolData).1)
      <$> poolsData st in
  ({| poolsData := repaired; volumeHistory := volumeHistory st |},
   {| snap_pools := repaired;
      snap_volumeHistory := slice_neg 1000 (volumeHistory st);
      snap_version := 2;
      snap_lastSaved := now |}).

(** [updatePrice (poolAddress)], [price] being what [fetchLatestPrice]
    returned ([None] for [null]).  Returns the new state and the document
    written, if this call saved one. *)
Definition updatePrice (poolAddress : string) (price : option Z) (now : Z)
    (st : Service) : Service * option Snapshot :=
  let '(poolData, pools) := getPoolData poolAddress now (poolsData st) in
  match price with
  | None => ({| poolsData := pools; volumeHistory := volumeHistory st |}, None)
  | Some p =>
      let st1 :=
        {| poolsData :=
             <[toLowerCase poolAddress := updatePoolData poolData p now]> pools;
           volumeHistory := volumeHistory st |} in
      if Z.rem now (60 * 1000) <? 1000
      then let '(st2, document) := saveDataToFile st1 now in
           (st2, Some document)
      else (st1, None)
  end.

(** ** Startup: [initializeDataFile] *)

(** The parsed content of the data file: [data.pools] as the entries of
    the JSON object in their order, and [data.volumeHistory]; either may be
    missing. *)
Record LoadedDocument := mkLoadedDocument {
  doc_pools : option (list (string * PoolData));
  doc_volumeHistory : option (list VolumeEntry)
}.

(** What [initializeDataFile] finds: no file, a file that cannot be read
    as JSON, or a parsed document. *)
Inductive DataFile :=
  | Missing
  | Unreadable
  | Parsed (data : LoadedDocument).

(** The empty document written when there is no usable one. *)
Definition initialData (now : Z) : Snapshot :=
  {| snap_pools := ∅; snap_volumeHistory := []; snap_version := 2;
     snap_lastSaved := now |}.

(** [poolsData.set (poolAddress.toLowerCase (), poolData)] for every entry
    of [data.pools], in order. *)
Definition loadPools (entries : list (string * PoolData))
    : gmap string PoolData :=
  fold_left (fun pools '(poolAddress, poolData) =>
               <[toLowerCase poolAddress := poolData]> pools)
    entries ∅.

(** [initializeDataFile ()] on the state the module starts with (no pools,
    an empty volume history): the state afterwards and the document it
    writes, if any. *)
Definition initializeDataFile (file : DataFile) (now : Z)
    : Service * option Snapshot :=
  match file with
  | Missing => (mkService ∅ [], Some (initialData now))
  | Unreadable => (mkService ∅ [], None)
  | Parsed data =>
      match doc_pools data with
      | Some entries =>
          let history := default [] (doc_volumeHistory data) in
          ({| poolsData :=
                (fun poolData => (validateAndFixOHLCContinuity poolData).1)
                  <$> loadPools entries;
              volumeHistory := history |},
           None)
      | None => (mkService ∅ [], Some (initialData now))
      end
  end.

(** ** Reference predicates on the registry *)

(** Every key of the registry is in lower case. *)
Definition lowercaseKeys (pools : gmap string PoolData) : Prop :=
  forall key, is_Some (pools !! key) -> toLowerCase key = key.

(** Two pool data records with the same content (the candle lists compared
    interval by interval). *)
Definition samePoolData (a b : PoolData) : Prop :=
  latestPrice a = latestPrice b /\
  history a = history b /\
  lastUpdated a = lastUpdated b /\
  volume a = volume b /\
  forall interval, ohlc a interval = ohlc b interval.

(** The entries [Object.entries] yields for a JSON object that holds the
    map [pools]: each key once, in some order. *)
Definition entriesOf (pools : gmap string PoolData)
    (entries : list (string * PoolData)) : Prop :=
  NoDup entries.*1 /\
  forall key poolData, (key, poolData) ∈ entries <-> pools !! key = Some poolData.

(** ** Address validation: [isValidAddress] and [parsePoolAddress] *)

(** A character of the class [[a-fA-F0-9]]. *)
Definition isHexDigit (a : ascii) : bool :=
  let n := nat_of_ascii a in
  (((48 <=? n) && (n <=? 57)) || ((97 <=? n) && (n <=? 102))
   || ((65 <=? n) && (n <=? 70)))%nat.






(** ** Sampled raw prices: [getIntervalPrices] *)

(** The [minutes] argument the route handlers pass for an interval key
    ([parseInt (intervalKey)] for "5m", "15m" and "30m"). *)
Definition minutesOf (intervalKey : Interval) : Z :=
  match intervalKey with
  | I_1m => 1 | I_5m => 5 | I_15m => 15 | I_30m => 30 | I_1h => 60
  | I_6h => 360 | I_12h => 720 | I_24h => 1440 | I_1w => 10080
  | I_1M => 43200
  end.

(** The sampling loop: [limit - 1] entries at the indices [i * step] and
    the last entry.  An array read yields [None] for [undefined], that is
    for an index beyond the array. *)
Definition sampleEvenly (limit : nat) (filteredData : list HistoryItem)
    : list (option HistoryItem) :=
  let step := (length filteredData / limit)%nat in
  ((fun i => filteredData !! (i * step)%nat) <$> seq 0 (limit - 1))
  ++ [filteredData !! (length filteredData - 1)%nat].

(** The history entries [getIntervalPrices] samples from: those of the
    last [minutes] minutes, or all of them when there are none and the
    interval is a week or longer. *)
Definition priceWindow (poolData : PoolData) (minutes now : Z)
    : list HistoryItem :=
  let cutoffTime := now - minutes * 60 * 1000 in
  match filter (fun item => cutoffTime <= h_timestamp item)
          (history poolData) with
  | [] => if 10080 <=? minutes then history poolData else []
  | filteredData => filteredData
  end.

Definition getIntervalPrices (poolData : PoolData) (minutes : Z)
    (intervalKey : option Interval) (now : Z) : list (option HistoryItem) :=
  let limit :=
    match intervalKey with
    | Some key =>
        if (DATAPOINT_LIMITS key =? 0)%nat then 100%nat
        else DATAPOINT_LIMITS key
    | None => 100%nat
    end in
  let filteredData := priceWindow poolData minutes now in
  if (limit <? length filteredData)%nat then sampleEvenly limit filteredData
  else Some <$> filteredData.

(** ** Further routes *)

(** An entry of the [intervals] object: candles, or sampled raw prices
    when the interval has no candles. *)
Inductive Datapoints :=
  | CandlePoints (ohlc : list Candle)
  | PricePoints (points : list (option HistoryItem)).

(** The [intervals] object the handlers of [/api/price/all] and of
    [/api/price/intervals/all] build. *)
Definition priceIntervalsAll (poolData : PoolData) (now : Z)
    (intervalKey : Interval) : Datapoints :=
  match ohlc poolData intervalKey with
  | [] =>
      PricePoints
        (getIntervalPrices poolData (minutesOf intervalKey) (Some intervalKey)
           now)
  | candles => CandlePoints (limitDatapoints candles intervalKey)
  end.

(** The answers of [GET /api/price/ohlc/:interval]. *)
Inductive OhlcReply :=
  | Ohlc400 (error : string)
  | Ohlc404 (interval : Interval) (from_timestamp to_timestamp : option Z)
  | Ohlc200 (interval : Interval) (from_timestamp to_timestamp : option Z)
      (count : nat) (ohlc : list Candle) (lastUpdated : option Z).

(** The handler of [GET /api/price/ohlc/:interval] after
    [parsePoolAddress]; the interval is a path segment. *)
Definition ohlcByInterval (poolData : PoolData) (interval : string)
    (from_timestamp to_timestamp : QueryParam) : OhlcReply :=
  match mapInterval interval with
  | None => Ohlc400 "Invalid interval parameter"
  | Some intervalKey =>
      match from_timestamp, to_timestamp with
      | NotANumber, _ =>
          Ohlc400 "Invalid from_timestamp parameter. Must be a valid Unix timestamp in milliseconds."
      | _, NotANumber =>
          Ohlc400 "Invalid to_timestamp parameter. Must be a valid Unix timestamp in milliseconds."
      | _, _ =>
          let fromTimestamp := parsed from_timestamp in
          let toTimestamp := parsed to_timestamp in
          let ohlcData := ohlc poolData intervalKey in
          let filteredData :=
            if truthy fromTimestamp || truthy toTimestamp
            then filterOHLCByTimeRange ohlcData fromTimestamp toTimestamp
            else ohlcData in
          let limitedData := limitDatapoints filteredData intervalKey in
          match limitedData with
          | [] => Ohlc404 intervalKey fromTimestamp toTimestamp
          | _ =>
              Ohlc200 intervalKey fromTimestamp toTimestamp
                (length limitedData) limitedData (lastUpdated poolData)
          end
      end
  end.

(** The handler of [GET /api/price/ohlc], the same steps as those of
    [/api/price/query]. *)
Definition priceOhlc (poolData : PoolData) (interval : option string)
    (from_timestamp to_timestamp : QueryParam) : Response :=
  match interval with
  | None => Status400 "Missing required parameter: interval"
  | Some token =>
    if decide (token = "") then Status400 "Missing required parameter: interval"
    else
    match mapInterval token with
    | None => Status400 "Invalid interval parameter"
    | Some intervalKey =>
      match from_timestamp, to_timestamp with
      | NotANumber, _ =>
          Status400 "Invalid from_timestamp parameter. Must be a valid Unix timestamp in milliseconds."
      | _, NotANumber =>
          Status400 "Invalid to_timestamp parameter. Must be a valid Unix timestamp in milliseconds."
      | _, _ =>
        let fromTimestamp := parsed from_timestamp in
        let toTimestamp := parsed to_timestamp in
        if truthy fromTimestamp && truthy toTimestamp
           && gtTimestamp fromTimestamp toTimestamp
        then Status400 "from_timestamp cannot be greater than to_timestamp"
        else
          let ohlcData := ohlc poolData intervalKey in
          let filteredData :=
            filterOHLCByTimeRange ohlcData fromTimestamp toTimestamp in
          let limitedData := limitDatapoints filteredData intervalKey in
          Status200 intervalKey fromTimestamp toTimestamp
            (length limitedData) limitedData (lastUpdated poolData)
      end
    end
  end.

(** The name of an interval as a key of [poolData.ohlc]. *)
Definition intervalName (interval : Interval) : string :=
  match interval with
  | I_1m => "1m" | I_5m => "5m" | I_15m => "15m" | I_30m => "30m"
  | I_1h => "1h" | I_6h => "6h" | I_12h => "12h" | I_24h => "24h"
  | I_1w => "1w" | I_1M => "1M"
  end.

(** ** The route [GET /api/price/:interval] *)

(** The predicate of the [filter] call on raw prices. *)
Definition inPriceRange (fromTimestamp toTimestamp : option Z)
    (item : HistoryItem) : bool :=
  let afterFrom :=
    negb (truthy fromTimestamp) || geBound (h_timestamp item) fromTimestamp in
  let beforeTo :=
    negb (truthy toTimestamp) || leBound (h_timestamp item) toTimestamp in
  afterFrom && beforeTo.

(** The entries of an array none of which is [undefined]; reading
    [item.timestamp] or [item.price] of [undefined] throws. *)
Fixpoint definedItems (items : list (option HistoryItem))
    : option (list HistoryItem) :=
  match items with
  | [] => Some []
  | None :: _ => None
  | Some item :: rest =>
      match definedItems rest with
      | Some rest' => Some (item :: rest')
      | None => None
      end
  end.

(** The [min] of the [stats] object: it starts at the first price. *)
Definition statsMin (filteredData : list HistoryItem) : Z :=
  match filteredData with
  | [] => 0
  | first :: _ =>
      fold_left (fun min item => if h_price item <? min then h_price item
                                 else min)
        filteredData (h_price first)
  end.

(** The [max] of the [stats] object: it starts at [0]. *)
Definition statsMax (filteredData : list HistoryItem) : Z :=
  fold_left (fun max item => if max <? h_price item then h_price item else max)
    filteredData 0.

(** The answers of [GET /api/price/:interval].  The field [avg] of
    [stats], a floating point quotient, is not part of the reply here. *)
Inductive LegacyReply :=
  | Legacy400 (error : string)
  | LegacyCandles (interval : Interval) (from_timestamp to_timestamp : option Z)
      (count : nat) (ohlc : list Candle) (lastUpdated : option Z)
  | LegacyPrices (interval : Interval) (from_timestamp to_timestamp : option Z)
      (dataPoints : list HistoryItem) (count : nat) (min max : Z)
      (lastUpdated : option Z)
  | LegacyThrows.

(** The handler of [GET /api/price/:interval] after [parsePoolAddress]. *)
Definition priceByInterval (poolData : PoolData) (interval : string)
    (from_timestamp to_timestamp : QueryParam) (now : Z) : LegacyReply :=
  match mapInterval interval with
  | None =>
      Legacy400 "Invalid interval. Use 1m, 5m, 15m, 30m, 1h, 6h, 12h, 24h, 1w, or 1M"
  | Some intervalKey =>
      match from_timestamp, to_timestamp with
      | NotANumber, _ =>
          Legacy400 "Invalid from_timestamp parameter. Must be a valid Unix timestamp in milliseconds."
      | _, NotANumber =>
          Legacy400 "Invalid to_timestamp parameter. Must be a valid Unix timestamp in milliseconds."
      | _, _ =>
          let fromTimestamp := parsed from_timestamp in
          let toTimestamp := parsed to_timestamp in
          match ohlc poolData intervalKey with
          | [] =>
              let intervalData :=
                getIntervalPrices poolData (minutesOf intervalKey)
                  (Some intervalKey) now in
              match definedItems intervalData with
              | None => LegacyThrows
              | Some items =>
                  let filteredData :=
                    if truthy fromTimestamp || truthy toTimestamp
                    then filter
                           (fun item =>
                              inPriceRange fromTimestamp toTimestamp item)
                           items
                    else items in
                  LegacyPrices intervalKey fromTimestamp toTimestamp
                    filteredData (length filteredData)
                    (statsMin filteredData) (statsMax filteredData)
                    (lastUpdated poolData)
              end
          | ohlcData =>
              let filteredData :=
                if truthy fromTimestamp || truthy toTimestamp
                then filterOHLCByTimeRange ohlcData fromTimestamp toTimestamp
                else ohlcData in
              let limitedData := limitDatapoints filteredData intervalKey in
              LegacyCandles intervalKey fromTimestamp toTimestamp
                (length limitedData) limitedData (lastUpdated poolData)
          end
      end
  end.

(** ** The route table *)

(** A segment of a route path: a fixed name, or a parameter such as
    [:interval]. *)
Inductive Segment :=
  | Lit (name : string)
  | Param.

Inductive Handler :=
  | PriceRoute
  | TestPriceStatsRoute
  | DebugPoolRoute
  | PriceLatestRoute
  | PriceQueryRoute
  | PriceOhlcRoute
  | PriceOhlcAllRoute
  | PriceOhlcIntervalRoute
  | PriceIntervalRoute
  | PriceAllRoute
  | PriceIntervalsAllRoute
  | VolumeRoute
  | StatsRoute.

(** The [app.get] calls, in the order they are made. *)
Definition routes : list (list Segment * Handler) :=
  [ ([Lit "api"; Lit "price"], PriceRoute);
    ([Lit "api"; Lit "test"; Lit "price-stats"], TestPriceStatsRoute);
    ([Lit "api"; Lit "debug"; Lit "pool"], DebugPoolRoute);
    ([Lit "api"; Lit "price"; Lit "latest"], PriceLatestRoute);
    ([Lit "api"; Lit "price"; Lit "query"], PriceQueryRoute);
    ([Lit "api"; Lit "price"; Lit "ohlc"], PriceOhlcRoute);
    ([Lit "api"; Lit "price"; Lit "ohlc"; Lit "all"], PriceOhlcAllRoute);
    ([Lit "api"; Lit "price"; Lit "ohlc"; Param], PriceOhlcIntervalRoute);
    ([Lit "api"; Lit "price"; Param], PriceIntervalRoute);
    ([Lit "api"; Lit "price"; Lit "all"], PriceAllRoute);
    ([Lit "api"; Lit "price"; Lit "intervals"; Lit "all"],
     PriceIntervalsAllRoute);
    ([Lit "api"; Lit "volume"], VolumeRoute);
    ([Lit "api"; Lit "stats"], StatsRoute) ].

(** A fixed segment of a route is compared without regard to the case of
    the letters. *)
Definition sameSegment (segment name : string) : bool :=
  bool_decide (toLowerCase segment = toLowerCase name).

(** Whether the path of a request, split at its slashes (the query string
    is not part of it), fits a route path, as the router of [express ()]
    decides with its default settings: a fixed segment is compared without
    regard to case, a parameter takes one segment that is not empty, and
    one trailing slash, that is a last segment that is empty, is
    accepted. *)
Fixpoint matchesRoute (route : list Segment) (path : list string) : bool :=
  match route, path with
  | [], [] => true
  | [], [segment] => bool_decide (segment = "")
  | Lit name :: route', segment :: path' =>
      sameSegment segment name && matchesRoute route' path'
  | Param :: route', segment :: path' =>
      negb (bool_decide (segment = "")) && matchesRoute route' path'
  | _, _ => false
  end.

(** The router: the first route that fits takes the request.  Every
    handler and [parsePoolAddress] end the response or hand over to the
    handler of the same route, and a parameter that cannot be decoded ends
    the request with an error; nothing passes the request on to a later
    route. *)
Fixpoint firstMatch (table : list (list Segment * Handler))
    (path : list string) : option Handler :=
  match table with
  | [] => None
  | (route, handler) :: rest =>
      if matchesRoute route path then Some handler else firstMatch rest path
  end.

Definition dispatch (path : list string) : option Handler :=
  firstMatch routes path.

(** ** The route [GET /api/stats] *)

(** The entries of [intervalMap]: the width [ms] and the [ohlcKey]. *)
Definition intervalMap (interval : string) : option (Z * option Interval) :=
  if decide (interval = "1m") then Some (1 * 60 * 1000, Some I_1m)
  else if decide (interval = "5m") then Some (5 * 60 * 1000, Some I_5m)
  else if decide (interval = "15m") then Some (15 * 60 * 1000, Some I_15m)
  else if decide (interval = "30m") then Some (30 * 60 * 1000, Some I_30m)
  else if decide (interval = "1h") then Some (60 * 60 * 1000, Some I_1h)
  else if decide (interval = "6h") then Some (6 * 60 * 60 * 1000, Some I_6h)
  else if decide (interval = "12h") then Some (12 * 60 * 60 * 1000, Some I_12h)
  else if decide (interval = "24h") then Some (24 * 60 * 60 * 1000, Some I_24h)
  else if decide (interval = "7d")
  then Some (7 * 24 * 60 * 60 * 1000, Some I_1w)
  else if decide (interval = "14d") then Some (14 * 24 * 60 * 60 * 1000, None)
  else if decide (interval = "30d")
  then Some (30 * 24 * 60 * 60 * 1000, Some I_1M)
  else None.

(** [timeDiff < closestTimeDiff], with [None] for [Infinity]. *)
Definition closerThan (timeDiff : Z) (closestTimeDiff : option Z) : bool :=
  match closestTimeDiff with
  | Some d => timeDiff <? d
  | None => true
  end.

(** The loop over the candles: it stops at the first candle whose window
    holds the cutoff time, with that candle's open as [startPrice], and
    tracks the candle closest to the cutoff time until then.  The result
    is [startPrice], [closestCandle] and [closestTimeDiff]. *)
Fixpoint scanCandles (cutoffTime ms : Z) (ohlcData : list Candle)
    (closestCandle : option Candle) (closestTimeDiff : option Z)
    : option Z * option Candle * option Z :=
  match ohlcData with
  | [] => (None, closestCandle, closestTimeDiff)
  | candle :: rest =>
      if (timestamp candle <=? cutoffTime)
         && (cutoffTime <? timestamp candle + ms)
      then (Some (open candle), closestCandle, closestTimeDiff)
      else
        let timeDiff := Z.abs (timestamp candle - cutoffTime) in
        if closerThan timeDiff closestTimeDiff
        then scanCandles cutoffTime ms rest (Some candle) (Some timeDiff)
        else scanCandles cutoffTime ms rest closestCandle closestTimeDiff
  end.

(** The start price from the candles of [ohlcKey]. *)
Definition startPriceFromCandles (poolData : PoolData) (ms : Z)
    (ohlcKey : option Interval) (cutoffTime : Z) : option Z :=
  match ohlcKey with
  | None => None
  | Some key =>
      match scanCandles cutoffTime ms (ohlc poolData key) None None with
      | (startPrice, closestCandle, closestTimeDiff) =>
          if truthy startPrice then startPrice
          else
            match closestCandle, closestTimeDiff with
            | Some candle, Some timeDiff =>
                if timeDiff <=? ms then Some (close candle) else startPrice
            | _, _ => startPrice
            end
      end
  end.

(** The loop over the history: the price of the first entry closest to
    the cutoff time. *)
Fixpoint scanHistory (cutoffTime : Z) (items : list HistoryItem)
    (closestPrice closestTimeDiff : option Z) : option Z * option Z :=
  match items with
  | [] => (closestPrice, closestTimeDiff)
  | item :: rest =>
      let timeDiff := Z.abs (h_timestamp item - cutoffTime) in
      if closerThan timeDiff closestTimeDiff
      then scanHistory cutoffTime rest (Some (h_price item)) (Some timeDiff)
      else scanHistory cutoffTime rest closestPrice closestTimeDiff
  end.

(** The start price after the fall back to the history; [ms * 0.1] is
    compared as [10 * closestTimeDiff <= ms]. *)
Definition startPriceFor (poolData : PoolData) (ms : Z)
    (ohlcKey : option Interval) (cutoffTime : Z) : option Z :=
  let startPrice := startPriceFromCandles poolData ms ohlcKey cutoffTime in
  if truthy startPrice then startPrice
  else
    match history poolData with
    | [] => startPrice
    | items =>
        match scanHistory cutoffTime items None None with
        | (closestPrice, Some timeDiff) =>
            if 10 * timeDiff <=? ms then closestPrice else startPrice
        | (_, None) => startPrice
        end
    end.

(** The answers of [GET /api/stats] for an entry of [intervalMap]; the
    percentage and the volume of the interval are floating point
    quotients and not part of the reply here. *)
Inductive StatsReply :=
  | Stats503
  | Stats404 (currentPrice : Z)
  | Stats200 (currentPrice startPrice priceChange : Z) (timestamp : Z)
      (lastUpdated : option Z).

(** The handler of [GET /api/stats] from [const now = Date.now ()] on,
    for the entry [intervalConfig] of [intervalMap]. *)
Definition statsFor (poolData : PoolData) (intervalConfig : Z * option Interval)
    (now : Z) : StatsReply :=
  let cutoffTime := now - intervalConfig.1 in
  if negb (truthy (latestPrice poolData)) then Stats503
  else
    let currentPrice := default 0 (latestPrice poolData) in
    let startPrice :=
      startPriceFor poolData intervalConfig.1 intervalConfig.2 cutoffTime in
    if negb (truthy startPrice) then Stats404 currentPrice
    else
      Stats200 currentPrice (default 0 startPrice)
        (currentPrice - default 0 startPrice) now (lastUpdated poolData).

(** ** Candles of [index.js] *)

(** The open and the close of a candle of [index.js] lie between its low
    and its high, and it counts at least one sample. *)
Definition legacyWellFormed (c : Legacy.Candle) : Prop :=
  Legacy.low c <= Legacy.open c <= Legacy.high c /\
  Legacy.low c <= Legacy.close c <= Legacy.high c /\
  1 <= Legacy.volume c.

(** * Properties *)

(** ** Array helpers *)

Lemma snoc_cases {A} (l : list A) : l = [] \/ exists l' x, l = l' ++ [x].
Proof.
  destruct (last l) as [x|] eqn:E.
  - right. apply last_Some in E as [l' ->]. eauto.
  - left. by apply last_None.
Qed.

Lemma alterLast_snoc {A} (f : A -> A) (l : list A) (x : A) :
  alterLast f (l ++ [x]) = l ++ [f x].
Proof.
  unfold alterLast. rewrite length_app. simpl.
  replace (pred (length l + 1)) with (length l + 0)%nat by lia.
  by rewrite alter_app_r.
Qed.

Lemma slice_neg_drop {A} (n : nat) (arr : list A) :
  (0 < n)%nat -> slice_neg n arr = drop (length arr - n) arr.
Proof. unfold slice_neg. destruct n; [lia | done]. Qed.

Lemma slice_neg_length {A} (n : nat) (arr : list A) :
  (0 < n)%nat -> (n <= length arr)%nat -> length (slice_neg n arr) = n.
Proof. intros Hn Hle. rewrite slice_neg_drop, length_drop by done. lia. Qed.

(** ** The candle aggregator *)

Lemma DATAPOINT_LIMITS_100 interval : DATAPOINT_LIMITS interval = 100%nat.
Proof. by destruct interval. Qed.

Lemma intervalMs_pos interval : 0 < intervalMs interval.
Proof. destruct interval; reflexivity. Qed.

Lemma intervals_width interval : (interval, intervalMs interval) ∈ intervals.
Proof. unfold intervals. destruct interval; simpl; set_solver. Qed.

(** The ten iterations are independent: each interval's list is the fold of
    the sample into its own previous list, cut to the limit. *)
Lemma ohlc_updateOHLCData poolData price t interval :
  ohlc (updateOHLCData poolData price t) interval =
  limitCandles (DATAPOINT_LIMITS interval)
    (foldSample (intervalMs interval) (ohlc poolData interval) price t).
Proof. destruct interval; reflexivity. Qed.

Lemma limitCandles_drop {A} limit (l : list A) :
  (0 < limit)%nat -> limitCandles limit l = drop (length l - limit) l.
Proof.
  intros Hpos. unfold limitCandles.
  destruct (Nat.ltb_spec limit (length l)).
  - by apply slice_neg_drop.
  - replace (length l - limit)%nat with 0%nat by lia. done.
Qed.

Lemma limitCandles_length {A} limit (l : list A) :
  (0 < limit)%nat -> (length (limitCandles limit l) <= limit)%nat.
Proof. intros Hpos. rewrite limitCandles_drop, length_drop by done. lia. Qed.

Lemma last_limitCandles {A} limit (l : list A) (c : A) :
  (0 < limit)%nat -> last (limitCandles limit (l ++ [c])) = Some c.
Proof.
  intros Hpos. rewrite limitCandles_drop by done.
  rewrite length_app. simpl.
  rewrite drop_app_le by lia. apply last_snoc.
Qed.

(** The two branches of [foldSample]. *)
Lemma foldSample_nil ms price t :
  foldSample ms [] price t =
  [mkCandle (roundedTimestamp t ms) price price price price].
Proof. reflexivity. Qed.

Lemma foldSample_open ms l lastCandle price t :
  timestamp lastCandle + ms <= t ->
  foldSample ms (l ++ [lastCandle]) price t =
  (l ++ [lastCandle]) ++
  [mkCandle (roundedTimestamp t ms) (close lastCandle) price price price].
Proof.
  intros Hle. unfold foldSample. rewrite last_snoc.
  destruct (Z.leb_spec (timestamp lastCandle + ms) t); [done | lia].
Qed.

Lemma foldSample_update ms l lastCandle price t :
  t < timestamp lastCandle + ms ->
  foldSample ms (l ++ [lastCandle]) price t =
  l ++ [foldPrice price lastCandle].
Proof.
  intros Hlt. unfold foldSample. rewrite last_snoc.
  destruct (Z.leb_spec (timestamp lastCandle + ms) t); [lia |].
  apply alterLast_snoc.
Qed.

(** In the multi-pool service a candle opened after a previous one starts
    at that candle's close, and a candle opened on an empty list at the
    sample's price; high, low and close are the sample's price. *)
Lemma updateOHLCData_opens_candle poolData price t interval :
  (ohlc poolData interval = [] \/
   exists lastCandle, last (ohlc poolData interval) = Some lastCandle /\
     timestamp lastCandle + intervalMs interval <= t) ->
  exists newCandle,
    last (ohlc (updateOHLCData poolData price t) interval) = Some newCandle /\
    timestamp newCandle = roundedTimestamp t (intervalMs interval) /\
    open newCandle =
      match last (ohlc poolData interval) with
      | Some lastCandle => close lastCandle
      | None => price
      end /\
    high newCandle = price /\ low newCandle = price /\ close newCandle = price.
Proof.
  intros Hnew. rewrite ohlc_updateOHLCData, DATAPOINT_LIMITS_100.
  destruct Hnew as [-> | (lastCandle & Hlast & Hle)].
  - rewrite foldSample_nil.
    eexists. split; [apply (last_limitCandles _ []); lia |]. done.
  - pose proof Hlast as Hl. apply last_Some in Hl as [l' Hl].
    rewrite Hl in *. rewrite foldSample_open by done.
    eexists. split; [apply last_limitCandles; lia |].
    rewrite last_snoc. done.
Qed.

(** In [index.js] every new candle opens at the sample's price, whatever
    the previous candle closed at. *)
Lemma legacy_foldSample_open ms l lastCandle price t :
  Legacy.timestamp lastCandle + ms <= t ->
  Legacy.foldSample ms (l ++ [lastCandle]) price t =
  (l ++ [lastCandle]) ++
  [Legacy.mkCandle (roundedTimestamp t ms) price price price price 1].
Proof.
  intros Hle. unfold Legacy.foldSample. rewrite last_snoc.
  destruct (Z.leb_spec (Legacy.timestamp lastCandle + ms) t); [done | lia].
Qed.

Lemma ohlc_legacy_updateOHLCData priceData price t interval :
  Legacy.updateOHLCData priceData price t interval =
  limitCandles (Legacy.maxCandles interval)
    (Legacy.foldSample (intervalMs interval) (priceData interval) price t).
Proof. destruct interval; reflexivity. Qed.

Lemma legacy_updateOHLCData_opens_candle priceData price t interval lastCandle :
  last (priceData interval) = Some lastCandle ->
  Legacy.timestamp lastCandle + intervalMs interval <= t ->
  last (Legacy.updateOHLCData priceData price t interval) =
  Some (Legacy.mkCandle (roundedTimestamp t (intervalMs interval))
          price price price price 1).
Proof.
  intros Hlast Hle. rewrite ohlc_legacy_updateOHLCData.
  apply last_Some in Hlast as [l' ->].
  rewrite legacy_foldSample_open by done.
  apply last_limitCandles. destruct interval; simpl; lia.
Qed.

(** C1 (evaluation of [index.js] at the failing input): after the sample
    (10, 0) the 1m list of the single-pool service holds one candle closed
    at 10; the sample (12, 60000) then opens a candle whose open is 12, the
    sample's price, and not 10, the previous candle's close. *)
Theorem legacy_updateOHLCData_open_is_price :
  let priceData := Legacy.updateOHLCData (fun _ => []) 10 0 in
  priceData I_1m = [Legacy.mkCandle 0 10 10 10 10 1] /\
  Legacy.updateOHLCData priceData 12 60000 I_1m =
    [Legacy.mkCandle 0 10 10 10 10 1; Legacy.mkCandle 60000 12 12 12 12 1].
Proof. split; reflexivity. Qed.

(** The same two samples in the multi-pool service: the second candle
    opens at 10. *)
Example updateOHLCData_open_is_previous_close :
  ohlc (feed (createPoolData 0) [(10, 0); (12, 60000)]) I_1m =
  [mkCandle 0 10 10 10 10; mkCandle 60000 10 12 12 12].
Proof. reflexivity. Qed.

(** C5: after [updateOHLCData] every interval's list has at most
    [DATAPOINT_LIMITS] candles, the limit being 100 for every interval, and
    it is the folded list with the excess dropped from the head. *)
Theorem updateOHLCData_length_cap poolData price t interval :
  let folded :=
    foldSample (intervalMs interval) (ohlc poolData interval) price t in
  let candles := ohlc (updateOHLCData poolData price t) interval in
  DATAPOINT_LIMITS interval = 100%nat /\
  (length candles <= DATAPOINT_LIMITS interval)%nat /\
  candles = drop (length folded - DATAPOINT_LIMITS interval) folded.
Proof.
  cbv zeta. rewrite ohlc_updateOHLCData.
  split; [apply DATAPOINT_LIMITS_100 |].
  split.
  - apply limitCandles_length. rewrite DATAPOINT_LIMITS_100. lia.
  - apply limitCandles_drop. rewrite DATAPOINT_LIMITS_100. lia.
Qed.

(** The cap also holds after any non-empty run of the aggregator, from any
    state. *)
Lemma feed_length_cap poolData samples interval :
  samples <> [] ->
  (length (ohlc (feed poolData samples) interval) <= 100)%nat.
Proof.
  intros Hne. destruct (snoc_cases samples) as [-> | (l & [price t] & ->)];
    [done |].
  unfold feed. rewrite fold_left_app. cbn [fold_left].
  rewrite ohlc_updateOHLCData, DATAPOINT_LIMITS_100.
  apply limitCandles_length. lia.
Qed.

(** ** Scenario A *)

Lemma roundedTimestamp_aligned t0 ms d :
  0 < ms -> t0 mod ms = 0 -> 0 <= d < ms ->
  roundedTimestamp (t0 + d) ms = t0.
Proof.
  intros Hms Hmod Hd. unfold roundedTimestamp.
  apply Z.mod_divide in Hmod as [q ->]; [| lia].
  rewrite <- (Z.div_unique (q * ms + d) ms q d); lia.
Qed.

(** C3 (amended): on a minute boundary [t0], the samples (10, t0),
    (12, t0 + 30 s), (9, t0 + 90 s) fed into an empty 1m list give the
    candle {open 10, high 12, low 10, close 12} at [t0], followed by a
    candle at [t0 + 60 s] with open 12 and high, low and close 9: the third
    sample lies in the next minute. *)
Theorem scenario_A t0 now :
  t0 mod 60000 = 0 ->
  ohlc (feed (createPoolData now)
          [(10, t0); (12, t0 + 30000); (9, t0 + 90000)]) I_1m =
  [mkCandle t0 10 12 10 12; mkCandle (t0 + 60000) 12 9 9 9].
Proof.
  intros Hmod. unfold feed. simpl fold_left.
  rewrite !ohlc_updateOHLCData. simpl intervalMs. simpl DATAPOINT_LIMITS.
  change (ohlc (createPoolData now) I_1m) with (@nil Candle).
  rewrite foldSample_nil.
  replace (roundedTimestamp t0 60000) with t0
    by (symmetry; rewrite <- (Z.add_0_r t0) at 1;
        apply roundedTimestamp_aligned; lia).
  change (limitCandles 100 [mkCandle t0 10 10 10 10])
    with ([] ++ [mkCandle t0 10 10 10 10]).
  rewrite foldSample_update by (simpl; lia).
  change (limitCandles 100 ([] ++ [foldPrice 12 (mkCandle t0 10 10 10 10)]))
    with ([] ++ [mkCandle t0 10 12 10 12]).
  rewrite foldSample_open by (simpl; lia).
  replace (t0 + 90000) with ((t0 + 60000) + 30000) by lia.
  rewrite roundedTimestamp_aligned; [reflexivity | lia | | lia].
  rewrite <- Z.add_mod_idemp_l, Hmod by lia. reflexivity.
Qed.

Lemma scenario_A_witness :
  ohlc (feed (createPoolData 0) [(10, 0); (12, 0 + 30000); (9, 0 + 90000)])
    I_1m =
  [mkCandle 0 10 12 10 12; mkCandle (0 + 60000) 12 9 9 9].
Proof. apply (scenario_A 0 0). reflexivity. Defined.

(** C3 (as stated, refuted at [t0 = 0]): the run does not leave a candle
    {open 10, high 12, low 9, close 9} at the [t0] bucket, and the candle
    opened at the next minute boundary does not open at 9. *)
Lemma scenario_A_as_stated_fails :
  let candles :=
    ohlc (feed (createPoolData 0) [(10, 0); (12, 30000); (9, 90000)]) I_1m in
  ~ (mkCandle 0 10 12 9 9 ∈ candles) /\
  ~ (exists c, c ∈ candles /\ timestamp c = 60000 /\ open c = 9).
Proof.
  cbv zeta.
  change (ohlc (feed (createPoolData 0) [(10, 0); (12, 30000); (9, 90000)])
            I_1m)
    with [mkCandle 0 10 12 10 12; mkCandle 60000 12 9 9 9].
  split.
  - intros Hin. rewrite !elem_of_cons in Hin.
    destruct Hin as [H | [H | H]]; [discriminate | discriminate |].
    by apply elem_of_nil in H.
  - intros (c & Hin & Hts & Hopen). rewrite !elem_of_cons in Hin.
    destruct Hin as [-> | [-> | H]]; simpl in *; [lia | lia |].
    by apply elem_of_nil in H.
Qed.

(** ** Range invariants of the aggregator *)

Lemma closeInRange_foldPrice price c :
  closeInRange c -> closeInRange (foldPrice price c).
Proof. unfold closeInRange. simpl. lia. Qed.

Lemma openInRange_foldPrice price c :
  openInRange c -> openInRange (foldPrice price c).
Proof. unfold openInRange. simpl. lia. Qed.

Lemma rangeInvariant_nil : rangeInvariant [].
Proof. split; [constructor | intros _ c Hc; discriminate]. Qed.

Lemma rangeInvariant_foldSample ms candles price t :
  rangeInvariant candles -> rangeInvariant (foldSample ms candles price t).
Proof.
  intros [Hclose Hopen].
  destruct (snoc_cases candles) as [-> | (l & lastCandle & ->)].
  - rewrite foldSample_nil. split.
    + repeat constructor; simpl; lia.
    + intros _ c [= <-]. unfold openInRange. simpl. lia.
  - rewrite Forall_app, Forall_singleton in Hclose.
    destruct Hclose as [Hl Hlast].
    destruct (Z.le_gt_cases (timestamp lastCandle + ms) t) as [Hle | Hgt].
    + rewrite foldSample_open by done. split.
      * rewrite !Forall_app, !Forall_singleton.
        split; [by split |]. unfold closeInRange. simpl. lia.
      * intros Hlen c Hc. rewrite length_app in Hlen. simpl in Hlen.
        apply Hopen; [lia |].
        destruct l; simpl in *; done.
    + rewrite foldSample_update by lia. split.
      * rewrite Forall_app. split; [done |].
        apply Forall_singleton. by apply closeInRange_foldPrice.
      * intros Hlen c Hc. rewrite length_app in Hlen, Hopen.
        destruct l as [| c0 l].
        -- simpl in Hc. injection Hc as <-.
           apply openInRange_foldPrice. by apply Hopen.
        -- simpl in Hc. injection Hc as <-. by apply Hopen.
Qed.

Lemma rangeInvariant_limitCandles candles :
  rangeInvariant candles -> rangeInvariant (limitCandles 100 candles).
Proof.
  intros [Hclose Hopen]. unfold limitCandles.
  destruct (Nat.ltb_spec 100 (length candles)) as [Hlt | Hge].
  - split.
    + rewrite slice_neg_drop by lia. by apply Forall_drop.
    + rewrite slice_neg_length by lia. lia.
  - by split.
Qed.

Lemma rangeInvariant_updateOHLCData poolData price t :
  (forall interval, rangeInvariant (ohlc poolData interval)) ->
  forall interval,
    rangeInvariant (ohlc (updateOHLCData poolData price t) interval).
Proof.
  intros Hinv interval.
  rewrite ohlc_updateOHLCData, DATAPOINT_LIMITS_100.
  apply rangeInvariant_limitCandles, rangeInvariant_foldSample, Hinv.
Qed.

Lemma rangeInvariant_feed samples : forall poolData,
  (forall interval, rangeInvariant (ohlc poolData interval)) ->
  forall interval, rangeInvariant (ohlc (feed poolData samples) interval).
Proof.
  induction samples as [| [price t] samples IH]; intros poolData Hinv.
  - exact Hinv.
  - apply (IH (updateOHLCData poolData price t)).
    by apply rangeInvariant_updateOHLCData.
Qed.

(** C4 (amended): after any sequence of updates from an empty series, every
    candle of every interval has [low <= close <= high] and [low <= high];
    [low <= open <= high] holds for the first candle of a list that has not
    reached the limit of 100, the candle that was opened on the empty
    list. *)
Theorem feed_candles_in_range now samples interval :
  let candles := ohlc (feed (createPoolData now) samples) interval in
  (forall c, c ∈ candles -> low c <= close c <= high c /\ low c <= high c) /\
  ((length candles < 100)%nat ->
   forall c, head candles = Some c -> low c <= open c <= high c).
Proof.
  cbv zeta.
  destruct (rangeInvariant_feed samples (createPoolData now)
              (fun _ => rangeInvariant_nil) interval) as [Hclose Hopen].
  split; [| exact Hopen].
  intros c Hc. rewrite Forall_forall in Hclose.
  specialize (Hclose c Hc). unfold closeInRange in Hclose. lia.
Qed.

(** C4 (as stated, refuted): after the samples (10, 0) and (12, 60000) the
    second 1m candle has open 10 below its low 12. *)
Lemma candle_open_out_of_range :
  exists c,
    c ∈ ohlc (feed (createPoolData 0) [(10, 0); (12, 60000)]) I_1m /\
    ~ (low c <= open c <= high c).
Proof.
  exists (mkCandle 60000 10 12 12 12). split.
  - change (ohlc (feed (createPoolData 0) [(10, 0); (12, 60000)]) I_1m)
      with [mkCandle 0 10 10 10 10; mkCandle 60000 10 12 12 12].
    set_solver.
  - simpl. lia.
Qed.

(** ** Continuity repair *)

Lemma setOpen_id c : setOpen (open c) c = c.
Proof. by destruct c. Qed.

Lemma setOpen_changes o c : o <> open c -> setOpen o c <> c.
Proof. intros Hne Heq. apply Hne. by rewrite <- Heq. Qed.

(** Whichever branch is taken, the candle at index [i] ends up with its
    open set to the previous close and nothing else changed. *)
Lemma fixFrom_cons prevClose currCandle rest :
  (fixFrom prevClose (currCandle :: rest)).1 =
  setOpen prevClose currCandle :: (fixFrom (close currCandle) rest).1.
Proof.
  simpl. destruct (fixFrom (close currCandle) rest) as [rest' n].
  destruct (decide (prevClose <> open currCandle)) as [Hne | Heq]; [done |].
  apply dec_stable in Heq. simpl. by rewrite Heq, setOpen_id.
Qed.

Lemma fixFrom_length prevClose candles :
  length (fixFrom prevClose candles).1 = length candles.
Proof.
  revert prevClose. induction candles as [| c rest IH]; intros p; [done |].
  rewrite fixFrom_cons. simpl. by rewrite IH.
Qed.

Lemma fixFrom_chained prevClose candles :
  chained prevClose (fixFrom prevClose candles).1.
Proof.
  revert prevClose. induction candles as [| c rest IH]; intros p; [done |].
  rewrite fixFrom_cons. split; [done |]. apply IH.
Qed.

Lemma chained_continuous first rest :
  chained (close first) rest -> continuous (first :: rest).
Proof.
  revert first. induction rest as [| c rest IH]; intros first Hch i prev curr.
  - destruct i; simpl; intros _ H; discriminate.
  - destruct Hch as [Hopen Hrest]. destruct i as [| i]; simpl.
    + intros [= <-] [= <-]. done.
    + intros Hprev Hcurr. by apply (IH c Hrest i).
Qed.

Lemma fixFrom_lookup_0 prevClose candles :
  (fixFrom prevClose candles).1 !! 0%nat = setOpen prevClose <$> candles !! 0%nat.
Proof. destruct candles; [done |]. by rewrite fixFrom_cons. Qed.

Lemma fixFrom_lookup_S prevClose candles i prevCandle currCandle :
  candles !! i = Some prevCandle ->
  candles !! S i = Some currCandle ->
  (fixFrom prevClose candles).1 !! S i =
  Some (setOpen (close prevCandle) currCandle).
Proof.
  revert prevClose i. induction candles as [| c rest IH]; intros p i; [done |].
  rewrite fixFrom_cons. destruct i as [| i]; simpl.
  - intros [= <-] Hcurr. rewrite fixFrom_lookup_0, Hcurr. done.
  - intros Hprev Hcurr. by apply IH.
Qed.

Lemma fixFrom_count prevClose candles :
  (fixFrom prevClose candles).2 =
  repairedCount candles (fixFrom prevClose candles).1.
Proof.
  revert prevClose. unfold repairedCount.
  induction candles as [| c rest IH]; intros p; [done |].
  simpl. specialize (IH (close c)).
  destruct (fixFrom (close c) rest) as [rest' n]. simpl in IH.
  destruct (decide (p <> open c)) as [Hne | Heq]; simpl.
  - rewrite filter_cons_True by (simpl; intros H; by apply (setOpen_changes p c)).
    simpl. by rewrite IH.
  - rewrite filter_cons_False by (simpl; intros H; by apply H).
    done.
Qed.

(** The loop over one interval. *)
Lemma fixCandles_length candles :
  length (fixCandles candles).1 = length candles.
Proof.
  destruct candles as [| first rest]; [done |]. simpl.
  pose proof (fixFrom_length (close first) rest) as H.
  destruct (fixFrom (close first) rest). simpl in *. by rewrite H.
Qed.

Lemma fixCandles_cons first rest :
  (fixCandles (first :: rest)).1 = first :: (fixFrom (close first) rest).1.
Proof. simpl. by destruct (fixFrom (close first) rest). Qed.

Lemma fixCandles_continuous candles : continuous (fixCandles candles).1.
Proof.
  destruct candles as [| first rest].
  - intros i prev curr H. by destruct i.
  - rewrite fixCandles_cons. apply chained_continuous, fixFrom_chained.
Qed.

Lemma fixCandles_lookup_0 candles :
  (fixCandles candles).1 !! 0%nat = candles !! 0%nat.
Proof. destruct candles; [done |]. by rewrite fixCandles_cons. Qed.

Lemma fixCandles_lookup_S candles i prevCandle currCandle :
  candles !! i = Some prevCandle ->
  candles !! S i = Some currCandle ->
  (fixCandles candles).1 !! S i = Some (setOpen (close prevCandle) currCandle).
Proof.
  destruct candles as [| first rest]; [done |].
  rewrite fixCandles_cons. destruct i as [| i]; simpl.
  - intros [= <-] Hcurr. rewrite fixFrom_lookup_0, Hcurr. done.
  - apply fixFrom_lookup_S.
Qed.

Lemma fixCandles_count candles :
  (fixCandles candles).2 = repairedCount candles (fixCandles candles).1.
Proof.
  destruct candles as [| first rest]; [done |].
  unfold repairedCount. simpl.
  pose proof (fixFrom_count (close first) rest) as H.
  destruct (fixFrom (close first) rest) as [rest' n]. simpl in *.
  rewrite filter_cons_False by (simpl; intros Hne; by apply Hne).
  done.
Qed.

(** The intervals are repaired independently of each other. *)
Lemma ohlc_validateAndFixOHLCContinuity poolData interval :
  ohlc (validateAndFixOHLCContinuity poolData).1 interval =
  (fixCandles (ohlc poolData interval)).1.
Proof. destruct interval; reflexivity. Qed.

Lemma count_validateAndFixOHLCContinuity poolData :
  (validateAndFixOHLCContinuity poolData).2 =
  sum_list ((fun interval => (fixCandles (ohlc poolData interval)).2)
              <$> ohlcKeys).
Proof. simpl. lia. Qed.

(** C2: after [validateAndFixOHLCContinuity] every consecutive pair of
    every interval satisfies [candle[i].open = candle[i-1].close]; each
    list keeps its length and its first candle, and every later candle is
    the loaded one with its open set to the previous candle's close (so a
    candle that already was continuous is unchanged); the returned count is
    the number of candles that were changed. *)
Theorem validateAndFixOHLCContinuity_repairs poolData :
  let repaired := (validateAndFixOHLCContinuity poolData).1 in
  let fixCount := (validateAndFixOHLCContinuity poolData).2 in
  (forall interval, continuous (ohlc repaired interval)) /\
  (forall interval,
     length (ohlc repaired interval) = length (ohlc poolData interval) /\
     ohlc repaired interval !! 0%nat = ohlc poolData interval !! 0%nat /\
     forall i prevCandle currCandle,
       ohlc poolData interval !! i = Some prevCandle ->
       ohlc poolData interval !! S i = Some currCandle ->
       ohlc repaired interval !! S i =
       Some (setOpen (close prevCandle) currCandle)) /\
  fixCount =
    sum_list ((fun interval =>
                 repairedCount (ohlc poolData interval) (ohlc repaired interval))
                <$> ohlcKeys).
Proof.
  cbv zeta. split; [| split].
  - intros interval. rewrite ohlc_validateAndFixOHLCContinuity.
    apply fixCandles_continuous.
  - intros interval. rewrite ohlc_validateAndFixOHLCContinuity.
    split; [apply fixCandles_length |].
    split; [apply fixCandles_lookup_0 |].
    apply fixCandles_lookup_S.
  - rewrite count_validateAndFixOHLCContinuity. f_equal.
    apply list_fmap_ext. intros _ interval _.
    rewrite ohlc_validateAndFixOHLCContinuity. apply fixCandles_count.
Qed.

(** Scenario C: a loaded 1h list whose candle 3 closes at 100 while candle 4
    opens at 105 is repaired once, candle 4 then opening at 100. *)
Example scenario_C :
  let loaded :=
    set_ohlc I_1h
      [mkCandle 0 90 95 90 95; mkCandle 3600000 95 96 94 96;
       mkCandle 7200000 96 99 96 98; mkCandle 10800000 98 101 97 100;
       mkCandle 14400000 105 107 104 106]
      (createPoolData 0) in
  (validateAndFixOHLCContinuity loaded).2 = 1%nat /\
  ohlc (validateAndFixOHLCContinuity loaded).1 I_1h !! 4%nat =
  Some (mkCandle 14400000 100 107 104 106).
Proof. split; reflexivity. Qed.

(** ** Interval derivation *)

#[global] Instance byTimestamp_total : Total byTimestamp.
Proof. intros a b. unfold byTimestamp. lia. Qed.

#[global] Instance byTimestamp_trans : Transitive byTimestamp.
Proof. intros a b c. unfold byTimestamp. lia. Qed.

Lemma mergeAll_snoc target later c :
  mergeAll target (later ++ [c]) = mergeCandle c (mergeAll target later).
Proof. unfold mergeAll. by rewrite fold_left_app. Qed.

Lemma mergeAll_timestamp_open target later :
  timestamp (mergeAll target later) = timestamp target /\
  open (mergeAll target later) = open target.
Proof.
  induction later as [| c later IH] using rev_ind; [done |].
  rewrite mergeAll_snoc. simpl. exact IH.
Qed.

Section Derivation.

(** The target interval width, fixed during one derivation. *)
Variable w : Z.

Lemma bucketMembers_snoc processed c bucket :
  bucketMembers w (processed ++ [c]) bucket =
  bucketMembers w processed bucket ++
  (if decide (roundedTimestamp (timestamp c) w = bucket) then [c] else []).
Proof.
  unfold bucketMembers. by rewrite filter_app.
Qed.

Lemma bucketCandle_snoc_other processed c bucket :
  roundedTimestamp (timestamp c) w <> bucket ->
  bucketCandle w (processed ++ [c]) bucket = bucketCandle w processed bucket.
Proof.
  intros Hne. unfold bucketCandle. rewrite bucketMembers_snoc.
  destruct (decide _); [done |]. by rewrite app_nil_r.
Qed.

Lemma bucketCandle_snoc_new processed c :
  bucketCandle w processed (roundedTimestamp (timestamp c) w) = None ->
  bucketCandle w (processed ++ [c]) (roundedTimestamp (timestamp c) w) =
  Some (seedCandle (roundedTimestamp (timestamp c) w) c).
Proof.
  unfold bucketCandle. rewrite bucketMembers_snoc.
  destruct (decide _); [| done].
  destruct (bucketMembers w processed _); [done | discriminate].
Qed.

Lemma bucketCandle_snoc_merge processed c targetCandle :
  bucketCandle w processed (roundedTimestamp (timestamp c) w) =
    Some targetCandle ->
  bucketCandle w (processed ++ [c]) (roundedTimestamp (timestamp c) w) =
  Some (mergeCandle c targetCandle).
Proof.
  unfold bucketCandle. rewrite bucketMembers_snoc.
  destruct (decide _); [| done].
  destruct (bucketMembers w processed _) as [| first later]; [discriminate |].
  intros [= <-]. simpl. by rewrite <- mergeAll_snoc.
Qed.

Lemma derived_nil : derived w [] [].
Proof.
  split; [constructor |]. split; intros x Hx; by apply elem_of_nil in Hx.
Qed.

(** One iteration of the [forEach] keeps the description. *)
Lemma derived_step processed result c :
  derived w processed result ->
  derived w (processed ++ [c]) (deriveStep w result c).
Proof.
  intros (Hnodup & Hdesc & Hcover). unfold deriveStep.
  set (bucket := roundedTimestamp (timestamp c) w).
  destruct (list_find (fun x => timestamp x = bucket) result)
    as [[i found] |] eqn:Hfind.
  - apply list_find_Some in Hfind as (Hi & Hts & _).
    assert (timestamp <$> alter (mergeCandle c) i result = timestamp <$> result)
      as Htimes.
    { rewrite (list_fmap_alter timestamp (mergeCandle c) id)
        by (by apply Forall_forall).
      by apply list_alter_id. }
    assert (forall tc, tc ∈ alter (mergeCandle c) i result ->
              (tc = mergeCandle c found) \/
              (tc ∈ result /\ timestamp tc <> bucket)) as Hcases.
    { intros tc Htc. apply list_elem_of_lookup in Htc as [j Hj].
      rewrite list_lookup_alter in Hj. destruct (decide (i = j)) as [<- | Hij].
      - rewrite Hi in Hj. left. by injection Hj.
      - right. split; [apply list_elem_of_lookup; eauto |].
        intros Heq. apply Hij.
        apply (NoDup_lookup (timestamp <$> result) i j bucket); [done | |].
        + by rewrite list_lookup_fmap, Hi, <- Hts.
        + by rewrite list_lookup_fmap, Hj, <- Heq. }
    split; [by rewrite Htimes |]. split.
    + intros tc Htc. destruct (Hcases tc Htc) as [-> | [Hin Hne]].
      * simpl. rewrite Hts. apply bucketCandle_snoc_merge.
        fold bucket. rewrite <- Hts. apply Hdesc.
        apply list_elem_of_lookup; eauto.
      * rewrite bucketCandle_snoc_other by (fold bucket; congruence).
        by apply Hdesc.
    + intros c' Hc'.
      assert (exists tc, tc ∈ result /\
                timestamp tc = roundedTimestamp (timestamp c') w)
        as (tc & Htc & Htcts).
      { apply elem_of_app in Hc' as [Hc' | Hc']; [by apply Hcover |].
        apply list_elem_of_singleton in Hc' as ->.
        exists found. split; [apply list_elem_of_lookup; eauto | done]. }
      assert (timestamp tc ∈ timestamp <$> alter (mergeCandle c) i result)
        as Hin by (rewrite Htimes; by apply list_elem_of_fmap_2).
      apply list_elem_of_fmap in Hin as (tc' & Heq & Hin).
      exists tc'. split; [done | congruence].
  - apply list_find_None in Hfind. rewrite Forall_forall in Hfind.
    split; [| split].
    + rewrite fmap_app. apply NoDup_app. split; [done |].
      split; [| apply NoDup_singleton].
      intros b Hb Hb'. apply list_elem_of_singleton in Hb'. simpl in Hb'.
      apply list_elem_of_fmap in Hb as (tc & -> & Htc).
      by apply (Hfind tc).
    + intros tc Htc. apply elem_of_app in Htc as [Htc | Htc].
      * rewrite bucketCandle_snoc_other; [by apply Hdesc |].
        fold bucket. intros Heq. by apply (Hfind tc).
      * apply list_elem_of_singleton in Htc as ->. simpl.
        apply bucketCandle_snoc_new. fold bucket.
        destruct (bucketCandle w processed bucket) as [tc |] eqn:Hb; [| done].
        exfalso. unfold bucketCandle in Hb.
        destruct (bucketMembers w processed bucket) as [| first later] eqn:Hm;
          [discriminate |].
        assert (first ∈ bucketMembers w processed bucket) as Hfirst
          by (rewrite Hm; set_solver).
        apply list_elem_of_filter in Hfirst as [Hfb Hfin].
        destruct (Hcover first Hfin) as (tc' & Htc' & Hts').
        apply (Hfind tc' Htc'). congruence.
    + intros c' Hc'. apply elem_of_app in Hc' as [Hc' | Hc'].
      * destruct (Hcover c' Hc') as (tc & Htc & Hts).
        exists tc. split; [apply elem_of_app; by left | done].
      * apply list_elem_of_singleton in Hc' as ->.
        eexists. split; [apply elem_of_app; right; by apply list_elem_of_singleton |].
        done.
Qed.

Lemma derived_fold source : forall processed result,
  derived w processed result ->
  derived w (processed ++ source) (fold_left (deriveStep w) source result).
Proof.
  induction source as [| c source IH]; intros processed result Hd.
  - by rewrite app_nil_r.
  - simpl. replace (processed ++ c :: source)
      with ((processed ++ [c]) ++ source) by by rewrite <- app_assoc.
    apply IH. by apply derived_step.
Qed.

Lemma derived_deriveBuckets source :
  derived w source (deriveBuckets source w).
Proof. apply (derived_fold source [] []), derived_nil. Qed.

End Derivation.

(** What seeding and merging compute: the highest high, the lowest low and
    the close of the last candle. *)
Lemma mergeAll_extremes bucket first later :
  let tc := mergeAll (seedCandle bucket first) later in
  (forall c, c ∈ first :: later -> high c <= high tc /\ low tc <= low c) /\
  (exists c, c ∈ first :: later /\ high c = high tc) /\
  (exists c, c ∈ first :: later /\ low c = low tc) /\
  (exists lastCandle,
     last (first :: later) = Some lastCandle /\ close tc = close lastCandle).
Proof.
  cbv zeta. induction later as [| c later IH] using rev_ind.
  - simpl. split; [| split; [| split]].
    + intros c Hc. apply list_elem_of_singleton in Hc as ->. done.
    + exists first. split; [by apply list_elem_of_singleton | done].
    + exists first. split; [by apply list_elem_of_singleton | done].
    + exists first. done.
  - destruct IH as (Hbound & (ch & Hch & Hhigh) & (cl & Hcl & Hlow) & _).
    rewrite mergeAll_snoc. simpl.
    set (tc := mergeAll (seedCandle bucket first) later) in *.
    assert (c ∈ first :: later ++ [c]) as Hc.
    { rewrite app_comm_cons. apply elem_of_app. right.
      by apply list_elem_of_singleton. }
    assert (forall x, x ∈ first :: later -> x ∈ first :: later ++ [c]) as Hold.
    { intros x Hx. rewrite app_comm_cons. apply elem_of_app. by left. }
    split; [| split; [| split]].
    + intros x Hx. rewrite app_comm_cons in Hx.
      apply elem_of_app in Hx as [Hx | Hx].
      * destruct (Hbound x Hx). lia.
      * apply list_elem_of_singleton in Hx as ->. lia.
    + destruct (Z.max_spec (high tc) (high c)) as [[_ ->] | [_ ->]].
      * by exists c.
      * exists ch. split; [by apply Hold | done].
    + destruct (Z.min_spec (low tc) (low c)) as [[_ ->] | [_ ->]].
      * exists cl. split; [by apply Hold | done].
      * by exists c.
    + exists c. split; [| done].
      rewrite app_comm_cons. apply last_snoc.
Qed.

Lemma generateLongerInterval_Permutation source w :
  generateLongerInterval source w ≡ₚ deriveBuckets source w.
Proof.
  destruct source as [| c source]; [done |].
  apply merge_sort_Permutation.
Qed.

Lemma generateLongerInterval_sorted source w :
  StronglySorted byTimestamp (generateLongerInterval source w).
Proof.
  destruct source as [| c source]; [constructor |].
  apply StronglySorted_merge_sort; apply _.
Qed.

Lemma sorted_NoDup_strict (result : list Candle) :
  StronglySorted byTimestamp result ->
  NoDup (timestamp <$> result) ->
  StronglySorted (fun a b => timestamp a < timestamp b) result.
Proof.
  induction 1 as [| a l Hsorted IH Hall]; intros Hnodup; [constructor |].
  rewrite fmap_cons in Hnodup. apply NoDup_cons in Hnodup as [Hnotin Hnodup].
  constructor; [by apply IH |].
  rewrite Forall_forall in Hall |- *. intros b Hb.
  specialize (Hall b Hb). unfold byTimestamp in Hall.
  assert (timestamp a <> timestamp b).
  { intros Heq. apply Hnotin. rewrite Heq. by apply list_elem_of_fmap_2. }
  lia.
Qed.

(** C6 (amended): for a positive target width, [generateLongerInterval]
    returns the target candles in strictly ascending timestamp order, one
    for each bucket [floor (ts / targetWidth) * targetWidth] of a source
    candle; a target candle is its bucket's first source candle (in list
    order) as seed with the later ones merged in, so that its open is the
    first one's open, its high the maximum of the highs, its low the
    minimum of the lows, and its close the close of the bucket's last source
    candle in list order. *)
Theorem generateLongerInterval_buckets sourceCandles targetIntervalMs :
  0 < targetIntervalMs ->
  let result := generateLongerInterval sourceCandles targetIntervalMs in
  StronglySorted (fun a b => timestamp a < timestamp b) result /\
  (forall c, c ∈ sourceCandles ->
     exists tc, tc ∈ result /\
       timestamp tc = roundedTimestamp (timestamp c) targetIntervalMs) /\
  (forall tc, tc ∈ result ->
     exists first later,
       bucketMembers targetIntervalMs sourceCandles (timestamp tc) =
         first :: later /\
       tc = mergeAll (seedCandle (timestamp tc) first) later /\
       open tc = open first /\
       (forall c, c ∈ first :: later ->
          high c <= high tc /\ low tc <= low c) /\
       (exists c, c ∈ first :: later /\ high c = high tc) /\
       (exists c, c ∈ first :: later /\ low c = low tc) /\
       (exists lastCandle,
          last (first :: later) = Some lastCandle /\
          close tc = close lastCandle)).
Proof.
  intros _. cbv zeta.
  pose proof (generateLongerInterval_Permutation sourceCandles targetIntervalMs)
    as Hperm.
  destruct (derived_deriveBuckets targetIntervalMs sourceCandles)
    as (Hnodup & Hdesc & Hcover).
  split; [| split].
  - apply sorted_NoDup_strict; [apply generateLongerInterval_sorted |].
    by rewrite Hperm.
  - intros c Hc. destruct (Hcover c Hc) as (tc & Htc & Hts).
    exists tc. split; [by rewrite Hperm | done].
  - intros tc Htc. rewrite Hperm in Htc. specialize (Hdesc tc Htc).
    unfold bucketCandle in Hdesc.
    destruct (bucketMembers targetIntervalMs sourceCandles (timestamp tc))
      as [| first later]; [discriminate |].
    injection Hdesc as Hdesc. exists first, later.
    split; [done |]. split; [done |].
    split.
    { rewrite <- Hdesc at 1.
      by destruct (mergeAll_timestamp_open (seedCandle (timestamp tc) first)
                     later) as [_ ->]. }
    pose proof (mergeAll_extremes (timestamp tc) first later) as Hext.
    cbv zeta in Hext. by rewrite Hdesc in Hext.
Qed.

Lemma generateLongerInterval_buckets_witness :
  let result :=
    generateLongerInterval
      [mkCandle 0 1 2 1 2; mkCandle 3600000 2 5 2 3; mkCandle 21600000 3 4 3 4]
      21600000 in
  result = [mkCandle 0 1 5 1 3; mkCandle 21600000 3 4 3 4] /\
  StronglySorted (fun a b => timestamp a < timestamp b) result.
Proof.
  split; [reflexivity |].
  apply (generateLongerInterval_buckets
           [mkCandle 0 1 2 1 2; mkCandle 3600000 2 5 2 3;
            mkCandle 21600000 3 4 3 4] 21600000).
  reflexivity.
Defined.

Lemma bucketMembers_sorted w source bucket :
  StronglySorted byTimestamp source ->
  StronglySorted byTimestamp (bucketMembers w source bucket).
Proof.
  unfold bucketMembers.
  induction 1 as [| a l Hl IH Hall]; [constructor |].
  rewrite filter_cons. destruct (decide _); [| exact IH].
  constructor; [exact IH |]. rewrite Forall_forall in Hall |- *.
  intros x Hx. apply list_elem_of_filter in Hx as [_ Hx]. by apply Hall.
Qed.

(** When the source list is in ascending timestamp order, the last source
    candle of a bucket in list order is also its chronologically last. *)
Lemma bucketMembers_last_chronological w source bucket lastCandle :
  StronglySorted byTimestamp source ->
  last (bucketMembers w source bucket) = Some lastCandle ->
  chronologicallyLast (bucketMembers w source bucket) lastCandle.
Proof.
  intros Hsorted Hlast.
  pose proof (bucketMembers_sorted w source bucket Hsorted) as Hs.
  apply last_Some in Hlast as [l' Hl']. rewrite Hl' in *.
  split; [apply elem_of_app; right; by apply list_elem_of_singleton |].
  intros c' Hc'. apply elem_of_app in Hc' as [Hc' | Hc'].
  - apply (StronglySorted_app_1_elem_of byTimestamp l' [lastCandle]);
      [done | done | by apply list_elem_of_singleton].
  - apply list_elem_of_singleton in Hc' as ->. lia.
Qed.

(** C6 (as stated, refuted): for the source list [60000 -> close 5;
    0 -> close 7] and a one-hour target width both candles fall into bucket
    0; the chronologically last of them is the one at 60000, closing at 5,
    but the derived candle closes at 7. *)
Lemma derived_close_not_chronological :
  let source := [mkCandle 60000 1 2 0 5; mkCandle 0 3 4 1 7] in
  exists tc c,
    tc ∈ generateLongerInterval source 3600000 /\
    chronologicallyLast (bucketMembers 3600000 source (timestamp tc)) c /\
    close tc <> close c.
Proof.
  cbv zeta. exists (mkCandle 0 1 4 0 7), (mkCandle 60000 1 2 0 5).
  split; [| split].
  - change (generateLongerInterval
              [mkCandle 60000 1 2 0 5; mkCandle 0 3 4 1 7] 3600000)
      with [mkCandle 0 1 4 0 7].
    by apply list_elem_of_singleton.
  - change (bucketMembers 3600000
              [mkCandle 60000 1 2 0 5; mkCandle 0 3 4 1 7]
              (timestamp (mkCandle 0 1 4 0 7)))
      with [mkCandle 60000 1 2 0 5; mkCandle 0 3 4 1 7].
    split; [apply elem_of_cons; by left |].
    intros c' Hc'. rewrite !elem_of_cons in Hc'.
    destruct Hc' as [-> | [-> | Hc']]; simpl; [lia | lia |].
    by apply elem_of_nil in Hc'.
  - simpl. lia.
Qed.

(** ** The volume tracker *)

Lemma fold_left_add_volumes (l : list VolumeEntry) (a : Z) :
  fold_left (fun sum v => sum + ve_volume v) l a =
  a + foldr (fun v acc => ve_volume v + acc) 0 l.
Proof.
  revert a. induction l as [| v l IH]; intros a; simpl; [lia |].
  rewrite IH. lia.
Qed.

(** The filter-and-reduce of the code computes the sum of the amounts
    logged since [since]. *)
Lemma sumVolumes_amountsSince since log :
  sumVolumes since log = amountsSince since log.
Proof.
  unfold sumVolumes. rewrite fold_left_add_volumes, Z.add_0_l.
  induction log as [| v log IH]; [done |].
  rewrite filter_cons. simpl. destruct (decide _); simpl; by rewrite IH.
Qed.




Lemma shiftOld_head cutoffTime log v :
  head (shiftOld cutoffTime log) = Some v -> cutoffTime <= ve_timestamp v.
Proof.
  induction log as [| v' log IH]; [done |].
  simpl. destruct (decide (ve_timestamp v' < cutoffTime)); [done |].
  simpl. intros [= <-]. lia.
Qed.



Lemma clockOrdered_nil now : clockOrdered now [].
Proof. split; constructor. Qed.



(** What one call computes, whatever the log holds. *)
Lemma updateVolume_recomputes poolData volumeInUSD now log :
  let logged := log ++ [mkVolumeEntry volumeInUSD now] in
  let result := updateVolume poolData volumeInUSD now log in
  total (volume result.1) = total (volume poolData) + volumeInUSD /\
  vol24h (volume result.1) = amountsSince (now - dayMs) logged /\
  vol7d (volume result.1) = amountsSince (now - weekMs) logged /\
  vol30d (volume result.1) = amountsSince (now - monthMs) logged /\
  result.2 = shiftOld (now - monthMs) logged /\
  ohlc result.1 = ohlc poolData.
Proof.
  cbv zeta. simpl. rewrite !sumVolumes_amountsSince. done.
Qed.






(** ** The shared volume log *)










(** ** The range query *)

Lemma truthy_nonzero n : n <> 0 -> truthy (Some n) = true.
Proof. intros Hn. simpl. by destruct (Z.eqb_spec n 0). Qed.

Lemma inTimeRange_spec f t c :
  f <> 0 -> t <> 0 ->
  inTimeRange (Some f) (Some t) c <-> f <= timestamp c <= t.
Proof.
  intros Hf Ht. unfold inTimeRange.
  rewrite !truthy_nonzero by done. simpl.
  destruct (Z.leb_spec f (timestamp c)) as [Hf1 | Hf1],
    (Z.leb_spec (timestamp c) t) as [Ht1 | Ht1];
    simpl; split; intros Hin; done || lia.
Qed.

Lemma filterOHLCByTimeRange_inRange ohlcData f t :
  f <> 0 -> t <> 0 ->
  filterOHLCByTimeRange ohlcData (Some f) (Some t) =
  candlesInRange f t ohlcData.
Proof.
  intros Hf Ht. destruct ohlcData as [| c rest]; [done |].
  unfold filterOHLCByTimeRange, candlesInRange.
  apply list_filter_iff. intros x. by apply inTimeRange_spec.
Qed.

Lemma limitDatapoints_mostRecent data intervalKey :
  limitDatapoints data intervalKey = mostRecent 100 data.
Proof.
  unfold limitDatapoints, mostRecent. destruct data as [| c rest]; [done |].
  rewrite DATAPOINT_LIMITS_100. simpl Nat.eqb. cbv iota.
  destruct (Nat.leb_spec (length (c :: rest)) 100) as [Hle | Hgt].
  - replace (length (c :: rest) - 100)%nat with 0%nat by lia. done.
  - apply slice_neg_drop. lia.
Qed.

Lemma priceQuery_range_check poolData token intervalKey f t :
  token <> "" -> mapInterval token = Some intervalKey ->
  f <> 0 -> t <> 0 ->
  priceQuery poolData (Some token) (Number f) (Number t) =
  if t <? f
  then Status400 "from_timestamp cannot be greater than to_timestamp"
  else
    let limitedData :=
      limitDatapoints
        (filterOHLCByTimeRange (ohlc poolData intervalKey) (Some f) (Some t))
        intervalKey in
    Status200 intervalKey (Some f) (Some t) (length limitedData) limitedData
      (lastUpdated poolData).
Proof.
  intros Htoken Hmap Hf Ht. unfold priceQuery.
  destruct (decide (token = "")); [done |]. rewrite Hmap.
  cbn [parsed]. rewrite !truthy_nonzero by done. done.
Qed.

(** C8 (amended): a query for a valid interval with non-zero bounds
    [from <= to] answers with exactly the candles of the interval whose
    timestamp lies in [[from, to]], cut to the 100 most recent; the limit is
    the fixed [DATAPOINT_LIMITS] entry, the query has no limit
    parameter. *)
Theorem priceQuery_in_range poolData token intervalKey fromTimestamp
    toTimestamp :
  token <> "" -> mapInterval token = Some intervalKey ->
  fromTimestamp <> 0 -> toTimestamp <> 0 -> fromTimestamp <= toTimestamp ->
  let qualifying :=
    candlesInRange fromTimestamp toTimestamp (ohlc poolData intervalKey) in
  priceQuery poolData (Some token) (Number fromTimestamp) (Number toTimestamp) =
  Status200 intervalKey (Some fromTimestamp) (Some toTimestamp)
    (length (mostRecent 100 qualifying)) (mostRecent 100 qualifying)
    (lastUpdated poolData) /\
  (length (mostRecent 100 qualifying) <= 100)%nat /\
  (forall c, c ∈ qualifying <->
     c ∈ ohlc poolData intervalKey /\
     fromTimestamp <= timestamp c <= toTimestamp).
Proof.
  intros Htoken Hmap Hf Ht Hle. cbv zeta.
  rewrite (priceQuery_range_check _ _ intervalKey) by done.
  destruct (Z.ltb_spec toTimestamp fromTimestamp); [lia |]. cbv zeta.
  rewrite filterOHLCByTimeRange_inRange, limitDatapoints_mostRecent by done.
  split; [done |]. split.
  - unfold mostRecent. rewrite length_drop. lia.
  - intros c. unfold candlesInRange. rewrite list_elem_of_filter. tauto.
Qed.

Lemma priceQuery_in_range_witness :
  priceQuery (set_ohlc I_1h twentyCandles (createPoolData 0)) (Some "1h")
    (Number 3600000) (Number 36000000) =
  Status200 I_1h (Some 3600000) (Some 36000000) 10 (take 10 twentyCandles)
    None.
Proof.
  destruct (priceQuery_in_range
              (set_ohlc I_1h twentyCandles (createPoolData 0)) "1h" I_1h
              3600000 36000000) as (Hq & _);
    [discriminate | reflexivity | lia | lia | lia |].
  rewrite Hq. reflexivity.
Defined.

(** C8 (as stated, refuted): the query cannot be given a limit of 5; on a
    1h list with 20 candles in the range it answers with all 20. *)
Lemma priceQuery_returns_all_twenty :
  priceQuery (set_ohlc I_1h twentyCandles (createPoolData 0)) (Some "1h")
    (Number 1) (Number 100000000) =
  Status200 I_1h (Some 1) (Some 100000000) 20 twentyCandles None /\
  length twentyCandles <> 5%nat.
Proof. split; [reflexivity | discriminate]. Qed.

(** The range check works when both bounds are non-zero. *)
Lemma priceQuery_invalid_range poolData token intervalKey f t :
  token <> "" -> mapInterval token = Some intervalKey ->
  f <> 0 -> t <> 0 -> t < f ->
  priceQuery poolData (Some token) (Number f) (Number t) =
  Status400 "from_timestamp cannot be greater than to_timestamp".
Proof.
  intros Htoken Hmap Hf Ht Hlt.
  rewrite (priceQuery_range_check _ _ intervalKey) by done.
  by destruct (Z.ltb_spec t f); [| lia].
Qed.

(** C9 (evaluation at the failing input): with [from_timestamp = 5] and
    [to_timestamp = 0] the range check is skipped, because the number 0 is
    falsy, and the query answers with status 200 and the candles from 5 on
    instead of the range error. *)
Theorem priceQuery_to_zero_is_not_rejected :
  let poolData := set_ohlc I_1h twentyCandles (createPoolData 0) in
  priceQuery poolData (Some "1h") (Number 5) (Number 0) =
  Status200 I_1h (Some 5) (Some 0) 20 twentyCandles None.
Proof. reflexivity. Qed.

(** The same for every pool data and every positive [from_timestamp]: the
    answer to a query with [to_timestamp = 0] is never the range error. *)
Lemma priceQuery_to_zero_never_range_error poolData f :
  priceQuery poolData (Some "1h") (Number f) (Number 0) <>
  Status400 "from_timestamp cannot be greater than to_timestamp".
Proof.
  unfold priceQuery. simpl.
  destruct (negb (f =? 0)); simpl; discriminate.
Qed.

(** * Further properties *)

(** ** Continuity is kept by the aggregator *)

Lemma continuous_nil : continuous [].
Proof. intros i prev curr H. by destruct i. Qed.

Lemma continuous_singleton c : continuous [c].
Proof. intros i prev curr _ H. destruct i; discriminate. Qed.

Lemma continuous_tail a l : continuous (a :: l) -> continuous l.
Proof. intros Hc i prev curr Hp Hn. by apply (Hc (S i)). Qed.

Lemma continuous_cons a b l :
  open b = close a -> continuous (b :: l) -> continuous (a :: b :: l).
Proof.
  intros Hab Hc i prev curr Hp Hn. destruct i as [| i].
  - simpl in Hp, Hn. by simplify_eq.
  - by apply (Hc i).
Qed.

Lemma continuous_head a b l : continuous (a :: b :: l) -> open b = close a.
Proof. intros Hc. by apply (Hc 0%nat). Qed.

Lemma continuous_snoc l lastCandle c :
  continuous (l ++ [lastCandle]) -> open c = close lastCandle ->
  continuous ((l ++ [lastCandle]) ++ [c]).
Proof.
  intros Hc Hopen. induction l as [| a l IH]; simpl in *.
  - apply continuous_cons; [done | apply continuous_singleton].
  - destruct (l ++ [lastCandle]) as [| b rest] eqn:E;
      [by destruct l |].
    simpl. apply continuous_cons; [by apply (continuous_head a b rest) |].
    apply IH. by apply (continuous_tail a).
Qed.

Lemma continuous_last_open l lastCandle lastCandle' :
  continuous (l ++ [lastCandle]) -> open lastCandle' = open lastCandle ->
  continuous (l ++ [lastCandle']).
Proof.
  intros Hc Hopen. induction l as [| a l IH]; simpl in *.
  - apply continuous_singleton.
  - pose proof (IH (continuous_tail a _ Hc)) as Htail.
    destruct l as [| b l]; simpl in *.
    + apply continuous_cons; [| apply continuous_singleton].
      rewrite Hopen. by apply (continuous_head a lastCandle []).
    + apply continuous_cons; [| done].
      by apply (continuous_head a b (l ++ [lastCandle])).
Qed.

Lemma continuous_drop k l : continuous l -> continuous (drop k l).
Proof.
  intros Hc i prev curr Hp Hn. rewrite lookup_drop in Hp, Hn.
  apply (Hc (k + i)%nat); [done |].
  by replace (S (k + i)) with (k + S i)%nat by lia.
Qed.

Lemma continuous_foldSample ms candles price t :
  continuous candles -> continuous (foldSample ms candles price t).
Proof.
  intros Hc. destruct (snoc_cases candles) as [-> | (l & lastCandle & ->)].
  - rewrite foldSample_nil. apply continuous_singleton.
  - destruct (Z.le_gt_cases (timestamp lastCandle + ms) t) as [Hle | Hgt].
    + rewrite foldSample_open by done. by apply continuous_snoc.
    + rewrite foldSample_update by lia.
      by apply (continuous_last_open l lastCandle).
Qed.

Lemma continuous_limitCandles limit candles :
  (0 < limit)%nat -> continuous candles ->
  continuous (limitCandles limit candles).
Proof.
  intros Hpos Hc. rewrite limitCandles_drop by done. by apply continuous_drop.
Qed.

Lemma continuous_updateOHLCData poolData price t interval :
  continuous (ohlc poolData interval) ->
  continuous (ohlc (updateOHLCData poolData price t) interval).
Proof.
  intros Hc. rewrite ohlc_updateOHLCData, DATAPOINT_LIMITS_100.
  apply continuous_limitCandles; [lia |]. by apply continuous_foldSample.
Qed.

Lemma continuous_feed samples : forall poolData interval,
  continuous (ohlc poolData interval) ->
  continuous (ohlc (feed poolData samples) interval).
Proof.
  induction samples as [| [price t] samples IH]; intros poolData interval Hc.
  - exact Hc.
  - apply (IH (updateOHLCData poolData price t)).
    by apply continuous_updateOHLCData.
Qed.

(** ** A repair pass on continuous data *)

Lemma fixFrom_unchanged prevClose candles :
  (fixFrom prevClose candles).2 = 0%nat ->
  (fixFrom prevClose candles).1 = candles.
Proof.
  revert prevClose. induction candles as [| c rest IH]; intros p; [done |].
  simpl. specialize (IH (close c)).
  destruct (fixFrom (close c) rest) as [rest' n]. simpl in IH.
  destruct (decide (p <> open c)); simpl; [discriminate |].
  intros ->. by rewrite IH.
Qed.

Lemma fixCandles_unchanged candles :
  (fixCandles candles).2 = 0%nat -> (fixCandles candles).1 = candles.
Proof.
  destruct candles as [| first rest]; [done |]. simpl.
  pose proof (fixFrom_unchanged (close first) rest) as H.
  destruct (fixFrom (close first) rest) as [rest' n]. simpl in *.
  intros ->. by rewrite H.
Qed.

Lemma chained_fixFrom_zero prevClose candles :
  chained prevClose candles -> (fixFrom prevClose candles).2 = 0%nat.
Proof.
  revert prevClose. induction candles as [| c rest IH]; intros p; [done |].
  intros [Hopen Hrest]. simpl. specialize (IH (close c) Hrest).
  destruct (fixFrom (close c) rest) as [rest' n]. simpl in IH.
  destruct (decide (p <> open c)); [congruence | done].
Qed.

Lemma continuous_chained first rest :
  continuous (first :: rest) -> chained (close first) rest.
Proof.
  revert first. induction rest as [| c rest IH]; intros first Hc; [done |].
  split; [by apply (continuous_head first c rest) |].
  apply IH. by apply (continuous_tail first).
Qed.

Lemma fixCandles_zero_iff candles :
  (fixCandles candles).2 = 0%nat <-> continuous candles.
Proof.
  split.
  - intros Hzero. rewrite <- (fixCandles_unchanged candles Hzero).
    apply fixCandles_continuous.
  - destruct candles as [| first rest]; [done |].
    intros Hc. simpl.
    pose proof (chained_fixFrom_zero (close first) rest
                  (continuous_chained first rest Hc)) as H.
    by destruct (fixFrom (close first) rest).
Qed.

Lemma ohlcKeys_all interval : interval ∈ ohlcKeys.
Proof.
  unfold ohlcKeys, intervals. simpl.
  destruct interval; repeat (apply elem_of_cons; (by left) || right).
Qed.

Lemma sum_list_zero (l : list nat) :
  sum_list l = 0%nat <-> Forall (fun n => n = 0%nat) l.
Proof.
  induction l as [| n l IH]; simpl.
  - split; [constructor | done].
  - rewrite Forall_cons, <- IH. lia.
Qed.

Lemma repair_count_zero poolData :
  (validateAndFixOHLCContinuity poolData).2 = 0%nat <->
  forall interval, continuous (ohlc poolData interval).
Proof.
  rewrite count_validateAndFixOHLCContinuity, sum_list_zero.
  rewrite Forall_fmap, Forall_forall. split.
  - intros H interval. apply fixCandles_zero_iff, H, ohlcKeys_all.
  - intros H interval _. apply fixCandles_zero_iff, H.
Qed.

(** X1: [validateAndFixOHLCContinuity] returns 0 exactly when every
    interval of the pool is already continuous, and it then leaves every
    candle list as it is; a second pass after a repair always returns 0. *)
Theorem validateAndFixOHLCContinuity_zero poolData :
  ((validateAndFixOHLCContinuity poolData).2 = 0%nat <->
   forall interval, continuous (ohlc poolData interval)) /\
  ((validateAndFixOHLCContinuity poolData).2 = 0%nat ->
   forall interval,
     ohlc (validateAndFixOHLCContinuity poolData).1 interval =
     ohlc poolData interval) /\
  (validateAndFixOHLCContinuity
     (validateAndFixOHLCContinuity poolData).1).2 = 0%nat.
Proof.
  split; [apply repair_count_zero | split].
  - intros H interval. rewrite ohlc_validateAndFixOHLCContinuity.
    apply fixCandles_unchanged, fixCandles_zero_iff.
    by apply repair_count_zero.
  - apply repair_count_zero. intros interval.
    rewrite ohlc_validateAndFixOHLCContinuity. apply fixCandles_continuous.
Qed.

(** X2: [updateOHLCData] keeps an interval continuous, so the lists of a
    series that started empty are continuous after any run of samples and
    a repair pass finds nothing in them. *)
Theorem feed_continuous now samples poolData price t :
  (forall interval,
     continuous (ohlc poolData interval) ->
     continuous (ohlc (updateOHLCData poolData price t) interval)) /\
  (forall interval,
     continuous (ohlc (feed (createPoolData now) samples) interval)) /\
  (validateAndFixOHLCContinuity (feed (createPoolData now) samples)).2 = 0%nat.
Proof.
  assert (forall interval,
            continuous (ohlc (feed (createPoolData now) samples) interval))
    as Hfeed by (intros interval; apply continuous_feed, continuous_nil).
  split; [intros interval; apply continuous_updateOHLCData |].
  split; [done |]. by apply repair_count_zero.
Qed.

(** ** Bucket order of the aggregator *)

Lemma roundedTimestamp_mod t ms : ms <> 0 -> roundedTimestamp t ms mod ms = 0.
Proof. intros Hms. unfold roundedTimestamp. by apply Z_mod_mult. Qed.

(** A bucket boundary that is not later than [t] is not later than the
    rounded timestamp of [t]. *)
Lemma roundedTimestamp_lower_bound m t ms :
  0 < ms -> m mod ms = 0 -> m <= t -> m <= roundedTimestamp t ms.
Proof.
  intros Hms Hmod Hle. unfold roundedTimestamp.
  apply Z.mod_divide in Hmod as [q ->]; [| lia].
  assert (q <= t / ms) by (apply Z.div_le_lower_bound; lia).
  nia.
Qed.

Lemma StronglySorted_drop {A} (R : relation A) k (l : list A) :
  StronglySorted R l -> StronglySorted R (drop k l).
Proof.
  intros Hs. rewrite <- (take_drop k l) in Hs.
  by apply StronglySorted_app_1_r in Hs.
Qed.

Lemma bucketed_nil ms : bucketed ms [].
Proof. split; constructor. Qed.

Lemma bucketed_drop ms k candles :
  bucketed ms candles -> bucketed ms (drop k candles).
Proof.
  intros [Hmod Hs]. split; [by apply Forall_drop | by apply StronglySorted_drop].
Qed.

Lemma bucketed_foldSample ms candles price t :
  0 < ms -> bucketed ms candles -> bucketed ms (foldSample ms candles price t).
Proof.
  intros Hms [Hmod Hs].
  destruct (snoc_cases candles) as [-> | (l & lastCandle & ->)].
  - rewrite foldSample_nil. split.
    + apply Forall_singleton. simpl. apply roundedTimestamp_mod. lia.
    + repeat constructor.
  - pose proof Hmod as Hmod'.
    rewrite Forall_app, Forall_singleton in Hmod'.
    destruct Hmod' as [Hmodl Hmodlast].
    pose proof Hs as Hs'. apply StronglySorted_app in Hs' as (Hbefore & Hl & _).
    destruct (Z.le_gt_cases (timestamp lastCandle + ms) t) as [Hle | Hgt].
    + rewrite foldSample_open by done. split.
      * apply Forall_app. split; [done |]. apply Forall_singleton. simpl.
        apply roundedTimestamp_mod. lia.
      * apply StronglySorted_app. split; [| split; [done | repeat constructor]].
        intros x1 x2 Hx1 Hx2. apply list_elem_of_singleton in Hx2 as ->. simpl.
        assert (timestamp lastCandle + ms <= roundedTimestamp t ms) as Hnew.
        { apply roundedTimestamp_lower_bound; [done | | done].
          rewrite <- Z.add_mod_idemp_l, Hmodlast by lia. simpl.
          apply Z_mod_same_full. }
        apply elem_of_app in Hx1 as [Hx1 | Hx1].
        -- specialize (Hbefore x1 lastCandle Hx1).
           assert (timestamp x1 + ms <= timestamp lastCandle)
             by (apply Hbefore; by apply list_elem_of_singleton).
           lia.
        -- apply list_elem_of_singleton in Hx1 as ->. done.
    + rewrite foldSample_update by lia. split.
      * apply Forall_app. split; [done |]. by apply Forall_singleton.
      * apply StronglySorted_app. split; [| split; [done | repeat constructor]].
        intros x1 x2 Hx1 Hx2. apply list_elem_of_singleton in Hx2 as ->. simpl.
        apply (Hbefore x1 lastCandle Hx1). by apply list_elem_of_singleton.
Qed.

Lemma bucketed_updateOHLCData poolData price t interval :
  bucketed (intervalMs interval) (ohlc poolData interval) ->
  bucketed (intervalMs interval)
    (ohlc (updateOHLCData poolData price t) interval).
Proof.
  intros Hb. rewrite ohlc_updateOHLCData, DATAPOINT_LIMITS_100.
  rewrite limitCandles_drop by lia. apply bucketed_drop.
  apply bucketed_foldSample; [apply intervalMs_pos | done].
Qed.

Lemma bucketed_feed samples : forall poolData interval,
  bucketed (intervalMs interval) (ohlc poolData interval) ->
  bucketed (intervalMs interval) (ohlc (feed poolData samples) interval).
Proof.
  induction samples as [| [price t] samples IH]; intros poolData interval Hb.
  - exact Hb.
  - apply (IH (updateOHLCData poolData price t)).
    by apply bucketed_updateOHLCData.
Qed.

(** X3: whatever the order of the samples' timestamps, every candle list
    of a series that started empty stays on the bucket boundaries of its
    interval, each candle at least one interval width after the one before
    it: an old sample is folded into the current candle and never opens a
    candle behind it. *)
Theorem feed_bucketed now samples interval :
  let candles := ohlc (feed (createPoolData now) samples) interval in
  (forall c, c ∈ candles -> timestamp c mod intervalMs interval = 0) /\
  StronglySorted
    (fun a b => timestamp a + intervalMs interval <= timestamp b) candles.
Proof.
  cbv zeta.
  destruct (bucketed_feed samples (createPoolData now) interval
              (bucketed_nil _)) as [Hmod Hs].
  split; [by apply Forall_forall | done].
Qed.

(** ** The limit only forgets the oldest candles *)

Lemma foldSample_drop ms k candles price t :
  (k < length candles)%nat ->
  foldSample ms (drop k candles) price t =
  drop k (foldSample ms candles price t).
Proof.
  intros Hk. destruct (snoc_cases candles) as [-> | (l & lastCandle & ->)];
    [simpl in Hk; lia |].
  rewrite length_app in Hk. simpl in Hk.
  rewrite drop_app_le by lia.
  destruct (Z.le_gt_cases (timestamp lastCandle + ms) t) as [Hle | Hgt].
  - rewrite !foldSample_open by done.
    rewrite <- !app_assoc. by rewrite (drop_app_le l) by lia.
  - rewrite !foldSample_update by lia. by rewrite drop_app_le by lia.
Qed.

Lemma foldSample_length ms candles price t :
  (length candles <= length (foldSample ms candles price t))%nat.
Proof.
  destruct (snoc_cases candles) as [-> | (l & lastCandle & ->)];
    [simpl; lia |].
  destruct (Z.le_gt_cases (timestamp lastCandle + ms) t) as [Hle | Hgt].
  - rewrite foldSample_open by done. rewrite !length_app. lia.
  - rewrite foldSample_update by lia. rewrite !length_app. simpl. lia.
Qed.

Lemma limitCandles_foldSample ms candles price t :
  limitCandles 100 (foldSample ms (limitCandles 100 candles) price t) =
  limitCandles 100 (foldSample ms candles price t).
Proof.
  rewrite (limitCandles_drop 100 candles) by lia.
  destruct (decide (length candles <= 100)%nat) as [Hle | Hgt].
  - by replace (length candles - 100)%nat with 0%nat by lia.
  - rewrite foldSample_drop by lia.
    rewrite !limitCandles_drop by lia.
    rewrite drop_drop, length_drop. f_equal.
    pose proof (foldSample_length ms candles price t). lia.
Qed.

Lemma feed_snoc poolData samples price t :
  feed poolData (samples ++ [(price, t)]) =
  updateOHLCData (feed poolData samples) price t.
Proof. unfold feed. by rewrite fold_left_app. Qed.

Lemma aggregate_snoc ms samples price t :
  aggregate ms (samples ++ [(price, t)]) =
  foldSample ms (aggregate ms samples) price t.
Proof. unfold aggregate. by rewrite fold_left_app. Qed.

(** X4: the length limit never changes what is computed, it only forgets:
    after any run from an empty series an interval's list is the last 100
    candles of the list the same run builds without the limit. *)
Theorem feed_mostRecent now samples interval :
  ohlc (feed (createPoolData now) samples) interval =
  mostRecent 100 (aggregate (intervalMs interval) samples).
Proof.
  unfold mostRecent. rewrite <- limitCandles_drop by lia.
  induction samples as [| [price t] samples IH] using rev_ind; [done |].
  rewrite feed_snoc, aggregate_snoc, ohlc_updateOHLCData, DATAPOINT_LIMITS_100.
  rewrite IH. apply limitCandles_foldSample.
Qed.

(** ** Backfill *)

Lemma ohlc_backfillInterval interval ms poolData i :
  ohlc (backfillInterval interval ms poolData) i =
  if decide (i = interval)
  then if (2 <=? length (ohlc poolData interval))%nat
       then ohlc poolData interval
       else backfillCandles ms (history poolData)
  else ohlc poolData i.
Proof.
  unfold backfillInterval.
  destruct (2 <=? length (ohlc poolData interval))%nat; simpl;
    destruct (decide (i = interval)) as [-> | Hne]; done.
Qed.

Lemma fields_backfillInterval interval ms poolData :
  history (backfillInterval interval ms poolData) = history poolData /\
  volume (backfillInterval interval ms poolData) = volume poolData /\
  latestPrice (backfillInterval interval ms poolData) = latestPrice poolData /\
  lastUpdated (backfillInterval interval ms poolData) = lastUpdated poolData.
Proof.
  unfold backfillInterval.
  by destruct (2 <=? length (ohlc poolData interval))%nat.
Qed.

Lemma history_backfillInterval interval ms poolData :
  history (backfillInterval interval ms poolData) = history poolData.
Proof. apply fields_backfillInterval. Qed.

(** The intervals are backfilled independently of each other. *)
Lemma ohlc_backfillHistoricalOHLC poolData interval :
  ohlc (backfillHistoricalOHLC poolData) interval =
  match history poolData with
  | [] => ohlc poolData interval
  | _ =>
      if (2 <=? length (ohlc poolData interval))%nat
      then ohlc poolData interval
      else backfillCandles (intervalMs interval) (history poolData)
  end.
Proof.
  unfold backfillHistoricalOHLC.
  destruct (history poolData) as [| item rest] eqn:Hh; [done |].
  unfold intervals. cbn [fold_left].
  destruct interval;
    repeat (rewrite ohlc_backfillInterval; cbn [decide_rel decide]; simpl);
    rewrite ?history_backfillInterval, Hh; reflexivity.
Qed.

Lemma fields_backfillHistoricalOHLC poolData :
  history (backfillHistoricalOHLC poolData) = history poolData /\
  volume (backfillHistoricalOHLC poolData) = volume poolData /\
  latestPrice (backfillHistoricalOHLC poolData) = latestPrice poolData /\
  lastUpdated (backfillHistoricalOHLC poolData) = lastUpdated poolData.
Proof.
  unfold backfillHistoricalOHLC.
  destruct (history poolData) as [| item rest] eqn:Hh; [by rewrite Hh |].
  assert (forall l pd,
            history (fold_left
                       (fun pd '(interval, ms) => backfillInterval interval ms pd)
                       l pd) = history pd /\
            volume (fold_left
                      (fun pd '(interval, ms) => backfillInterval interval ms pd)
                      l pd) = volume pd /\
            latestPrice (fold_left
                      (fun pd '(interval, ms) => backfillInterval interval ms pd)
                      l pd) = latestPrice pd /\
            lastUpdated (fold_left
                      (fun pd '(interval, ms) => backfillInterval interval ms pd)
                      l pd) = lastUpdated pd) as Hfold.
  { induction l as [| [interval ms] l IH]; intros pd; [done |].
    simpl. destruct (IH (backfillInterval interval ms pd)) as (-> & -> & -> & ->).
    apply fields_backfillInterval. }
  rewrite <- Hh. apply Hfold.
Qed.

Lemma backfillItem_nil ms item :
  backfillItem ms [] item =
  [mkCandle (roundedTimestamp (h_timestamp item) ms)
     (h_price item) (h_price item) (h_price item) (h_price item)].
Proof. reflexivity. Qed.

Lemma backfillItem_open ms l lastCandle item :
  timestamp lastCandle <> roundedTimestamp (h_timestamp item) ms ->
  backfillItem ms (l ++ [lastCandle]) item =
  (l ++ [lastCandle]) ++
  [mkCandle (roundedTimestamp (h_timestamp item) ms) (close lastCandle)
     (h_price item) (h_price item) (h_price item)].
Proof.
  intros Hne. unfold backfillItem. rewrite last_snoc.
  by destruct (decide _).
Qed.

Lemma backfillItem_update ms l lastCandle item :
  timestamp lastCandle = roundedTimestamp (h_timestamp item) ms ->
  backfillItem ms (l ++ [lastCandle]) item =
  l ++ [foldPrice (h_price item) lastCandle].
Proof.
  intros Heq. unfold backfillItem. rewrite last_snoc.
  destruct (decide _); [done |]. apply alterLast_snoc.
Qed.

Lemma backfillCandles_snoc ms history item :
  backfillCandles ms (history ++ [item]) =
  backfillItem ms (backfillCandles ms history) item.
Proof. unfold backfillCandles. by rewrite fold_left_app. Qed.

Lemma continuous_backfillItem ms candles item :
  continuous candles -> continuous (backfillItem ms candles item).
Proof.
  intros Hc. destruct (snoc_cases candles) as [-> | (l & lastCandle & ->)].
  - rewrite backfillItem_nil. apply continuous_singleton.
  - destruct (decide (timestamp lastCandle =
                      roundedTimestamp (h_timestamp item) ms)) as [Heq | Hne].
    + rewrite backfillItem_update by done.
      by apply (continuous_last_open l lastCandle).
    + rewrite backfillItem_open by done. by apply continuous_snoc.
Qed.

Lemma continuous_backfillCandles ms history :
  continuous (backfillCandles ms history).
Proof.
  induction history as [| item history IH] using rev_ind;
    [apply continuous_nil |].
  rewrite backfillCandles_snoc. by apply continuous_backfillItem.
Qed.

(** After an item the last candle is for the item's bucket and closes at
    the item's price. *)
Lemma last_backfillItem ms candles item :
  exists lastCandle,
    last (backfillItem ms candles item) = Some lastCandle /\
    close lastCandle = h_price item /\
    timestamp lastCandle = roundedTimestamp (h_timestamp item) ms.
Proof.
  destruct (snoc_cases candles) as [-> | (l & lastCandle & ->)].
  - rewrite backfillItem_nil. eexists. by split.
  - destruct (decide (timestamp lastCandle =
                      roundedTimestamp (h_timestamp item) ms)) as [Heq | Hne].
    + rewrite backfillItem_update by done.
      eexists. split; [apply last_snoc | by split].
    + rewrite backfillItem_open by done.
      eexists. split; [apply last_snoc | by split].
Qed.

Lemma length_backfillItem ms candles item :
  (length candles <= length (backfillItem ms candles item) <=
   S (length candles))%nat.
Proof.
  destruct (snoc_cases candles) as [-> | (l & lastCandle & ->)];
    [simpl; lia |].
  destruct (decide (timestamp lastCandle =
                    roundedTimestamp (h_timestamp item) ms)) as [Heq | Hne].
  - rewrite backfillItem_update by done. rewrite !length_app. simpl. lia.
  - rewrite backfillItem_open by done. rewrite !length_app. simpl. lia.
Qed.

Lemma length_backfillCandles ms history :
  (length (backfillCandles ms history) <= length history)%nat.
Proof.
  induction history as [| item history IH] using rev_ind; [done |].
  rewrite backfillCandles_snoc, length_app. simpl.
  pose proof (length_backfillItem ms (backfillCandles ms history) item). lia.
Qed.

(** X5: a backfill replaces the candles of every interval that holds fewer
    than two candles by the replay of the pool's history: the rebuilt list
    is continuous, has at least one candle and at most one per history item,
    and its last candle is for the bucket of the latest item and closes at
    the latest item's price. *)
Theorem backfillHistoricalOHLC_rebuilds poolData interval :
  history poolData <> [] ->
  (length (ohlc poolData interval) < 2)%nat ->
  let candles := ohlc (backfillHistoricalOHLC poolData) interval in
  candles = backfillCandles (intervalMs interval) (history poolData) /\
  continuous candles /\
  (0 < length candles <= length (history poolData))%nat /\
  exists lastItem lastCandle,
    last (history poolData) = Some lastItem /\
    last candles = Some lastCandle /\
    close lastCandle = h_price lastItem /\
    timestamp lastCandle =
      roundedTimestamp (h_timestamp lastItem) (intervalMs interval).
Proof.
  intros Hne Hlen. cbv zeta. rewrite ohlc_backfillHistoricalOHLC.
  destruct (history poolData) as [| item0 rest] eqn:Hh; [done |].
  destruct (Nat.leb_spec 2 (length (ohlc poolData interval))); [lia |].
  destruct (snoc_cases (item0 :: rest)) as [Hnil | (h & lastItem & Hsnoc)];
    [done |].
  rewrite Hsnoc.
  destruct (last_backfillItem (intervalMs interval)
              (backfillCandles (intervalMs interval) h) lastItem)
    as (lastCandle & Hlast & Hclose & Hts).
  split; [done |]. split; [apply continuous_backfillCandles |].
  split.
  - split; [| apply length_backfillCandles].
    rewrite backfillCandles_snoc.
    destruct (backfillItem (intervalMs interval)
                (backfillCandles (intervalMs interval) h) lastItem);
      [discriminate | simpl; lia].
  - exists lastItem, lastCandle. rewrite last_snoc.
    by rewrite backfillCandles_snoc.
Qed.

Lemma backfillHistoricalOHLC_rebuilds_witness :
  let poolData :=
    mkPoolData (Some 12) [mkHistoryItem 10 0; mkHistoryItem 12 60000] (Some 60000)
      (fun _ => []) (mkVolume 0 0 0 0 0) in
  ohlc (backfillHistoricalOHLC poolData) I_1m =
  [mkCandle 0 10 10 10 10; mkCandle 60000 10 12 12 12].
Proof.
  cbv zeta.
  destruct (backfillHistoricalOHLC_rebuilds
              (mkPoolData (Some 12) [mkHistoryItem 10 0; mkHistoryItem 12 60000]
                 (Some 60000) (fun _ => []) (mkVolume 0 0 0 0 0)) I_1m)
    as (Heq & _); [discriminate | simpl; lia |].
  rewrite Heq. reflexivity.
Defined.

(** X6: [backfillHistoricalOHLC] is idempotent, it does nothing to a pool
    without history and never touches an interval that already holds two or
    more candles, nor the history, the volume and the latest price. *)
Theorem backfillHistoricalOHLC_idempotent poolData :
  let once := backfillHistoricalOHLC poolData in
  (forall interval,
     ohlc (backfillHistoricalOHLC once) interval = ohlc once interval) /\
  (forall interval,
     (2 <= length (ohlc poolData interval))%nat \/ history poolData = [] ->
     ohlc once interval = ohlc poolData interval) /\
  history once = history poolData /\
  volume once = volume poolData /\
  latestPrice once = latestPrice poolData /\
  lastUpdated once = lastUpdated poolData.
Proof.
  cbv zeta. split; [| split; [| apply fields_backfillHistoricalOHLC]].
  - intros interval. rewrite (ohlc_backfillHistoricalOHLC (_ poolData)).
    destruct (fields_backfillHistoricalOHLC poolData) as (-> & _).
    rewrite ohlc_backfillHistoricalOHLC.
    destruct (history poolData) as [| item rest]; [done |].
    destruct (Nat.leb_spec 2 (length (ohlc poolData interval))) as [H2 | H2].
    + by destruct (Nat.leb_spec 2 (length (ohlc poolData interval)));
        [| lia].
    + by destruct (2 <=? _)%nat.
  - intros interval Hcase. rewrite ohlc_backfillHistoricalOHLC.
    destruct (history poolData) as [| item rest]; [done |].
    destruct Hcase as [H2 | Hnil]; [| done].
    by destruct (Nat.leb_spec 2 (length (ohlc poolData interval))); [| lia].
Qed.

(** ** Backfill against the live aggregator *)

Lemma roundedTimestamp_le t ms : 0 < ms -> roundedTimestamp t ms <= t.
Proof.
  intros Hms. unfold roundedTimestamp. rewrite Z.mul_comm.
  by apply Z.mul_div_le.
Qed.

Lemma roundedTimestamp_mono a b ms :
  0 < ms -> a <= b -> roundedTimestamp a ms <= roundedTimestamp b ms.
Proof.
  intros Hms Hab. unfold roundedTimestamp.
  apply Z.mul_le_mono_nonneg_r; [lia |]. by apply Z.div_le_mono.
Qed.

(** On a list whose last candle is for the bucket of an earlier sample,
    the test of the backfill ("another bucket") and the test of the live
    update ("the window has elapsed") choose the same branch. *)
Lemma backfillItem_foldSample ms l lastCandle item tprev :
  0 < ms ->
  timestamp lastCandle = roundedTimestamp tprev ms ->
  tprev <= h_timestamp item ->
  backfillItem ms (l ++ [lastCandle]) item =
  foldSample ms (l ++ [lastCandle]) (h_price item) (h_timestamp item).
Proof.
  intros Hms Hts Hle.
  assert (timestamp lastCandle mod ms = 0) as Hmod
    by (rewrite Hts; apply roundedTimestamp_mod; lia).
  destruct (Z.le_gt_cases (timestamp lastCandle + ms) (h_timestamp item))
    as [Helapsed | Hopen].
  - rewrite foldSample_open by done. apply backfillItem_open.
    assert (timestamp lastCandle + ms <=
            roundedTimestamp (h_timestamp item) ms); [| lia].
    apply roundedTimestamp_lower_bound; [done | | done].
    rewrite <- Z.add_mod_idemp_l, Hmod by lia. simpl.
    apply Z_mod_same_full.
  - rewrite foldSample_update by lia. apply backfillItem_update.
    pose proof (roundedTimestamp_mono tprev (h_timestamp item) ms Hms Hle)
      as Hmono.
    rewrite <- Hts in Hmono.
    pose proof (roundedTimestamp_le (h_timestamp item) ms Hms) as Hround.
    assert (roundedTimestamp (h_timestamp item) ms mod ms = 0) as Hmod'
      by (apply roundedTimestamp_mod; lia).
    apply Z.mod_divide in Hmod as [q1 Hq1]; [| lia].
    apply Z.mod_divide in Hmod' as [q2 Hq2]; [| lia].
    rewrite Hq1, Hq2 in *.
    assert (q1 <= q2) by nia. assert (q2 < q1 + 1) by nia.
    replace q2 with q1 by lia. done.
Qed.

(** X7: on a history in timestamp order the backfill builds, for any
    positive width, exactly the candles the live aggregator builds from the
    same samples when its length limit is left out. *)
Theorem backfillCandles_aggregate ms history :
  0 < ms -> timeOrdered history ->
  backfillCandles ms history = aggregate ms (sampleOf <$> history).
Proof.
  intros Hms. induction history as [| item history IH] using rev_ind;
    intros Hsorted; [done |].
  apply StronglySorted_app in Hsorted as (Hbefore & Hhistory & _).
  rewrite fmap_app, backfillCandles_snoc. simpl.
  unfold sampleOf at 2. rewrite aggregate_snoc, <- IH by done.
  destruct (snoc_cases history) as [-> | (h0 & prev & ->)]; [done |].
  rewrite backfillCandles_snoc.
  destruct (last_backfillItem ms (backfillCandles ms h0) prev)
    as (lastCandle & Hlast & _ & Hts).
  apply last_Some in Hlast as [l Hl]. rewrite Hl.
  apply (backfillItem_foldSample ms l lastCandle item (h_timestamp prev));
    [done | done |].
  apply (Hbefore prev item).
  - apply elem_of_app. right. by apply list_elem_of_singleton.
  - by apply list_elem_of_singleton.
Qed.

Lemma backfillCandles_aggregate_witness :
  backfillCandles 60000
    [mkHistoryItem 10 0; mkHistoryItem 12 30000; mkHistoryItem 9 90000] =
  [mkCandle 0 10 12 10 12; mkCandle 60000 12 9 9 9].
Proof.
  rewrite (backfillCandles_aggregate 60000
             [mkHistoryItem 10 0; mkHistoryItem 12 30000;
              mkHistoryItem 9 90000]).
  - reflexivity.
  - lia.
  - repeat constructor; simpl; lia.
Defined.

(** ** Derived candles keep the range invariants *)

Lemma deriveStep_length w result candle :
  (length (deriveStep w result candle) <= S (length result))%nat.
Proof.
  unfold deriveStep.
  destruct (list_find _ result) as [[i found] |].
  - rewrite length_alter. lia.
  - rewrite length_app. simpl. lia.
Qed.

Lemma deriveBuckets_length source w :
  (length (deriveBuckets source w) <= length source)%nat.
Proof.
  unfold deriveBuckets.
  assert (forall result,
            (length (fold_left (deriveStep w) source result) <=
             length result + length source)%nat) as Hfold.
  { induction source as [| c source IH]; intros result; simpl; [lia |].
    specialize (IH (deriveStep w result c)).
    pose proof (deriveStep_length w result c). lia. }
  apply (Hfold []).
Qed.

(** X8: [generateLongerInterval] returns no more candles than it is given
    and none only for an empty source; when open and close of every source
    candle lie between its low and its high, the same holds for every
    derived candle. *)
Theorem generateLongerInterval_ranges sourceCandles targetIntervalMs :
  let result := generateLongerInterval sourceCandles targetIntervalMs in
  (length result <= length sourceCandles)%nat /\
  (result = [] <-> sourceCandles = []) /\
  ((forall c, c ∈ sourceCandles -> openInRange c /\ closeInRange c) ->
   forall tc, tc ∈ result -> openInRange tc /\ closeInRange tc).
Proof.
  cbv zeta.
  pose proof (generateLongerInterval_Permutation sourceCandles targetIntervalMs)
    as Hperm.
  destruct (derived_deriveBuckets targetIntervalMs sourceCandles)
    as (Hnodup & Hdesc & Hcover).
  split; [| split].
  - rewrite Hperm. apply deriveBuckets_length.
  - split; [| by intros ->].
    intros Hnil. destruct sourceCandles as [| c rest]; [done |].
    destruct (Hcover c) as (tc & Htc & _); [apply elem_of_cons; by left |].
    rewrite <- Hperm, Hnil in Htc. by apply elem_of_nil in Htc.
  - intros Hsource tc Htc. rewrite Hperm in Htc.
    specialize (Hdesc tc Htc). unfold bucketCandle in Hdesc.
    destruct (bucketMembers targetIntervalMs sourceCandles (timestamp tc))
      as [| first later] eqn:Hmembers; [discriminate |].
    injection Hdesc as Hdesc.
    assert (forall c, c ∈ first :: later -> openInRange c /\ closeInRange c)
      as Hmember.
    { intros c Hc. apply Hsource. rewrite <- Hmembers in Hc.
      by apply list_elem_of_filter in Hc as [_ Hc]. }
    pose proof (mergeAll_extremes (timestamp tc) first later) as Hext.
    cbv zeta in Hext. rewrite Hdesc in Hext.
    destruct Hext as (Hbound & _ & _ & (lastCandle & Hlast & Hclose)).
    destruct (mergeAll_timestamp_open (seedCandle (timestamp tc) first) later)
      as [_ Hopen].
    rewrite Hdesc in Hopen. simpl in Hopen.
    assert (first ∈ first :: later) as Hfirst by (apply elem_of_cons; by left).
    assert (lastCandle ∈ first :: later) as Hlastin
      by (by apply last_Some_elem_of).
    destruct (Hbound first Hfirst), (Hbound lastCandle Hlastin).
    destruct (Hmember first Hfirst) as [Hfo _].
    destruct (Hmember lastCandle Hlastin) as [_ Hlc].
    unfold openInRange, closeInRange in *. lia.
Qed.

(** ** Derivation from a source in timestamp order *)

Lemma deriveBuckets_snoc source w c :
  deriveBuckets (source ++ [c]) w = deriveStep w (deriveBuckets source w) c.
Proof. unfold deriveBuckets. by rewrite fold_left_app. Qed.

Lemma deriveStep_new_bucket w result c :
  (forall x, x ∈ result -> timestamp x <> roundedTimestamp (timestamp c) w) ->
  deriveStep w result c =
  result ++ [seedCandle (roundedTimestamp (timestamp c) w) c].
Proof.
  intros Hnew. unfold deriveStep.
  destruct (list_find _ result) as [[i found] |] eqn:Hfind; [| done].
  apply list_find_Some in Hfind as (Hi & Hts & _).
  destruct (Hnew found); [apply list_elem_of_lookup; eauto | done].
Qed.

Lemma deriveStep_last_bucket w result lastTarget c :
  (forall x, x ∈ result -> timestamp x <> roundedTimestamp (timestamp c) w) ->
  timestamp lastTarget = roundedTimestamp (timestamp c) w ->
  deriveStep w (result ++ [lastTarget]) c =
  result ++ [mergeCandle c lastTarget].
Proof.
  intros Hnew Hts. unfold deriveStep.
  rewrite list_find_app_r
    by (apply list_find_None, Forall_forall; intros x Hx; by apply Hnew).
  simpl. destruct (decide _) as [_ | Hne]; [| done]. simpl.
  by rewrite alter_app_r_alt, Nat.sub_diag by lia.
Qed.

Lemma strictlyAscending_same_timestamp candles x y :
  strictlyAscending candles -> x ∈ candles -> y ∈ candles ->
  timestamp x = timestamp y -> x = y.
Proof.
  induction 1 as [| a l Hl IH Hall]; intros Hx Hy Heq;
    [by apply elem_of_nil in Hx |].
  rewrite Forall_forall in Hall.
  apply elem_of_cons in Hx as [-> | Hx], Hy as [-> | Hy]; [done | | | auto].
  - specialize (Hall y Hy). lia.
  - specialize (Hall x Hx). lia.
Qed.

Lemma strictlyAscending_byTimestamp candles :
  strictlyAscending candles -> StronglySorted byTimestamp candles.
Proof.
  induction 1 as [| a l Hl IH Hall]; constructor; [done |].
  eapply Forall_impl; [exact Hall |]. unfold byTimestamp. intros x Hx. lia.
Qed.

(** Sorting a list that is already in strictly ascending order changes
    nothing. *)
Lemma sortByTimestamp_ascending candles :
  strictlyAscending candles -> sortByTimestamp candles = candles.
Proof.
  intros Hasc. unfold sortByTimestamp.
  apply (StronglySorted_unique_strong byTimestamp).
  - intros x1 x2 Hx1 Hx2 H12 H21. rewrite merge_sort_Permutation in Hx1.
    apply (strictlyAscending_same_timestamp candles); [done | done | done |].
    unfold byTimestamp in *. lia.
  - apply StronglySorted_merge_sort; apply _.
  - by apply strictlyAscending_byTimestamp.
  - apply merge_sort_Permutation.
Qed.

Lemma strictlyAscending_snoc candles c :
  strictlyAscending candles ->
  (forall x, x ∈ candles -> timestamp x < timestamp c) ->
  strictlyAscending (candles ++ [c]).
Proof.
  intros Hasc Hlt. apply StronglySorted_app.
  split; [| split; [done | repeat constructor]].
  intros x1 x2 Hx1 Hx2. apply list_elem_of_singleton in Hx2 as ->. by apply Hlt.
Qed.

Lemma strictlyAscending_snoc_inv candles c :
  strictlyAscending (candles ++ [c]) ->
  strictlyAscending candles /\
  forall x, x ∈ candles -> timestamp x < timestamp c.
Proof.
  intros Hasc. apply StronglySorted_app in Hasc as (Hlt & Hl & _).
  split; [done |]. intros x Hx. apply Hlt; [done |].
  by apply list_elem_of_singleton.
Qed.

Lemma continuous_prefix l c : continuous (l ++ [c]) -> continuous l.
Proof.
  intros Hc i prev curr Hp Hn.
  apply (Hc i); by apply lookup_app_l_Some.
Qed.

Lemma continuous_last_pair l p c :
  continuous ((l ++ [p]) ++ [c]) -> open c = close p.
Proof.
  intros Hc. apply (Hc (length l)).
  - rewrite <- app_assoc. simpl. by apply list_lookup_middle.
  - rewrite lookup_app_r by (rewrite length_app; simpl; lia).
    rewrite length_app. simpl.
    replace (S (length l) - (length l + 1))%nat with 0%nat by lia. done.
Qed.

(** Processing a source in timestamp order only ever touches the last
    target candle. *)
Lemma deriveBuckets_in_order w source :
  0 < w -> StronglySorted byTimestamp source -> source <> [] ->
  strictlyAscending (deriveBuckets source w) /\
  (exists targets lastTarget lastSource,
     deriveBuckets source w = targets ++ [lastTarget] /\
     last source = Some lastSource /\
     timestamp lastTarget = roundedTimestamp (timestamp lastSource) w /\
     close lastTarget = close lastSource) /\
  (continuous source -> continuous (deriveBuckets source w)).
Proof.
  intros Hw. induction source as [| c source IH] using rev_ind;
    intros Hsorted Hne; [done |].
  rewrite deriveBuckets_snoc.
  destruct (snoc_cases source) as [-> | (source0 & p & Hsource)].
  { rewrite deriveStep_new_bucket by (intros x Hx; by apply elem_of_nil in Hx).
    simpl. split; [repeat constructor |].
    split; [| intros _; apply continuous_singleton].
    exists [], (seedCandle (roundedTimestamp (timestamp c) w) c), c. done. }
  apply StronglySorted_app in Hsorted as (Hbefore & Hsorted & _).
  destruct IH as (Hasc & (targets & lastTarget & lastSource & Hr & Hlast
                          & Hts & Hclose) & Hcont);
    [done | by rewrite Hsource; destruct source0 |].
  rewrite Hsource, last_snoc in Hlast. injection Hlast as <-.
  assert (timestamp p <= timestamp c) as Hpc.
  { apply (Hbefore p c); [| by apply list_elem_of_singleton].
    rewrite Hsource. apply elem_of_app. right. by apply list_elem_of_singleton. }
  pose proof (roundedTimestamp_mono _ _ w Hw Hpc) as Hmono.
  rewrite Hr in Hasc |- *.
  destruct (strictlyAscending_snoc_inv _ _ Hasc) as [Hasc' Hbelow].
  destruct (decide (timestamp lastTarget =
                    roundedTimestamp (timestamp c) w)) as [Hsame | Hother].
  - rewrite deriveStep_last_bucket;
      [| intros x Hx; specialize (Hbelow x Hx); lia | done].
    split; [by apply strictlyAscending_snoc |].
    split.
    + exists targets, (mergeCandle c lastTarget), c.
      split; [done |]. split; [apply last_snoc | done].
    + intros Hc. apply (continuous_last_open targets lastTarget); [| done].
      rewrite <- Hr. by apply Hcont, (continuous_prefix source c).
  - rewrite deriveStep_new_bucket.
    2:{ intros x Hx. apply elem_of_app in Hx as [Hx | Hx].
        - specialize (Hbelow x Hx). lia.
        - apply list_elem_of_singleton in Hx as ->. done. }
    split.
    { apply strictlyAscending_snoc; [done |].
      intros x Hx. simpl. apply elem_of_app in Hx as [Hx | Hx].
      - specialize (Hbelow x Hx). lia.
      - apply list_elem_of_singleton in Hx as ->. lia. }
    split.
    + exists (targets ++ [lastTarget]),
             (seedCandle (roundedTimestamp (timestamp c) w) c), c.
      split; [done |]. split; [apply last_snoc | done].
    + intros Hc. apply continuous_snoc.
      * rewrite <- Hr. by apply Hcont, (continuous_prefix source c).
      * simpl. rewrite Hclose. rewrite Hsource in Hc.
        by apply (continuous_last_pair source0 p c).
Qed.

(** X9: on a source in timestamp order the derivation only extends or
    updates the last target candle and the final sort reorders nothing;
    when the source is continuous as well, so is the derived list, and a
    repair pass has nothing to change in it. *)
Theorem generateLongerInterval_continuous sourceCandles targetIntervalMs :
  0 < targetIntervalMs ->
  StronglySorted byTimestamp sourceCandles ->
  generateLongerInterval sourceCandles targetIntervalMs =
    deriveBuckets sourceCandles targetIntervalMs /\
  (continuous sourceCandles ->
   continuous (generateLongerInterval sourceCandles targetIntervalMs) /\
   (fixCandles (generateLongerInterval sourceCandles targetIntervalMs)).2 =
     0%nat).
Proof.
  intros Hw Hsorted.
  destruct sourceCandles as [| c rest] eqn:Hs.
  { split; [done |]. intros _. split; [apply continuous_nil | done]. }
  rewrite <- Hs in *.
  destruct (deriveBuckets_in_order targetIntervalMs sourceCandles)
    as (Hasc & _ & Hcont); [done | done | by rewrite Hs |].
  assert (generateLongerInterval sourceCandles targetIntervalMs =
          deriveBuckets sourceCandles targetIntervalMs) as Heq.
  { rewrite Hs at 1. unfold generateLongerInterval. rewrite <- Hs.
    by apply sortByTimestamp_ascending. }
  split; [done |]. intros Hc. rewrite Heq.
  split; [by apply Hcont |]. apply fixCandles_zero_iff. by apply Hcont.
Qed.

Lemma generateLongerInterval_continuous_witness :
  let source :=
    [mkCandle 0 1 2 1 2; mkCandle 3600000 2 5 2 3; mkCandle 21600000 3 4 3 4] in
  continuous (generateLongerInterval source 21600000).
Proof.
  cbv zeta.
  destruct (generateLongerInterval_continuous
              [mkCandle 0 1 2 1 2; mkCandle 3600000 2 5 2 3;
               mkCandle 21600000 3 4 3 4] 21600000) as [_ Hc].
  - lia.
  - repeat constructor; unfold byTimestamp; simpl; lia.
  - apply Hc. apply fixCandles_zero_iff. reflexivity.
Defined.

Lemma seedCandle_self c : seedCandle (timestamp c) c = c.
Proof. by destruct c. Qed.

Lemma roundedTimestamp_idemp t w :
  w <> 0 ->
  roundedTimestamp (roundedTimestamp t w) w = roundedTimestamp t w.
Proof.
  intros Hw. unfold roundedTimestamp. by rewrite Z.div_mul.
Qed.

(** A list that already holds one candle per bucket, in ascending order,
    is derived to itself. *)
Lemma deriveBuckets_already_bucketed w candles :
  strictlyAscending candles ->
  (forall c, c ∈ candles -> roundedTimestamp (timestamp c) w = timestamp c) ->
  deriveBuckets candles w = candles.
Proof.
  induction candles as [| c candles IH] using rev_ind; intros Hasc Hown;
    [done |].
  destruct (strictlyAscending_snoc_inv _ _ Hasc) as [Hasc' Hbelow].
  rewrite deriveBuckets_snoc, IH; [| done |].
  - assert (roundedTimestamp (timestamp c) w = timestamp c) as Hc.
    { apply Hown, elem_of_app. right. by apply list_elem_of_singleton. }
    rewrite deriveStep_new_bucket.
    + by rewrite Hc, seedCandle_self.
    + intros x Hx. specialize (Hbelow x Hx). lia.
  - intros x Hx. apply Hown, elem_of_app. by left.
Qed.

(** X10: deriving an already derived list again for the same positive
    width returns it unchanged. *)
Theorem generateLongerInterval_idempotent sourceCandles targetIntervalMs :
  0 < targetIntervalMs ->
  generateLongerInterval
    (generateLongerInterval sourceCandles targetIntervalMs) targetIntervalMs =
  generateLongerInterval sourceCandles targetIntervalMs.
Proof.
  intros Hw.
  pose proof (generateLongerInterval_Permutation sourceCandles targetIntervalMs)
    as Hperm.
  destruct (derived_deriveBuckets targetIntervalMs sourceCandles)
    as (Hnodup & Hdesc & _).
  set (result := generateLongerInterval sourceCandles targetIntervalMs) in *.
  assert (strictlyAscending result) as Hasc.
  { apply sorted_NoDup_strict; [apply generateLongerInterval_sorted |].
    by rewrite Hperm. }
  assert (forall c, c ∈ result ->
            roundedTimestamp (timestamp c) targetIntervalMs = timestamp c)
    as Hown.
  { intros tc Htc. rewrite Hperm in Htc. specialize (Hdesc tc Htc).
    unfold bucketCandle in Hdesc.
    destruct (bucketMembers targetIntervalMs sourceCandles (timestamp tc))
      as [| first later] eqn:Hmembers; [discriminate |].
    assert (first ∈ bucketMembers targetIntervalMs sourceCandles (timestamp tc))
      as Hfirst by (rewrite Hmembers; apply elem_of_cons; by left).
    apply list_elem_of_filter in Hfirst as [<- _].
    apply roundedTimestamp_idemp. lia. }
  destruct result as [| c rest] eqn:Hresult; [done |].
  unfold generateLongerInterval at 1. rewrite <- Hresult in *.
  rewrite deriveBuckets_already_bucketed by done.
  by apply sortByTimestamp_ascending.
Qed.

Lemma generateLongerInterval_idempotent_witness :
  generateLongerInterval
    (generateLongerInterval
       [mkCandle 60000 1 2 0 5; mkCandle 0 3 4 1 7; mkCandle 3600000 7 8 6 6]
       3600000) 3600000 =
  [mkCandle 0 1 4 0 7; mkCandle 3600000 7 8 6 6].
Proof.
  rewrite generateLongerInterval_idempotent by lia. reflexivity.
Defined.

(** ** Coarser intervals from finer ones *)

Lemma continuous_generateLongerInterval source w :
  0 < w -> StronglySorted byTimestamp source -> continuous source ->
  continuous (generateLongerInterval source w).
Proof.
  intros Hw Hsorted Hc. destruct source as [| c rest] eqn:Hs;
    [apply continuous_nil |].
  rewrite <- Hs in *.
  destruct (deriveBuckets_in_order w source) as (Hasc & _ & Hcont);
    [done | done | by rewrite Hs |].
  rewrite Hs at 1. unfold generateLongerInterval. rewrite <- Hs.
  rewrite sortByTimestamp_ascending by done. by apply Hcont.
Qed.

Lemma generateLongerInterval_nonempty source w :
  source <> [] -> generateLongerInterval source w <> [].
Proof.
  intros Hne Hnil. destruct source as [| c rest]; [done |].
  destruct (derived_deriveBuckets w (c :: rest)) as (_ & _ & Hcover).
  destruct (Hcover c) as (tc & Htc & _); [apply elem_of_cons; by left |].
  rewrite <- (generateLongerInterval_Permutation (c :: rest) w), Hnil in Htc.
  by apply elem_of_nil in Htc.
Qed.

Lemma generateIntervalsFromExisting_1h poolData :
  ohlc poolData I_1h <> [] ->
  generateIntervalsFromExisting poolData =
  set_ohlc I_12h (generateLongerInterval (ohlc poolData I_1h) 43200000)
    (set_ohlc I_6h (generateLongerInterval (ohlc poolData I_1h) 21600000)
       poolData).
Proof.
  intros Hne. unfold generateIntervalsFromExisting.
  destruct (ohlc poolData I_1h) as [| h rest] eqn:H1; [done |].
  simpl. by rewrite H1.
Qed.

Lemma generateIntervalsFromExisting_5m poolData :
  ohlc poolData I_1h = [] -> ohlc poolData I_5m <> [] ->
  let hourly := generateLongerInterval (ohlc poolData I_5m) 3600000 in
  generateIntervalsFromExisting poolData =
  set_ohlc I_12h (generateLongerInterval hourly 43200000)
    (set_ohlc I_6h (generateLongerInterval hourly 21600000)
       (set_ohlc I_1h hourly poolData)).
Proof.
  intros H1 Hne. cbv zeta. unfold generateIntervalsFromExisting.
  destruct (ohlc poolData I_5m) as [| f rest] eqn:H5; [done |].
  rewrite H1. cbv zeta iota. rewrite H1, H5. reflexivity.
Qed.

Lemma generateIntervalsFromExisting_none poolData :
  ohlc poolData I_1h = [] -> ohlc poolData I_5m = [] ->
  generateIntervalsFromExisting poolData = poolData.
Proof.
  intros H1 H5. unfold generateIntervalsFromExisting.
  rewrite H1. cbv zeta iota. by rewrite H1, H5.
Qed.

Arguments generateLongerInterval : simpl never.

(** X11: [generateIntervalsFromExisting] rebuilds the 6h and 12h lists from
    the 1h list, which itself is rebuilt from the 5m list only when it is
    empty, and leaves every other interval alone; with no 1h and no 5m
    candles nothing changes.  When the list it starts from is in timestamp
    order and continuous, the rebuilt lists are continuous. *)
Theorem generateIntervalsFromExisting_rebuilds poolData :
  let result := generateIntervalsFromExisting poolData in
  (forall interval,
     interval <> I_1h -> interval <> I_6h -> interval <> I_12h ->
     ohlc result interval = ohlc poolData interval) /\
  (ohlc poolData I_1h <> [] -> ohlc result I_1h = ohlc poolData I_1h) /\
  (ohlc poolData I_1h = [] ->
   ohlc result I_1h = generateLongerInterval (ohlc poolData I_5m) 3600000) /\
  (ohlc poolData I_1h = [] -> ohlc poolData I_5m = [] ->
   forall interval, ohlc result interval = ohlc poolData interval) /\
  (ohlc poolData I_1h <> [] \/ ohlc poolData I_5m <> [] ->
   ohlc result I_6h = generateLongerInterval (ohlc result I_1h) 21600000 /\
   ohlc result I_12h = generateLongerInterval (ohlc result I_1h) 43200000) /\
  (ohlc poolData I_1h <> [] \/ ohlc poolData I_5m <> [] ->
   let source :=
     match ohlc poolData I_1h with
     | [] => ohlc poolData I_5m
     | _ => ohlc poolData I_1h
     end in
   StronglySorted byTimestamp source -> continuous source ->
   continuous (ohlc result I_1h) /\
   continuous (ohlc result I_6h) /\
   continuous (ohlc result I_12h)).
Proof.
  cbv zeta. destruct (ohlc poolData I_1h) as [| h rest] eqn:H1.
  - destruct (ohlc poolData I_5m) as [| f rest5] eqn:H5.
    + rewrite generateIntervalsFromExisting_none by done.
      rewrite ?H1, ?H5.
      split; [done |]. split; [done |]. split; [done |].
      split; [done |]. split; intros [Hne | Hne]; done.
    + rewrite generateIntervalsFromExisting_5m by (by rewrite ?H5).
      rewrite ?H5. simpl.
      split; [intros interval; by destruct interval |].
      split; [done |]. split; [done |]. split; [done |].
      split; [done |].
      intros _ Hsorted Hc.
      assert (continuous (generateLongerInterval (f :: rest5) 3600000)) as Hc1
        by (by apply continuous_generateLongerInterval).
      split; [done |].
      split; apply continuous_generateLongerInterval;
        done || apply generateLongerInterval_sorted.
  - rewrite generateIntervalsFromExisting_1h by (by rewrite H1).
    rewrite ?H1. simpl.
    split; [intros interval; by destruct interval |].
    split; [by rewrite H1 |]. split; [done |]. split; [done |].
    split; [by rewrite H1 |].
    intros _ Hsorted Hc. rewrite H1. split; [done |].
    split; by apply continuous_generateLongerInterval.
Qed.

(** ** Retention and the ingestion of a price *)

Lemma ohlc_cleanupOldData poolData now interval :
  ohlc (cleanupOldData poolData now) interval =
  match retentionMs interval with
  | Some age => keepSince (now - age) (ohlc poolData interval)
  | None => ohlc poolData interval
  end.
Proof. destruct interval; reflexivity. Qed.

Lemma retentionMs_covers interval age :
  retentionMs interval = Some age -> intervalMs interval <= age.
Proof. destruct interval; intros [= <-]; simpl; lia. Qed.

Lemma roundedTimestamp_gt t ms : 0 < ms -> t - ms < roundedTimestamp t ms.
Proof.
  intros Hms. unfold roundedTimestamp.
  pose proof (Z.mod_pos_bound t ms Hms).
  pose proof (Z.div_mod t ms). lia.
Qed.

(** After [updateOHLCData] the last candle of an interval closes at the
    sample's price and its window has not elapsed. *)
Lemma last_updateOHLCData poolData price t interval :
  exists lastCandle,
    last (ohlc (updateOHLCData poolData price t) interval) = Some lastCandle /\
    close lastCandle = price /\
    t - intervalMs interval < timestamp lastCandle.
Proof.
  rewrite ohlc_updateOHLCData, DATAPOINT_LIMITS_100.
  pose proof (intervalMs_pos interval) as Hms.
  pose proof (roundedTimestamp_gt t (intervalMs interval) Hms) as Hgt.
  destruct (snoc_cases (ohlc poolData interval)) as [-> | (l & lc & ->)].
  - rewrite foldSample_nil. eexists.
    split; [apply (last_limitCandles 100 []); lia | by split].
  - destruct (Z.le_gt_cases (timestamp lc + intervalMs interval) t)
      as [Hle | Hopen].
    + rewrite foldSample_open by done. eexists.
      split; [apply last_limitCandles; lia | by split].
    + rewrite foldSample_update by lia. eexists.
      split; [apply last_limitCandles; lia |]. split; [done |]. simpl. lia.
Qed.

Lemma last_keepSince cutoff candles lastCandle :
  last candles = Some lastCandle -> cutoff <= timestamp lastCandle ->
  last (keepSince cutoff candles) = Some lastCandle.
Proof.
  intros Hlast Hle. apply last_Some in Hlast as [l ->].
  unfold keepSince. rewrite filter_app, filter_cons_True by done.
  apply last_snoc.
Qed.

(** X12: after [updatePrice] has fetched a price, the pool's latest price
    and last item of history are that price at [now], no history item is
    older than 24 hours and one minute, and in every interval the list
    holds at most 100 candles, the last of which closes at the price and
    covers [now]: the age-based pruning never removes the live candle. *)
Theorem updatePoolData_latest poolData price now :
  let result := updatePoolData poolData price now in
  latestPrice result = Some price /\
  lastUpdated result = Some now /\
  last (history result) = Some (mkHistoryItem price now) /\
  (forall item, item ∈ history result -> now - 86460000 <= h_timestamp item) /\
  volume result = volume poolData /\
  forall interval,
    (length (ohlc result interval) <= 100)%nat /\
    exists lastCandle,
      last (ohlc result interval) = Some lastCandle /\
      close lastCandle = price /\
      now - intervalMs interval < timestamp lastCandle.
Proof.
  cbv zeta. split; [done |]. split; [done |].
  split.
  { cbn. rewrite filter_app, filter_cons_True by (simpl; lia).
    apply last_snoc. }
  split.
  { intros item Hitem. cbn in Hitem.
    by apply list_elem_of_filter in Hitem as [Hle _]. }
  split; [done |].
  intros interval. unfold updatePoolData. rewrite ohlc_cleanupOldData.
  set (updated := updateOHLCData (recordPrice price now poolData) price now).
  destruct (last_updateOHLCData (recordPrice price now poolData) price now
              interval) as (lastCandle & Hlast & Hclose & Hts).
  fold updated in Hlast.
  assert (length (ohlc updated interval) <= 100)%nat as Hlen.
  { unfold updated. rewrite ohlc_updateOHLCData, DATAPOINT_LIMITS_100.
    apply limitCandles_length. lia. }
  destruct (retentionMs interval) as [age |] eqn:Hage.
  - pose proof (retentionMs_covers interval age Hage).
    split.
    + pose proof (length_filter (fun c => now - age <= timestamp c)
                    (ohlc updated interval)). unfold keepSince. lia.
    + exists lastCandle. split; [| done].
      apply last_keepSince; [done | lia].
  - split; [done |]. by exists lastCandle.
Qed.

(** On a list in timestamp order the age-based pruning removes a prefix. *)
Lemma keepSince_drop cutoff candles :
  StronglySorted byTimestamp candles ->
  exists k, keepSince cutoff candles = drop k candles.
Proof.
  induction 1 as [| a l Hl [k IH] Hall]; [by exists 0%nat |].
  unfold keepSince in *. rewrite filter_cons.
  destruct (decide (cutoff <= timestamp a)) as [Hkeep | Hdrop].
  - exists 0%nat. simpl. f_equal.
    clear IH. induction l as [| b l IHl]; [done |].
    apply Forall_cons in Hall as [Hab Hall].
    apply StronglySorted_inv in Hl as [Hl' Hbl].
    unfold byTimestamp in Hab.
    rewrite filter_cons_True by lia. f_equal. by apply IHl.
  - exists (S k). by rewrite IH.
Qed.

Lemma bucketed_byTimestamp ms candles :
  0 <= ms -> bucketed ms candles -> StronglySorted byTimestamp candles.
Proof.
  intros Hms [_ Hs]. induction Hs as [| a l Hl IH Hall]; constructor;
    [done |].
  eapply Forall_impl; [exact Hall |]. unfold byTimestamp. intros x Hx. lia.
Qed.

(** X13: a successful [updatePrice] keeps the candle lists in order: when
    every interval's list is on its bucket boundaries in ascending order
    and continuous, it still is after the update and the pruning. *)
Theorem updatePoolData_keeps_order poolData price now :
  (forall interval,
     bucketed (intervalMs interval) (ohlc poolData interval) /\
     continuous (ohlc poolData interval)) ->
  forall interval,
    bucketed (intervalMs interval)
      (ohlc (updatePoolData poolData price now) interval) /\
    continuous (ohlc (updatePoolData poolData price now) interval).
Proof.
  intros Hinv interval. unfold updatePoolData. rewrite ohlc_cleanupOldData.
  set (updated := updateOHLCData (recordPrice price now poolData) price now).
  destruct (Hinv interval) as [Hb Hc].
  assert (bucketed (intervalMs interval) (ohlc updated interval)) as Hb'
    by (by apply bucketed_updateOHLCData).
  assert (continuous (ohlc updated interval)) as Hc'
    by (by apply continuous_updateOHLCData).
  destruct (retentionMs interval) as [age |]; [| done].
  destruct (keepSince_drop (now - age) (ohlc updated interval)) as [k ->].
  { apply (bucketed_byTimestamp (intervalMs interval)); [| done].
    pose proof (intervalMs_pos interval). lia. }
  split; [by apply bucketed_drop | by apply continuous_drop].
Qed.

Lemma updatePoolData_keeps_order_witness :
  let poolData :=
    mkPoolData (Some 3) [] (Some 0)
      (fun interval =>
         [mkCandle 0 1 2 1 2;
          mkCandle (intervalMs interval) 2 3 2 3])
      (mkVolume 0 0 0 0 0) in
  let updated := updatePoolData poolData 10 691200000 in
  ohlc updated I_1h = [mkCandle 691200000 3 10 10 10] /\
  ohlc updated I_24h =
    [mkCandle 0 1 2 1 2; mkCandle 86400000 2 3 2 3;
     mkCandle 691200000 3 10 10 10] /\
  (bucketed (intervalMs I_1h) (ohlc updated I_1h) /\
   continuous (ohlc updated I_1h)) /\
  (bucketed (intervalMs I_24h) (ohlc updated I_24h) /\
   continuous (ohlc updated I_24h)).
Proof.
  cbv zeta.
  set (poolData :=
    mkPoolData (Some 3) [] (Some 0)
      (fun interval =>
         [mkCandle 0 1 2 1 2;
          mkCandle (intervalMs interval) 2 3 2 3])
      (mkVolume 0 0 0 0 0)).
  assert (Hordered : forall interval,
            bucketed (intervalMs interval) (ohlc poolData interval) /\
            continuous (ohlc poolData interval)).
  { intros interval. split.
    - split.
      + repeat constructor; destruct interval; reflexivity.
      + repeat constructor; destruct interval; simpl; lia.
    - intros [| [| i]] prevCandle currCandle; simpl; [| done | done].
      by intros [= <-] [= <-]. }
  split; [reflexivity |]. split; [reflexivity |].
  split; apply (updatePoolData_keeps_order poolData 10 691200000 Hordered).
Defined.

(** ** The registry *)

Lemma lowerAscii_idemp a : lowerAscii (lowerAscii a) = lowerAscii a.
Proof. destruct a as [[] [] [] [] [] [] [] []]; reflexivity. Qed.

Lemma toLowerCase_idemp s : toLowerCase (toLowerCase s) = toLowerCase s.
Proof.
  induction s as [| a s IH]; [done |]. simpl. by rewrite lowerAscii_idemp, IH.
Qed.

(** X14: [getPoolData] creates a pool once and finds it under any
    capitalisation of its address: a second call with an address that
    differs at most in case returns the data of the first call and leaves
    the registry as the first call left it; a registered pool is returned
    without any change to the registry. *)
Theorem getPoolData_case_insensitive poolAddress poolAddress' now now' pools :
  toLowerCase poolAddress = toLowerCase poolAddress' ->
  let first := getPoolData poolAddress now pools in
  getPoolData poolAddress' now' first.2 = first /\
  first.2 !! toLowerCase poolAddress' = Some first.1 /\
  (forall poolData,
     pools !! toLowerCase poolAddress = Some poolData ->
     first = (poolData, pools)) /\
  (forall key, key <> toLowerCase poolAddress -> first.2 !! key = pools !! key).
Proof.
  intros Hcase. cbv zeta. unfold getPoolData. rewrite <- Hcase.
  destruct (pools !! toLowerCase poolAddress) as [poolData |] eqn:Hlookup;
    simpl.
  - rewrite Hlookup. split; [done |]. split; [done |].
    split; [by intros ? [= ->] | done].
  - rewrite lookup_insert_eq. split; [done |]. split; [done |].
    split; [done |]. intros key Hne. by rewrite lookup_insert_ne.
Qed.

Lemma getPoolData_case_insensitive_witness :
  getPoolData "0xabcdef" 7 (getPoolData "0xABcDeF" 5 ∅).2 =
  getPoolData "0xABcDeF" 5 ∅.
Proof.
  by apply (getPoolData_case_insensitive "0xABcDeF" "0xabcdef" 5 7 ∅).
Defined.

Lemma lowercaseKeys_insert pools poolAddress poolData :
  lowercaseKeys pools ->
  lowercaseKeys (<[toLowerCase poolAddress := poolData]> pools).
Proof.
  intros Hkeys key Hsome. apply lookup_insert_is_Some in Hsome as [<- | [_ H]].
  - apply toLowerCase_idemp.
  - by apply Hkeys.
Qed.

Lemma lowercaseKeys_fmap (f : PoolData -> PoolData) pools :
  lowercaseKeys pools -> lowercaseKeys (f <$> pools).
Proof.
  intros Hkeys key Hsome. rewrite lookup_fmap in Hsome.
  apply fmap_is_Some in Hsome. by apply Hkeys.
Qed.

Lemma lowercaseKeys_getPoolData poolAddress now pools :
  lowercaseKeys pools -> lowercaseKeys (getPoolData poolAddress now pools).2.
Proof.
  intros Hkeys. unfold getPoolData.
  destruct (pools !! toLowerCase poolAddress); simpl; [done |].
  by apply lowercaseKeys_insert.
Qed.

Lemma lowercaseKeys_loadPools entries : lowercaseKeys (loadPools entries).
Proof.
  unfold loadPools.
  assert (forall pools, lowercaseKeys pools ->
            lowercaseKeys
              (fold_left (fun pools '(poolAddress, poolData) =>
                            <[toLowerCase poolAddress := poolData]> pools)
                 entries pools)) as Hfold.
  { induction entries as [| [key pd] entries IH]; intros pools Hkeys;
      [done |].
    simpl. by apply IH, lowercaseKeys_insert. }
  apply Hfold. intros key Hsome. rewrite lookup_empty in Hsome.
  by destruct Hsome.
Qed.

(** X15: the keys of the registry are always lower-case addresses: this
    holds for whatever [initializeDataFile] loads, and [getPoolData], the
    processing of a swap, [updatePrice] and [saveDataToFile] keep it. *)
Theorem registry_keys_lowercase st poolAddress amount price now file :
  lowercaseKeys (poolsData (initializeDataFile file now).1) /\
  (lowercaseKeys (poolsData st) ->
   lowercaseKeys (getPoolData poolAddress now (poolsData st)).2 /\
   lowercaseKeys (poolsData (recordSwap poolAddress amount now st)) /\
   lowercaseKeys (poolsData (updatePrice poolAddress price now st).1) /\
   lowercaseKeys (poolsData (saveDataToFile st now).1)).
Proof.
  assert (lowercaseKeys (∅ : gmap string PoolData)) as Hempty.
  { intros key Hsome. rewrite lookup_empty in Hsome. by destruct Hsome. }
  split.
  - destruct file as [| | data]; simpl; [done | done |].
    destruct (doc_pools data); simpl; [| done].
    apply lowercaseKeys_fmap, lowercaseKeys_loadPools.
  - intros Hkeys.
    pose proof (lowercaseKeys_getPoolData poolAddress now _ Hkeys) as Hget.
    split; [done |]. split; [| split].
    + unfold recordSwap.
      destruct (getPoolData poolAddress now (poolsData st)) as [pd pools].
      simpl. by apply lowercaseKeys_insert.
    + unfold updatePrice.
      destruct (getPoolData poolAddress now (poolsData st)) as [pd pools].
      simpl in Hget. destruct price as [p |]; [| done].
      destruct (Z.rem now (60 * 1000) <? 1000); simpl.
      * by apply lowercaseKeys_fmap, lowercaseKeys_insert.
      * by apply lowercaseKeys_insert.
    + simpl. by apply lowercaseKeys_fmap.
Qed.

(** X16: when the price could not be fetched, [updatePrice] leaves every
    registered pool and the volume history as they are and writes nothing;
    its only effect is that the requested pool is registered with fresh
    data if it was unknown. *)
Theorem updatePrice_failed_fetch poolAddress now st :
  let result := updatePrice poolAddress None now st in
  result.2 = None /\
  volumeHistory result.1 = volumeHistory st /\
  (forall key poolData,
     poolsData st !! key = Some poolData ->
     poolsData result.1 !! key = Some poolData) /\
  (forall key,
     poolsData st !! key = None ->
     poolsData result.1 !! key =
     if decide (key = toLowerCase poolAddress) then Some (createPoolData now)
     else None).
Proof.
  cbv zeta. unfold updatePrice, getPoolData.
  destruct (poolsData st !! toLowerCase poolAddress) as [pd |] eqn:Hlookup;
    simpl.
  - split; [done |]. split; [done |]. split; [done |].
    intros key Hnone. destruct (decide _) as [-> | _]; [congruence | done].
  - split; [done |]. split; [done |]. split.
    + intros key poolData Hsome. rewrite lookup_insert_ne; [done | congruence].
    + intros key Hnone. destruct (decide _) as [-> | Hne].
      * by rewrite lookup_insert_eq.
      * by rewrite lookup_insert_ne.
Qed.

(** ** Snapshots *)

Lemma fields_validateAndFixOHLCContinuity poolData :
  latestPrice (validateAndFixOHLCContinuity poolData).1 = latestPrice poolData /\
  history (validateAndFixOHLCContinuity poolData).1 = history poolData /\
  lastUpdated (validateAndFixOHLCContinuity poolData).1 =
    lastUpdated poolData /\
  volume (validateAndFixOHLCContinuity poolData).1 = volume poolData.
Proof. done. Qed.

Lemma repaired_continuous poolData interval :
  continuous (ohlc (validateAndFixOHLCContinuity poolData).1 interval).
Proof.
  rewrite ohlc_validateAndFixOHLCContinuity. apply fixCandles_continuous.
Qed.

Lemma repaired_same poolData :
  (forall interval, continuous (ohlc poolData interval)) ->
  samePoolData (validateAndFixOHLCContinuity poolData).1 poolData.
Proof.
  intros Hc. repeat split. intros interval.
  rewrite ohlc_validateAndFixOHLCContinuity.
  apply fixCandles_unchanged, fixCandles_zero_iff, Hc.
Qed.

Lemma slice_neg_suffix {A} n (l : list A) :
  (0 < n)%nat ->
  (length (slice_neg n l) <= n)%nat /\
  exists older, l = older ++ slice_neg n l.
Proof.
  intros Hn. rewrite slice_neg_drop by done. split.
  - rewrite length_drop. lia.
  - exists (take (length l - n) l). by rewrite take_drop.
Qed.

(** X17: [saveDataToFile] repairs every pool in memory and writes the
    pools as they then are: the document has the same pools as the state
    afterwards, each one continuous in every interval and different from
    the pool before only in repaired opens (a pool that was continuous is
    saved as it was); the volume history in memory is untouched and the
    document carries its last 1000 entries at most. *)
Theorem saveDataToFile_document st now :
  let result := saveDataToFile st now in
  snap_pools result.2 = poolsData result.1 /\
  (forall key,
     snap_pools result.2 !! key =
     (fun poolData => (validateAndFixOHLCContinuity poolData).1)
       <$> poolsData st !! key) /\
  (forall key poolData,
     snap_pools result.2 !! key = Some poolData ->
     forall interval, continuous (ohlc poolData interval)) /\
  (forall key poolData,
     poolsData st !! key = Some poolData ->
     (forall interval, continuous (ohlc poolData interval)) ->
     exists saved,
       snap_pools result.2 !! key = Some saved /\ samePoolData saved poolData) /\
  volumeHistory result.1 = volumeHistory st /\
  (length (snap_volumeHistory result.2) <= 1000)%nat /\
  (exists older,
     volumeHistory st = older ++ snap_volumeHistory result.2) /\
  snap_version result.2 = 2.
Proof.
  cbv zeta. simpl.
  split; [done |]. split; [intros key; apply lookup_fmap |].
  split.
  { intros key poolData Hsaved interval. rewrite lookup_fmap in Hsaved.
    apply fmap_Some in Hsaved as (pd & _ & ->). apply repaired_continuous. }
  split.
  { intros key poolData Hlookup Hc. eexists.
    rewrite lookup_fmap, Hlookup. split; [done |]. by apply repaired_same. }
  split; [done |].
  destruct (slice_neg_suffix 1000 (volumeHistory st)) as [Hlen Hsuffix];
    [lia |].
  done.
Qed.

(** The registry [loadPools] builds from the entries of a saved object. *)
Lemma loadPools_lookup pools entries :
  lowercaseKeys pools -> entriesOf pools entries ->
  forall key, loadPools entries !! key = pools !! key.
Proof.
  intros Hkeys [Hnodup Hentries] key. unfold loadPools.
  assert (forall (acc : gmap string PoolData) value,
            (fold_left (fun pools '(poolAddress, poolData) =>
                          <[toLowerCase poolAddress := poolData]> pools)
               entries acc) !! key = Some value <->
            (key, value) ∈ entries \/
            ((key ∉ entries.*1) /\ acc !! key = Some value)) as Hfold.
  { assert (forall k v, (k, v) ∈ entries -> toLowerCase k = k) as Hlower.
    { intros k v Hin. apply Hkeys. apply Hentries in Hin. by rewrite Hin. }
    clear Hentries.
    induction entries as [| [k v] entries IH]; intros acc value.
    - simpl. split.
      + intros Hacc. right. split; [apply not_elem_of_nil | done].
      + intros [Hin | [_ Hacc]]; [by apply elem_of_nil in Hin | done].
    - simpl in Hnodup. apply NoDup_cons in Hnodup as [Hk Hnodup].
      simpl. rewrite IH; [| done |].
      2:{ intros k' v' Hin. apply (Hlower k' v'). apply elem_of_cons. by right. }
      rewrite (Hlower k v) by (apply elem_of_cons; by left).
      split.
      + intros [Hin | [Hnotin Hacc]].
        * left. apply elem_of_cons. by right.
        * apply lookup_insert_Some in Hacc as [[<- <-] | [Hne Hacc]].
          -- left. apply elem_of_cons. by left.
          -- right. split; [| done].
             intros Hin. apply elem_of_cons in Hin as [Heq | Hin]; done.
      + intros [Hin | [Hnotin Hacc]].
        * apply elem_of_cons in Hin as [[= -> ->] | Hin]; [| by left].
          right. split; [done |]. by rewrite lookup_insert_eq.
        * right. assert (k <> key) as Hne.
          { intros ->. apply Hnotin. apply elem_of_cons. by left. }
          split.
          -- intros Hin. apply Hnotin. apply elem_of_cons. by right.
          -- by rewrite lookup_insert_ne. }
  apply option_eq. intros value. rewrite Hfold, Hentries.
  split; [intros [H | [_ H]]; [done | by rewrite lookup_empty in H] | by left].
Qed.

(** X18: loading a document that was written by [saveDataToFile] restores
    the registry: every saved pool is back under its key with the same
    content, no other key is registered, the repair pass of the load finds
    nothing to repair, and the volume history is the saved one. *)
Theorem save_load_round_trip st now now' entries :
  lowercaseKeys (poolsData st) ->
  let document := (saveDataToFile st now).2 in
  entriesOf (snap_pools document) entries ->
  let loaded :=
    (initializeDataFile
       (Parsed (mkLoadedDocument (Some entries)
                  (Some (snap_volumeHistory document)))) now').1 in
  (forall key,
     option_Forall2 samePoolData
       (poolsData loaded !! key) (snap_pools document !! key)) /\
  (forall key poolData,
     snap_pools document !! key = Some poolData ->
     (validateAndFixOHLCContinuity poolData).2 = 0%nat) /\
  volumeHistory loaded = snap_volumeHistory document.
Proof.
  intros Hkeys. cbv zeta. intros Hentries.
  unfold initializeDataFile.
  cbn [doc_pools doc_volumeHistory poolsData volumeHistory fst snd default
       from_option].
  set (saved := snap_pools (saveDataToFile st now).2) in *.
  assert (forall key poolData,
            saved !! key = Some poolData ->
            forall interval, continuous (ohlc poolData interval)) as Hsaved.
  { intros key poolData Hlookup interval. unfold saved in Hlookup.
    simpl in Hlookup. rewrite lookup_fmap in Hlookup.
    apply fmap_Some in Hlookup as (pd & _ & ->). apply repaired_continuous. }
  assert (lowercaseKeys saved) as Hsavedkeys
    by (by apply lowercaseKeys_fmap).
  split; [| split; [| done]].
  - intros key. rewrite lookup_fmap.
    rewrite (loadPools_lookup saved entries Hsavedkeys Hentries).
    destruct (saved !! key) as [poolData |] eqn:Hlookup; constructor.
    apply repaired_same. by apply (Hsaved key).
  - intros key poolData Hlookup. apply repair_count_zero.
    by apply (Hsaved key).
Qed.

Lemma save_load_round_trip_witness :
  let st := mkService {[ "0xaa" := createPoolData 0 ]} [mkVolumeEntry 5 1] in
  let document := (saveDataToFile st 5).2 in
  let entries :=
    [("0xaa", (validateAndFixOHLCContinuity (createPoolData 0)).1)] in
  let loaded :=
    (initializeDataFile
       (Parsed (mkLoadedDocument (Some entries)
                  (Some (snap_volumeHistory document)))) 9).1 in
  option_Forall2 samePoolData
    (poolsData loaded !! "0xaa") (snap_pools document !! "0xaa") /\
  volumeHistory loaded = [mkVolumeEntry 5 1].
Proof.
  cbv zeta.
  destruct (save_load_round_trip
              (mkService {[ "0xaa" := createPoolData 0 ]} [mkVolumeEntry 5 1])
              5 9
              [("0xaa", (validateAndFixOHLCContinuity (createPoolData 0)).1)])
    as (Hpools & _ & Hhistory).
  - intros key Hsome. simpl in Hsome.
    apply lookup_singleton_is_Some in Hsome as <-. reflexivity.
  - split.
    + simpl. apply NoDup_singleton.
    + intros key poolData. simpl snap_pools.
      rewrite map_fmap_singleton, lookup_singleton_Some, list_elem_of_singleton.
      split; [intros [= -> ->] | intros [<- <-]]; done.
  - split; [apply Hpools | exact Hhistory].
Defined.

(** ** Address validation *)

Lemma isHexDigit_lowerAscii a : isHexDigit (lowerAscii a) = isHexDigit a.
Proof. destruct a as [[] [] [] [] [] [] [] []]; reflexivity. Qed.

Lemma lowerAscii_hex a : isHexDigit a = true -> isHexDigit (lowerAscii a) = true.
Proof. by rewrite isHexDigit_lowerAscii. Qed.







(** ** Nesting of the volume windows *)

Lemma amountsSince_nonneg since log :
  Forall (fun v => 0 <= ve_volume v) log -> 0 <= amountsSince since log.
Proof.
  induction 1 as [| v log Hv Hlog IH]; simpl; [done |].
  destruct (decide _); lia.
Qed.

Lemma amountsSince_antitone later earlier log :
  Forall (fun v => 0 <= ve_volume v) log -> earlier <= later ->
  amountsSince later log <= amountsSince earlier log.
Proof.
  intros Hlog Hle. induction Hlog as [| v log Hv Hlog IH]; simpl; [done |].
  destruct (decide (later <= ve_timestamp v)),
           (decide (earlier <= ve_timestamp v)); lia.
Qed.

(** X20: amounts are never negative ([calculateSwapVolume] takes absolute
    values); on a log of such amounts [updateVolume] leaves the three
    window sums nested, [0 <= 24h <= 7d <= 30d]. *)
Theorem updateVolume_windows_nested poolData volumeInUSD now log :
  Forall (fun v => 0 <= ve_volume v) log -> 0 <= volumeInUSD ->
  let vol := volume (updateVolume poolData volumeInUSD now log).1 in
  0 <= vol24h vol /\ vol24h vol <= vol7d vol /\ vol7d vol <= vol30d vol.
Proof.
  intros Hlog Hamount. cbv zeta.
  destruct (updateVolume_recomputes poolData volumeInUSD now log)
    as (_ & -> & -> & -> & _).
  assert (Forall (fun v => 0 <= ve_volume v)
            (log ++ [mkVolumeEntry volumeInUSD now])) as Hlogged.
  { apply Forall_app. split; [done |]. by apply Forall_singleton. }
  assert (monthMs = 2592000000 /\ weekMs = 604800000 /\ dayMs = 86400000)
    as (Hmonth & Hweek & Hday) by done.
  split; [by apply amountsSince_nonneg |].
  split; apply amountsSince_antitone; done || lia.
Qed.

Lemma updateVolume_windows_nested_witness :
  let vol :=
    volume (updateVolume (createPoolData 0) 5 2600000000
              [mkVolumeEntry 4 0; mkVolumeEntry 6 2000000000]).1 in
  0 <= vol24h vol /\ vol24h vol <= vol7d vol /\ vol7d vol <= vol30d vol.
Proof.
  apply (updateVolume_windows_nested (createPoolData 0) 5 2600000000
           [mkVolumeEntry 4 0; mkVolumeEntry 6 2000000000]).
  - repeat constructor; simpl; lia.
  - lia.
Defined.

(** ** Sampled raw prices *)

Lemma lookups_sublist {A} (w : list A) (indices : list nat) (k : nat) :
  StronglySorted lt indices ->
  Forall (fun i => (k <= i < length w)%nat) indices ->
  exists points,
    (fun i => w !! i) <$> indices = Some <$> points /\
    points `sublist_of` drop k w.
Proof.
  revert k. induction indices as [|i indices IH]; intros k Hs Hb.
  - exists []. split; [done|]. apply sublist_nil_l.
  - apply StronglySorted_inv in Hs as [Hs Hlt].
    apply Forall_cons in Hb as [Hi Hb].
    destruct (IH (S i) Hs) as (points & Heq & Hsub).
    { rewrite Forall_forall in *. intros j Hj.
      specialize (Hlt j Hj). specialize (Hb j Hj). lia. }
    destruct (lookup_lt_is_Some_2 w i) as [x Hx]; [lia|].
    exists (x :: points). split.
    + rewrite fmap_cons, Heq, Hx. done.
    + rewrite <- (take_drop (i - k) (drop k w)), drop_drop.
      replace (k + (i - k))%nat with i by lia.
      apply sublist_inserts_l.
      rewrite (drop_S _ _ _ Hx). by apply sublist_skip.
Qed.

Lemma multiples_sorted (step : nat) (a n : nat) :
  (0 < step)%nat ->
  StronglySorted lt ((fun i => i * step)%nat <$> seq a n).
Proof.
  intros Hstep. revert a. induction n as [|n IH]; intros a; simpl.
  - constructor.
  - constructor; [apply IH|].
    rewrite Forall_fmap, Forall_forall. intros j Hj.
    apply elem_of_seq in Hj. simpl. nia.
Qed.

Lemma sampleEvenly_points (limit : nat) (w : list HistoryItem) :
  (2 <= limit < length w)%nat ->
  exists points,
    sampleEvenly limit w = Some <$> points /\
    length points = limit /\
    points `sublist_of` w /\
    head points = head w /\
    last points = last w.
Proof.
  intros Hl. unfold sampleEvenly.
  set (step := (length w / limit)%nat).
  assert (Hstep : (0 < step)%nat).
  { apply Nat.div_str_pos. lia. }
  assert (Hmul : (limit * step <= length w)%nat).
  { apply Nat.Div0.mul_div_le. }
  set (indices := ((fun i => i * step)%nat <$> seq 0 (limit - 1))
                  ++ [(length w - 1)%nat]).
  assert (Hidx : ((fun i => w !! (i * step)%nat) <$> seq 0 (limit - 1))
                 ++ [w !! (length w - 1)%nat]
                 = (fun i => w !! i) <$> indices).
  { unfold indices. rewrite fmap_app, <- list_fmap_compose. done. }
  rewrite Hidx.
  destruct (lookups_sublist w indices 0) as (points & Heq & Hsub).
  - unfold indices. apply StronglySorted_app_2.
    + intros x1 x2 Hx1 Hx2.
      apply list_elem_of_fmap in Hx1 as (i & -> & Hi).
      apply elem_of_seq in Hi. apply list_elem_of_singleton in Hx2 as ->.
      nia.
    + by apply multiples_sorted.
    + repeat constructor.
  - unfold indices. rewrite Forall_app, Forall_singleton, Forall_fmap.
    split; [|lia]. rewrite Forall_forall. intros i Hi.
    apply elem_of_seq in Hi. simpl. nia.
  - rewrite drop_0 in Hsub. exists points. split; [done|].
    assert (Hlen : length points = limit).
    { apply (f_equal length) in Heq. rewrite !length_fmap in Heq.
      unfold indices in Heq. rewrite length_app, length_fmap, length_seq in Heq.
      simpl in Heq. lia. }
    split; [done|]. split; [done|]. split.
    + destruct points as [|p points]; [simpl in Hlen; lia|].
      unfold indices in Heq.
      destruct limit as [|[|limit]]; [lia|lia|].
      simpl in Heq. injection Heq as Hp _.
      destruct w; [simpl in Hl; lia|]. simpl in *. congruence.
    + apply (f_equal last) in Heq.
      unfold indices in Heq. rewrite fmap_app in Heq. simpl in Heq.
      rewrite last_snoc, fmap_last in Heq.
      rewrite (last_lookup w). replace (pred (length w)) with (length w - 1)%nat by lia.
      destruct (last points); simpl in Heq; congruence.
Qed.

Lemma priceWindow_sublist poolData minutes now :
  priceWindow poolData minutes now `sublist_of` history poolData.
Proof.
  unfold priceWindow.
  destruct (filter _ (history poolData)) eqn:Hf.
  - destruct (10080 <=? minutes); [done|apply sublist_nil_l].
  - rewrite <- Hf. apply sublist_filter.
Qed.

Lemma getIntervalPrices_limit intervalKey :
  match intervalKey with
  | Some key =>
      if (DATAPOINT_LIMITS key =? 0)%nat then 100%nat else DATAPOINT_LIMITS key
  | None => 100%nat
  end = 100%nat.
Proof. destruct intervalKey as [[]|]; reflexivity. Qed.

(** The entries [getIntervalPrices] answers with are defined, at most 100
    and taken in order from the history. *)
Lemma getIntervalPrices_defined poolData minutes intervalKey now :
  exists points,
    getIntervalPrices poolData minutes intervalKey now = Some <$> points /\
    (length points <= 100)%nat /\
    points `sublist_of` history poolData.
Proof.
  unfold getIntervalPrices. rewrite getIntervalPrices_limit.
  pose proof (priceWindow_sublist poolData minutes now) as Hwindow.
  destruct (100 <? length (priceWindow poolData minutes now))%nat eqn:Hlt.
  - apply Nat.ltb_lt in Hlt.
    destruct (sampleEvenly_points 100 (priceWindow poolData minutes now))
      as (points & ? & ? & ? & _); [lia|].
    exists points. split; [done|]. split; [lia|]. by etrans.
  - apply Nat.ltb_ge in Hlt. by eexists.
Qed.

(** X21: [getIntervalPrices] answers with defined entries only: all of
    the window when it has at most 100 entries, else exactly 100 of them,
    picked in order (a sublist of the window), the first one the oldest and
    the last one the newest of the window. *)
Theorem getIntervalPrices_sample poolData minutes intervalKey now :
  let window := priceWindow poolData minutes now in
  exists points,
    getIntervalPrices poolData minutes intervalKey now = Some <$> points /\
    length points = Nat.min (length window) 100 /\
    points `sublist_of` window /\
    head points = head window /\
    last points = last window.
Proof.
  intros window. unfold getIntervalPrices. fold window.
  rewrite getIntervalPrices_limit.
  destruct (100 <? length window)%nat eqn:Hlt.
  - apply Nat.ltb_lt in Hlt.
    destruct (sampleEvenly_points 100 window) as (points & ? & ? & ? & ? & ?);
      [lia|].
    exists points. repeat split; try done. lia.
  - apply Nat.ltb_ge in Hlt. exists window. repeat split; try done. lia.
Qed.

(** ** The candle routes *)

Lemma filterOHLCByTimeRange_unbounded ohlcData fromTimestamp toTimestamp :
  truthy fromTimestamp || truthy toTimestamp = false ->
  filterOHLCByTimeRange ohlcData fromTimestamp toTimestamp = ohlcData.
Proof.
  intros Hb. apply orb_false_iff in Hb as [Hf Ht].
  destruct ohlcData as [|c rest]; [done|].
  unfold filterOHLCByTimeRange.
  set (l := c :: rest). clearbody l.
  induction l as [|x l IH]; [done|].
  assert (Hx : inTimeRange fromTimestamp toTimestamp x = true).
  { unfold inTimeRange. by rewrite Hf, Ht. }
  rewrite filter_cons, Hx. simpl. by rewrite IH.
Qed.

Lemma filterOHLCByTimeRange_choice ohlcData fromTimestamp toTimestamp :
  (if truthy fromTimestamp || truthy toTimestamp
   then filterOHLCByTimeRange ohlcData fromTimestamp toTimestamp
   else ohlcData) =
  filterOHLCByTimeRange ohlcData fromTimestamp toTimestamp.
Proof.
  destruct (truthy fromTimestamp || truthy toTimestamp) eqn:Hb; [done|].
  by rewrite filterOHLCByTimeRange_unbounded.
Qed.

Lemma filterOHLCByTimeRange_inverted ohlcData f t :
  f <> 0 -> t <> 0 -> t < f ->
  filterOHLCByTimeRange ohlcData (Some f) (Some t) = [].
Proof.
  intros Hf Ht Hlt. rewrite filterOHLCByTimeRange_inRange by done.
  unfold candlesInRange. induction ohlcData as [|c rest IH]; [done|].
  rewrite filter_cons. destruct (decide _); [lia|done].
Qed.

Lemma filterOHLCByTimeRange_sublist ohlcData f t :
  filterOHLCByTimeRange ohlcData f t `sublist_of` ohlcData.
Proof.
  destruct ohlcData; [done|]. unfold filterOHLCByTimeRange.
  apply sublist_filter.
Qed.

Lemma mostRecent_nil n l : mostRecent n l = [] -> (0 < n)%nat -> l = [].
Proof.
  unfold mostRecent. intros H Hn. apply (f_equal length) in H.
  rewrite length_drop in H. simpl in H. destruct l; [done|]. simpl in H. lia.
Qed.

Lemma ohlcByInterval_reply poolData token intervalKey f t :
  mapInterval token = Some intervalKey ->
  f <> NotANumber -> t <> NotANumber ->
  ohlcByInterval poolData token f t =
  let limitedData :=
    mostRecent 100
      (filterOHLCByTimeRange (ohlc poolData intervalKey) (parsed f)
         (parsed t)) in
  match limitedData with
  | [] => Ohlc404 intervalKey (parsed f) (parsed t)
  | _ => Ohlc200 intervalKey (parsed f) (parsed t) (length limitedData)
           limitedData (lastUpdated poolData)
  end.
Proof.
  intros Hmap Hf Ht. unfold ohlcByInterval. rewrite Hmap.
  destruct f, t; try done;
    cbv zeta; rewrite filterOHLCByTimeRange_choice,
      limitDatapoints_mostRecent; done.
Qed.

Lemma priceQuery_reply poolData token intervalKey f t :
  mapInterval token = Some intervalKey ->
  f <> NotANumber -> t <> NotANumber ->
  priceQuery poolData (Some token) f t =
  if truthy (parsed f) && truthy (parsed t) && gtTimestamp (parsed f) (parsed t)
  then Status400 "from_timestamp cannot be greater than to_timestamp"
  else
    let limitedData :=
      mostRecent 100
        (filterOHLCByTimeRange (ohlc poolData intervalKey) (parsed f)
           (parsed t)) in
    Status200 intervalKey (parsed f) (parsed t) (length limitedData)
      limitedData (lastUpdated poolData).
Proof.
  intros Hmap Hf Ht. unfold priceQuery.
  destruct (decide (token = "")) as [->|]; [done|]. rewrite Hmap.
  destruct f, t; try done; cbv zeta; by rewrite limitDatapoints_mostRecent.
Qed.

Lemma priceByInterval_candles poolData token intervalKey f t now :
  mapInterval token = Some intervalKey ->
  f <> NotANumber -> t <> NotANumber ->
  ohlc poolData intervalKey <> [] ->
  priceByInterval poolData token f t now =
  let limitedData :=
    mostRecent 100
      (filterOHLCByTimeRange (ohlc poolData intervalKey) (parsed f)
         (parsed t)) in
  LegacyCandles intervalKey (parsed f) (parsed t) (length limitedData)
    limitedData (lastUpdated poolData).
Proof.
  intros Hmap Hf Ht Hne. unfold priceByInterval. rewrite Hmap.
  destruct (ohlc poolData intervalKey) as [|c rest] eqn:Hl; [done|].
  destruct f, t; try done;
    cbv zeta; rewrite filterOHLCByTimeRange_choice,
      limitDatapoints_mostRecent; done.
Qed.

Lemma gtTimestamp_inverted f t :
  truthy f && truthy t && gtTimestamp f t = true ->
  exists a b, f = Some a /\ t = Some b /\ a <> 0 /\ b <> 0 /\ b < a.
Proof.
  destruct f as [a|], t as [b|]; simpl; try done;
    try (rewrite andb_false_r; done).
  intros H. apply andb_true_iff in H as [H Hgt].
  apply andb_true_iff in H as [Ha Hb].
  apply negb_true_iff, Z.eqb_neq in Ha, Hb.
  exists a, b. repeat split; try done.
  unfold gtTimestamp in Hgt. lia.
Qed.

(** X22: whenever [GET /api/price/ohlc/:interval] answers with candles,
    [/api/price/query], [/api/price/ohlc] and [/api/price/:interval] answer
    the same request with the same interval, bounds, count, candles and
    [lastUpdated]; the count is between 1 and 100. *)
Theorem ohlc_routes_agree poolData token f t now intervalKey fromTimestamp
    toTimestamp count candles updated :
  ohlcByInterval poolData token f t =
    Ohlc200 intervalKey fromTimestamp toTimestamp count candles updated ->
  priceQuery poolData (Some token) f t =
    Status200 intervalKey fromTimestamp toTimestamp count candles updated /\
  priceOhlc poolData (Some token) f t =
    Status200 intervalKey fromTimestamp toTimestamp count candles updated /\
  priceByInterval poolData token f t now =
    LegacyCandles intervalKey fromTimestamp toTimestamp count candles updated /\
  (1 <= count <= 100)%nat.
Proof.
  intros Hreply.
  destruct (mapInterval token) as [key|] eqn:Hmap;
    [|unfold ohlcByInterval in Hreply; by rewrite Hmap in Hreply].
  assert (Hf : f <> NotANumber).
  { intros ->. unfold ohlcByInterval in Hreply. by rewrite Hmap in Hreply. }
  assert (Ht : t <> NotANumber).
  { intros ->. unfold ohlcByInterval in Hreply. rewrite Hmap in Hreply.
    by destruct f. }
  rewrite (ohlcByInterval_reply _ _ key) in Hreply by done.
  cbv zeta in Hreply.
  set (filtered := filterOHLCByTimeRange (ohlc poolData key) (parsed f)
                     (parsed t)) in *.
  destruct (mostRecent 100 filtered) as [|c rest] eqn:Hrecent; [done|].
  injection Hreply as <- <- <- <- <- <-.
  assert (Hfiltered : filtered <> []).
  { intros Hnil. rewrite Hnil in Hrecent. done. }
  assert (Hohlc : ohlc poolData key <> []).
  { intros Hnil. apply Hfiltered. unfold filtered. by rewrite Hnil. }
  assert (Hrange : truthy (parsed f) && truthy (parsed t)
                   && gtTimestamp (parsed f) (parsed t) = false).
  { destruct (_ && _ && _) eqn:Hb; [|done].
    apply gtTimestamp_inverted in Hb as (a & b & Ha & Hb & ? & ? & ?).
    exfalso. apply Hfiltered. unfold filtered. rewrite Ha, Hb.
    by apply filterOHLCByTimeRange_inverted. }
  assert (Hquery : priceQuery poolData (Some token) f t =
    Status200 key (parsed f) (parsed t) (length (c :: rest)) (c :: rest)
      (lastUpdated poolData)).
  { rewrite (priceQuery_reply _ _ key) by done.
    rewrite Hrange. cbv zeta. fold filtered. by rewrite Hrecent. }
  split; [exact Hquery|]. split; [exact Hquery|].
  rewrite (priceByInterval_candles _ _ key) by done.
  cbv zeta. fold filtered. rewrite Hrecent.
  split; [done|]. split.
  - simpl. lia.
  - apply (f_equal length) in Hrecent. unfold mostRecent in Hrecent.
    rewrite length_drop in Hrecent. simpl in *. lia.
Qed.

Lemma ohlc_routes_agree_witness :
  priceQuery (set_ohlc I_1h twentyCandles (createPoolData 0)) (Some "1h")
    Absent Absent =
  Status200 I_1h None None 20 twentyCandles None.
Proof.
  apply (ohlc_routes_agree (set_ohlc I_1h twentyCandles (createPoolData 0))
           "1h" Absent Absent 0 I_1h None None 20 twentyCandles None).
  reflexivity.
Defined.

(** X23: [GET /api/price/ohlc/:interval] has no check of the order of the
    bounds: with non-zero bounds [from > to] it answers 404, where
    [/api/price/query] answers 400. *)
Theorem ohlcByInterval_inverted_range poolData token intervalKey
    fromTimestamp toTimestamp :
  mapInterval token = Some intervalKey ->
  fromTimestamp <> 0 -> toTimestamp <> 0 -> toTimestamp < fromTimestamp ->
  ohlcByInterval poolData token (Number fromTimestamp) (Number toTimestamp) =
    Ohlc404 intervalKey (Some fromTimestamp) (Some toTimestamp) /\
  priceQuery poolData (Some token) (Number fromTimestamp) (Number toTimestamp) =
    Status400 "from_timestamp cannot be greater than to_timestamp".
Proof.
  intros Hmap Hf Ht Hlt. split.
  - rewrite (ohlcByInterval_reply _ _ intervalKey) by done.
    cbn [parsed]. by rewrite filterOHLCByTimeRange_inverted.
  - rewrite (priceQuery_reply _ _ intervalKey) by done.
    cbn [parsed]. rewrite !truthy_nonzero by done.
    unfold gtTimestamp. destruct (Z.ltb_spec toTimestamp fromTimestamp); [done|lia].
Qed.

Lemma ohlcByInterval_inverted_range_witness :
  ohlcByInterval (set_ohlc I_1h twentyCandles (createPoolData 0)) "1h"
    (Number 36000000) (Number 3600000) =
  Ohlc404 I_1h (Some 36000000) (Some 3600000).
Proof.
  apply (ohlcByInterval_inverted_range
           (set_ohlc I_1h twentyCandles (createPoolData 0)) "1h" I_1h
           36000000 3600000); [reflexivity|lia|lia|lia].
Defined.

Lemma mapInterval_intervalName interval :
  mapInterval (intervalName interval) = Some interval.
Proof. by destruct interval. Qed.

Lemma mostRecent_all n l : (length l <= n)%nat -> mostRecent n l = l.
Proof.
  intros Hle. unfold mostRecent.
  by replace (length l - n)%nat with 0%nat by lia.
Qed.

(** X24: after [updateOHLCData] every interval has between 1 and 100
    candles, and [GET /api/price/ohlc/:interval] without bounds answers
    with all of them, under the interval's own name. *)
Theorem ohlcByInterval_after_update poolData price t interval :
  let updated := updateOHLCData poolData price t in
  ohlcByInterval updated (intervalName interval) Absent Absent =
    Ohlc200 interval None None (length (ohlc updated interval))
      (ohlc updated interval) (lastUpdated updated) /\
  (1 <= length (ohlc updated interval) <= 100)%nat.
Proof.
  intros updated.
  assert (Hlen : (1 <= length (ohlc updated interval) <= 100)%nat).
  { split.
    - destruct (last_updateOHLCData poolData price t interval)
        as (lastCandle & Hlast & _).
      fold updated in Hlast.
      destruct (ohlc updated interval); [done|simpl; lia].
    - unfold updated. rewrite ohlc_updateOHLCData, DATAPOINT_LIMITS_100.
      apply limitCandles_length. lia. }
  split; [|done].
  rewrite (ohlcByInterval_reply _ _ interval)
    by (done || apply mapInterval_intervalName).
  cbn [parsed]. rewrite filterOHLCByTimeRange_unbounded by done.
  rewrite mostRecent_all by lia.
  destruct (ohlc updated interval); [simpl in Hlen; lia|done].
Qed.

(** X25: an entry of the [intervals] object built for [/api/price/all]
    and [/api/price/intervals/all] is the interval's 100 most recent
    candles when it has candles, and else at most 100 defined raw prices
    taken in order from the history. *)
Theorem priceIntervalsAll_entries poolData now intervalKey :
  match priceIntervalsAll poolData now intervalKey with
  | CandlePoints candles =>
      candles <> [] /\ candles = mostRecent 100 (ohlc poolData intervalKey)
  | PricePoints prices =>
      ohlc poolData intervalKey = [] /\
      exists points,
        prices = Some <$> points /\ (length points <= 100)%nat /\
        points `sublist_of` history poolData
  end.
Proof.
  unfold priceIntervalsAll.
  destruct (ohlc poolData intervalKey) as [|c rest] eqn:Hl.
  - split; [done|].
    apply getIntervalPrices_defined.
  - rewrite limitDatapoints_mostRecent. split; [|done].
    intros Hnil. by apply mostRecent_nil in Hnil; [|lia].
Qed.

(** ** The route table *)

Lemma firstMatch_hit table path handler :
  firstMatch table path = Some handler ->
  exists before route after,
    table = before ++ (route, handler) :: after /\
    matchesRoute route path = true /\
    Forall (fun entry => matchesRoute entry.1 path = false) before.
Proof.
  induction table as [|[route h] rest IH]; [done|]. simpl.
  destruct (matchesRoute route path) eqn:Hm.
  - intros [= ->]. exists [], route, rest. by repeat split.
  - intros Hrest. destruct (IH Hrest) as (before & r & after & -> & ? & ?).
    exists ((route, h) :: before), r, after. repeat split; try done.
    by constructor.
Qed.

Lemma sameSegment_nonempty segment name :
  name <> "" -> sameSegment segment name = true -> segment <> "".
Proof.
  intros Hname Hsame ->. apply bool_decide_eq_true in Hsame.
  destruct name; [done | discriminate].
Qed.

(** The shape of a path that fits [/api/price/all]. *)
Lemma price_all_paths path :
  matchesRoute [Lit "api"; Lit "price"; Lit "all"] path = true ->
  exists a b c,
    (path = [a; b; c] \/ path = [a; b; c; ""]) /\
    sameSegment a "api" = true /\ sameSegment b "price" = true /\
    sameSegment c "all" = true.
Proof.
  destruct path as [| a [| b [| c [| d [| e rest]]]]]; simpl;
    rewrite ?andb_false_r; try done.
  - rewrite andb_true_r. intros H.
    apply andb_true_iff in H as [Ha H]. apply andb_true_iff in H as [Hb Hc].
    exists a, b, c. split; [by left | done].
  - intros H.
    apply andb_true_iff in H as [Ha H]. apply andb_true_iff in H as [Hb H].
    apply andb_true_iff in H as [Hc Hd].
    apply bool_decide_eq_true in Hd as ->.
    exists a, b, c. split; [by right | done].
Qed.

Lemma mapInterval_all interval :
  toLowerCase interval = "all" -> mapInterval interval = None.
Proof.
  intros Hall. unfold mapInterval.
  repeat (destruct (decide _) as [Heq | _];
          [exfalso; repeat (destruct Heq as [Heq | Heq]);
           subst interval; discriminate |]).
  done.
Qed.

(** X26: the route [/api/price/all] is registered after
    [/api/price/:interval]: the router never selects its handler, whatever
    the path; every path that fits [/api/price/all], in any letter case and
    with or without a trailing slash, goes to the handler of
    [/api/price/:interval] with its third segment as the interval, and that
    handler answers it with status 400 whatever the pool holds. *)
Theorem price_all_route_shadowed path :
  dispatch path <> Some PriceAllRoute /\
  dispatch ["api"; "price"; "all"] = Some PriceIntervalRoute /\
  (matchesRoute [Lit "api"; Lit "price"; Lit "all"] path = true ->
   exists interval,
     path !! 2%nat = Some interval /\
     dispatch path = Some PriceIntervalRoute /\
     forall poolData from_timestamp to_timestamp now,
       priceByInterval poolData interval from_timestamp to_timestamp now =
       Legacy400 "Invalid interval. Use 1m, 5m, 15m, 30m, 1h, 6h, 12h, 24h, 1w, or 1M").
Proof.
  assert (Hroute : matchesRoute [Lit "api"; Lit "price"; Lit "all"] path = true ->
            exists interval,
              path !! 2%nat = Some interval /\
              toLowerCase interval = "all" /\
              dispatch path = Some PriceIntervalRoute).
  { intros Hm.
    destruct (price_all_paths path Hm) as (a & b & c & Hpath & Ha & Hb & Hc).
    exists c. split; [by destruct Hpath as [-> | ->] |].
    split; [by apply bool_decide_eq_true in Hc |].
    pose proof (sameSegment_nonempty c "all" ltac:(done) Hc) as Hne.
    unfold sameSegment in *.
    apply bool_decide_eq_true in Ha, Hb, Hc.
    unfold dispatch, routes.
    destruct Hpath as [-> | ->]; cbn [firstMatch matchesRoute];
      unfold sameSegment;
      rewrite ?Ha, ?Hb, ?Hc; simpl.
    - by rewrite (bool_decide_eq_false_2 (c = "")) by done.
    - by rewrite (bool_decide_eq_false_2 (c = "")) by done. }
  split; [| split; [reflexivity |]].
  - intros Hd. pose proof Hd as Hhit. unfold dispatch in Hhit.
    apply firstMatch_hit in Hhit
      as (before & route & after & Htable & Hm & _).
    unfold routes in Htable.
    do 9 (destruct before as [|? before];
          [simplify_eq | injection Htable as <- Htable]).
    destruct before as [|? before].
    + simpl in Htable. injection Htable as Hr _. subst route.
      destruct (Hroute Hm) as (interval & _ & _ & Hinterval). congruence.
    + injection Htable as <- Htable.
      do 3 (destruct before as [|? before];
            [simplify_eq | injection Htable as <- Htable]).
      by destruct before.
  - intros Hm. destruct (Hroute Hm) as (interval & Hpath & Hall & Hd).
    exists interval. split; [done |]. split; [done |].
    intros poolData from_timestamp to_timestamp now.
    unfold priceByInterval. by rewrite mapInterval_all.
Qed.

(** ** Raw prices of [GET /api/price/:interval] *)

Lemma definedItems_Some (items : list HistoryItem) :
  definedItems (Some <$> items) = Some items.
Proof.
  induction items as [|item rest IH]; [done|].
  rewrite fmap_cons. cbn [definedItems]. by rewrite IH.
Qed.

Lemma fold_min_le (items : list HistoryItem) (start : Z) :
  let result :=
    fold_left (fun min item => if h_price item <? min then h_price item
                               else min) items start in
  result <= start /\ Forall (fun item => result <= h_price item) items.
Proof.
  cbv zeta. revert start. induction items as [|item rest IH]; intros start.
  - simpl. split; [lia|constructor].
  - simpl. destruct (Z.ltb_spec (h_price item) start) as [Hlt|Hge].
    + destruct (IH (h_price item)) as [Hle Hall]. split; [lia|].
      by constructor.
    + destruct (IH start) as [Hle Hall]. split; [lia|].
      constructor; [lia|done].
Qed.

Lemma fold_max_ge (items : list HistoryItem) (start : Z) :
  let result :=
    fold_left (fun max item => if max <? h_price item then h_price item
                               else max) items start in
  start <= result /\ Forall (fun item => h_price item <= result) items.
Proof.
  cbv zeta. revert start. induction items as [|item rest IH]; intros start.
  - simpl. split; [lia|constructor].
  - simpl. destruct (Z.ltb_spec start (h_price item)) as [Hlt|Hge].
    + destruct (IH (h_price item)) as [Hle Hall]. split; [lia|].
      by constructor.
    + destruct (IH start) as [Hle Hall]. split; [lia|].
      constructor; [lia|done].
Qed.

Lemma statsMin_le items :
  Forall (fun item => statsMin items <= h_price item) items.
Proof.
  destruct items as [|first rest]; [constructor|].
  unfold statsMin. apply fold_min_le.
Qed.

Lemma statsMax_ge items :
  Forall (fun item => h_price item <= statsMax items) items.
Proof. unfold statsMax. apply fold_max_ge. Qed.

Lemma stats_bounds items :
  Forall (fun item => statsMin items <= h_price item <= statsMax items) items.
Proof.
  pose proof (statsMin_le items) as Hmin.
  pose proof (statsMax_ge items) as Hmax.
  rewrite Forall_forall in *. intros item Hin. split; auto.
Qed.

(** X27: the raw-price branch of [GET /api/price/:interval] is taken only
    for an interval without candles; it never reads an undefined entry, it
    answers with at most 100 points taken in order from the history, and
    [min] and [max] bound every price of the answer. *)
Theorem priceByInterval_raw_prices poolData token f t now :
  match priceByInterval poolData token f t now with
  | LegacyThrows => False
  | LegacyPrices intervalKey _ _ dataPoints count min max _ =>
      ohlc poolData intervalKey = [] /\
      count = length dataPoints /\ (count <= 100)%nat /\
      dataPoints `sublist_of` history poolData /\
      Forall (fun item => min <= h_price item <= max) dataPoints
  | LegacyCandles intervalKey _ _ _ _ _ => ohlc poolData intervalKey <> []
  | Legacy400 _ => True
  end.
Proof.
  unfold priceByInterval.
  destruct (mapInterval token) as [intervalKey|]; [|done].
  assert (Hbody : forall fromTimestamp toTimestamp,
    match
      match ohlc poolData intervalKey with
      | [] =>
          match definedItems (getIntervalPrices poolData (minutesOf intervalKey)
                                (Some intervalKey) now) with
          | None => LegacyThrows
          | Some items =>
              let filteredData :=
                if truthy fromTimestamp || truthy toTimestamp
                then filter (fun item =>
                               inPriceRange fromTimestamp toTimestamp item)
                       items
                else items in
              LegacyPrices intervalKey fromTimestamp toTimestamp
                filteredData (length filteredData)
                (statsMin filteredData) (statsMax filteredData)
                (lastUpdated poolData)
          end
      | c :: rest =>
          let filteredData :=
            if truthy fromTimestamp || truthy toTimestamp
            then filterOHLCByTimeRange (c :: rest) fromTimestamp toTimestamp
            else c :: rest in
          let limitedData := limitDatapoints filteredData intervalKey in
          LegacyCandles intervalKey fromTimestamp toTimestamp
            (length limitedData) limitedData (lastUpdated poolData)
      end
    with
    | LegacyThrows => False
    | LegacyPrices intervalKey _ _ dataPoints count min max _ =>
        ohlc poolData intervalKey = [] /\
        count = length dataPoints /\ (count <= 100)%nat /\
        dataPoints `sublist_of` history poolData /\
        Forall (fun item => min <= h_price item <= max) dataPoints
    | LegacyCandles intervalKey _ _ _ _ _ => ohlc poolData intervalKey <> []
    | Legacy400 _ => True
    end).
  { intros fromTimestamp toTimestamp.
    destruct (ohlc poolData intervalKey) as [|c rest] eqn:Hl.
    2: { cbv beta iota zeta. by rewrite Hl. }
    destruct (getIntervalPrices_defined poolData (minutesOf intervalKey)
                (Some intervalKey) now) as (points & -> & Hlen & Hsub).
    rewrite definedItems_Some. cbv zeta.
    set (filteredData := if truthy fromTimestamp || truthy toTimestamp
                         then filter _ points else points).
    assert (Hfiltered : filteredData `sublist_of` points).
    { unfold filteredData. destruct (_ || _); [apply sublist_filter|done]. }
    split; [done|]. split; [done|]. split.
    { apply sublist_length in Hfiltered. lia. }
    split; [by etrans|]. apply stats_bounds. }
  destruct f, t; try done; apply Hbody.
Qed.

(** ** The start price of [GET /api/stats] *)

Lemma scanCandles_found cutoffTime ms candles candle closestCandle
    closestTimeDiff :
  0 < ms -> bucketed ms candles -> candle ∈ candles ->
  timestamp candle = roundedTimestamp cutoffTime ms ->
  (scanCandles cutoffTime ms candles closestCandle closestTimeDiff).1.1 =
  Some (open candle).
Proof.
  intros Hms [Hmod Hsorted] Hin Hts.
  revert closestCandle closestTimeDiff.
  induction candles as [|x rest IH]; intros closestCandle closestTimeDiff.
  { by apply elem_of_nil in Hin. }
  apply Forall_cons in Hmod as [Hx Hmod].
  apply StronglySorted_inv in Hsorted as [Hsorted Hlater].
  pose proof (roundedTimestamp_le cutoffTime ms Hms) as Hle.
  pose proof (roundedTimestamp_gt cutoffTime ms Hms) as Hgt.
  cbn [scanCandles].
  destruct ((timestamp x <=? cutoffTime) && (cutoffTime <? timestamp x + ms))
    eqn:Hwindow.
  - apply andb_true_iff in Hwindow as [H1 H2].
    apply Z.leb_le in H1. apply Z.ltb_lt in H2.
    assert (Hrounded : roundedTimestamp cutoffTime ms = timestamp x).
    { replace cutoffTime with (timestamp x + (cutoffTime - timestamp x))
        by lia.
      apply roundedTimestamp_aligned; [done|done|lia]. }
    apply elem_of_cons in Hin as [->|Hin]; [done|].
    rewrite Forall_forall in Hlater. specialize (Hlater _ Hin). lia.
  - apply elem_of_cons in Hin as [->|Hin].
    + apply andb_false_iff in Hwindow as [H|H];
        [apply Z.leb_gt in H|apply Z.ltb_ge in H]; lia.
    + destruct (closerThan _ _); by apply IH.
Qed.

Lemma scanCandles_spec cutoffTime ms candles closestCandle closestTimeDiff :
  let result :=
    scanCandles cutoffTime ms candles closestCandle closestTimeDiff in
  (forall price, result.1.1 = Some price ->
     exists candle, candle ∈ candles /\ price = open candle /\
       timestamp candle <= cutoffTime < timestamp candle + ms) /\
  (forall candle timeDiff,
     result.1.2 = Some candle -> result.2 = Some timeDiff ->
     (candle ∈ candles /\ timeDiff = Z.abs (timestamp candle - cutoffTime)) \/
     (closestCandle = Some candle /\ closestTimeDiff = Some timeDiff)).
Proof.
  cbv zeta. revert closestCandle closestTimeDiff.
  induction candles as [|x rest IH]; intros closestCandle closestTimeDiff.
  { simpl. split; [done|]. intros candle timeDiff -> ->. by right. }
  cbn [scanCandles].
  destruct ((timestamp x <=? cutoffTime) && (cutoffTime <? timestamp x + ms))
    eqn:Hwindow.
  - simpl. split.
    + intros price [= <-]. exists x. split; [apply elem_of_cons; by left|].
      apply andb_true_iff in Hwindow as [H1 H2].
      apply Z.leb_le in H1. apply Z.ltb_lt in H2. by split.
    + intros candle timeDiff -> ->. by right.
  - destruct (closerThan _ _).
    + destruct (IH (Some x) (Some (Z.abs (timestamp x - cutoffTime))))
        as [Hprice Hclosest].
      split.
      * intros price Hp. destruct (Hprice price Hp) as (c & ? & ? & ?).
        exists c. split; [apply elem_of_cons; by right|done].
      * intros candle timeDiff Hc Hd.
        destruct (Hclosest candle timeDiff Hc Hd) as [[? ?]|[[= <-] [= <-]]].
        -- left. split; [apply elem_of_cons; by right|done].
        -- left. split; [apply elem_of_cons; by left|done].
    + destruct (IH closestCandle closestTimeDiff) as [Hprice Hclosest].
      split.
      * intros price Hp. destruct (Hprice price Hp) as (c & ? & ? & ?).
        exists c. split; [apply elem_of_cons; by right|done].
      * intros candle timeDiff Hc Hd.
        destruct (Hclosest candle timeDiff Hc Hd) as [[? ?]|?].
        -- left. split; [apply elem_of_cons; by right|done].
        -- by right.
Qed.

Lemma scanHistory_spec cutoffTime items closestPrice closestTimeDiff :
  let result := scanHistory cutoffTime items closestPrice closestTimeDiff in
  forall price timeDiff,
    result.1 = Some price -> result.2 = Some timeDiff ->
    (exists item, item ∈ items /\ price = h_price item /\
       timeDiff = Z.abs (h_timestamp item - cutoffTime)) \/
    (closestPrice = Some price /\ closestTimeDiff = Some timeDiff).
Proof.
  cbv zeta. revert closestPrice closestTimeDiff.
  induction items as [|x rest IH]; intros closestPrice closestTimeDiff
    price timeDiff.
  { simpl. intros -> ->. by right. }
  cbn [scanHistory]. destruct (closerThan _ _); intros Hp Hd.
  - destruct (IH _ _ _ _ Hp Hd) as [(item & ? & ? & ?)|[[= <-] [= <-]]].
    + left. exists item. split; [apply elem_of_cons; by right|done].
    + left. exists x. split; [apply elem_of_cons; by left|done].
  - destruct (IH _ _ _ _ Hp Hd) as [(item & ? & ? & ?)|?].
    + left. exists item. split; [apply elem_of_cons; by right|done].
    + by right.
Qed.

Lemma truthy_Some x : truthy x = true -> exists n, x = Some n /\ n <> 0.
Proof.
  destruct x as [n|]; [|done]. simpl. intros H.
  apply negb_true_iff, Z.eqb_neq in H. by exists n.
Qed.

(** X28: when the candles of the interval's key lie on bucket boundaries
    in ascending order, as the aggregator leaves them, and there is a candle
    for the bucket that holds the cutoff time [now - ms] with a non-zero
    open, [GET /api/stats] takes that open as the start price. *)
Theorem statsFor_start_price_bucket poolData ms key now currentPrice candle :
  0 < ms ->
  latestPrice poolData = Some currentPrice -> currentPrice <> 0 ->
  bucketed ms (ohlc poolData key) ->
  candle ∈ ohlc poolData key ->
  timestamp candle = roundedTimestamp (now - ms) ms ->
  open candle <> 0 ->
  statsFor poolData (ms, Some key) now =
  Stats200 currentPrice (open candle) (currentPrice - open candle) now
    (lastUpdated poolData).
Proof.
  intros Hms Hlatest Hcurrent Hbucketed Hin Hts Hopen.
  unfold statsFor. rewrite Hlatest, truthy_nonzero by done.
  cbn [negb fst snd default from_option].
  assert (Hstart : startPriceFor poolData ms (Some key) (now - ms) =
                   Some (open candle)).
  { unfold startPriceFor, startPriceFromCandles.
    pose proof (scanCandles_found (now - ms) ms (ohlc poolData key) candle
                  None None Hms Hbucketed Hin Hts) as Hfound.
    destruct (scanCandles _ _ _ _ _) as [[startPrice closestCandle] d].
    simpl in Hfound. subst startPrice.
    by rewrite !truthy_nonzero by done. }
  rewrite Hstart, truthy_nonzero by done. done.
Qed.

Lemma statsFor_start_price_bucket_witness :
  statsFor
    (mkPoolData (Some 7) [] None
       (fun _ => [mkCandle 3600000 5 9 4 8; mkCandle 7200000 8 8 6 7])
       (mkVolume 0 0 0 0 0))
    (3600000, Some I_1h) 7500000 =
  Stats200 7 5 2 7500000 None.
Proof.
  apply (statsFor_start_price_bucket
           (mkPoolData (Some 7) [] None
              (fun _ => [mkCandle 3600000 5 9 4 8; mkCandle 7200000 8 8 6 7])
              (mkVolume 0 0 0 0 0))
           3600000 I_1h 7500000 7 (mkCandle 3600000 5 9 4 8)); try done.
  - split; [by repeat constructor|].
    repeat constructor; simpl; lia.
  - apply elem_of_cons. by left.
Defined.

Lemma truthy_false_Some n : truthy (Some n) = false -> n = 0.
Proof. simpl. intros H. apply negb_false_iff, Z.eqb_eq in H. done. Qed.

Lemma startPriceFromCandles_source poolData ms ohlcKey cutoffTime price :
  startPriceFromCandles poolData ms ohlcKey cutoffTime = Some price ->
  price <> 0 ->
  exists key candle,
    ohlcKey = Some key /\ candle ∈ ohlc poolData key /\
    ((price = open candle /\
      timestamp candle <= cutoffTime < timestamp candle + ms) \/
     (price = close candle /\
      Z.abs (timestamp candle - cutoffTime) <= ms)).
Proof.
  unfold startPriceFromCandles. destruct ohlcKey as [key|]; [|done].
  pose proof (scanCandles_spec cutoffTime ms (ohlc poolData key) None None)
    as [Hprice Hclosest].
  cbv zeta in Hprice, Hclosest.
  destruct (scanCandles _ _ _ _ _) as [[startPrice closestCandle] d].
  simpl in Hprice, Hclosest.
  destruct (truthy startPrice) eqn:Htruthy.
  - intros -> _. destruct (Hprice price eq_refl) as (candle & ? & ? & ?).
    exists key, candle. split; [done|]. split; [done|]. by left.
  - destruct closestCandle as [candle|], d as [timeDiff|];
      try (intros ->; apply truthy_false_Some in Htruthy; done).
    destruct (Z.leb_spec timeDiff ms) as [Hle|Hgt];
      [|intros ->; apply truthy_false_Some in Htruthy; done].
    intros [= <-] _.
    destruct (Hclosest candle timeDiff eq_refl eq_refl) as [[? ->]|[? _]];
      [|done].
    exists key, candle. split; [done|]. split; [done|]. by right.
Qed.

(** X29: an answer of [GET /api/stats] with status 200 has a non-zero
    current price and a non-zero start price (the percentage divides by the
    start price), and the start price is the open of a candle whose window
    holds the cutoff time [now - ms], or the close of a candle at most [ms]
    away from it, or a history price at most a tenth of [ms] away from
    it. *)
Theorem statsFor_start_price_source poolData ms ohlcKey now currentPrice
    startPrice priceChange timestamp' updated :
  statsFor poolData (ms, ohlcKey) now =
    Stats200 currentPrice startPrice priceChange timestamp' updated ->
  let cutoffTime := now - ms in
  latestPrice poolData = Some currentPrice /\ currentPrice <> 0 /\
  startPrice <> 0 /\ priceChange = currentPrice - startPrice /\
  ((exists key candle,
      ohlcKey = Some key /\ candle ∈ ohlc poolData key /\
      ((startPrice = open candle /\
        timestamp candle <= cutoffTime < timestamp candle + ms) \/
       (startPrice = close candle /\
        Z.abs (timestamp candle - cutoffTime) <= ms))) \/
   (exists item,
      item ∈ history poolData /\ startPrice = h_price item /\
      10 * Z.abs (h_timestamp item - cutoffTime) <= ms)).
Proof.
  unfold statsFor. cbn [fst snd].
  destruct (truthy (latestPrice poolData)) eqn:Hlatest; [|done].
  apply truthy_Some in Hlatest as (p & Hlatest & Hp). rewrite Hlatest.
  cbn [negb default from_option].
  destruct (truthy (startPriceFor _ _ _ _)) eqn:Hstart; [|done].
  apply truthy_Some in Hstart as (s & Hstart & Hs). rewrite Hstart.
  cbn [negb default from_option]. intros [= <- <- <- <- <-]. cbv zeta.
  split; [done|]. split; [done|]. split; [done|]. split; [done|].
  unfold startPriceFor in Hstart.
  destruct (truthy (startPriceFromCandles _ _ _ _)) eqn:Hcandles.
  { left. by apply startPriceFromCandles_source. }
  assert (Hnot : startPriceFromCandles poolData ms ohlcKey (now - ms)
                 <> Some s).
  { intros Heq. rewrite Heq in Hcandles.
    by apply truthy_false_Some in Hcandles. }
  destruct (history poolData) as [|item0 items] eqn:Hhistory; [done|].
  pose proof (scanHistory_spec (now - ms) (item0 :: items) None None) as Hspec.
  cbv zeta in Hspec.
  destruct (scanHistory _ _ _ _) as [closestPrice [timeDiff|]]; [|done].
  destruct (Z.leb_spec (10 * timeDiff) ms) as [Hle|Hgt]; [|done].
  destruct (Hspec s timeDiff Hstart eq_refl)
    as [(item & ? & ? & ->)|[? _]]; [|done].
  right. by exists item.
Qed.

Lemma statsFor_start_price_source_witness :
  latestPrice
    (mkPoolData (Some 7) [mkHistoryItem 6 3900100] None (fun _ => [])
       (mkVolume 0 0 0 0 0)) = Some 7.
Proof.
  apply (statsFor_start_price_source
           (mkPoolData (Some 7) [mkHistoryItem 6 3900100] None (fun _ => [])
              (mkVolume 0 0 0 0 0))
           3600000 (Some I_1h) 7500000 7 6 1 7500000 None).
  reflexivity.
Defined.

(** ** The aggregator of [index.js] *)

Lemma legacyWellFormed_foldPrice price c :
  legacyWellFormed c -> legacyWellFormed (Legacy.foldPrice price c).
Proof. unfold legacyWellFormed. simpl. lia. Qed.

Lemma legacyWellFormed_foldSample ms candles price t :
  Forall legacyWellFormed candles ->
  Forall legacyWellFormed (Legacy.foldSample ms candles price t).
Proof.
  intros Hall.
  assert (Hnew : legacyWellFormed
            (Legacy.mkCandle (roundedTimestamp t ms) price price price price 1)).
  { unfold legacyWellFormed. simpl. lia. }
  unfold Legacy.foldSample.
  destruct (snoc_cases candles) as [-> | (l & lastCandle & ->)].
  - simpl. by constructor.
  - rewrite last_snoc.
    destruct (Legacy.timestamp lastCandle + ms <=? t).
    + rewrite Forall_app. split; [done | by constructor].
    + rewrite alterLast_snoc. rewrite Forall_app in *.
      destruct Hall as [Hl Hlast]. split; [done |].
      rewrite Forall_singleton in Hlast.
      apply Forall_singleton. by apply legacyWellFormed_foldPrice.
Qed.

(** X30: in [index.js], where a candle opens at the sample's price,
    [updateOHLCData] keeps every candle of every interval well formed: the
    open and the close lie between the low and the high, and the count of
    samples is at least 1. *)
Theorem legacy_updateOHLCData_well_formed priceData price t interval :
  Forall legacyWellFormed (priceData interval) ->
  Forall legacyWellFormed (Legacy.updateOHLCData priceData price t interval).
Proof.
  intros Hall. rewrite ohlc_legacy_updateOHLCData.
  rewrite limitCandles_drop by (destruct interval; simpl; lia).
  by apply Forall_drop, legacyWellFormed_foldSample.
Qed.

Lemma legacy_updateOHLCData_well_formed_witness :
  Forall legacyWellFormed
    (Legacy.updateOHLCData (fun _ => [Legacy.mkCandle 0 10 12 9 11 3]) 8 1000
       I_1m).
Proof.
  apply (legacy_updateOHLCData_well_formed
           (fun _ => [Legacy.mkCandle 0 10 12 9 11 3]) 8 1000 I_1m).
  repeat constructor; simpl; lia.
Defined.
